(** * LinkedIn poster: a shallow embedding of [linkedin_poster.py]

    The development follows the class [LinkedInPoster].

    Definitions:
    - [PyStr]: Python [str] values as sequences of code points, with the
      string methods the class calls ([strip], [splitlines], [split],
      [replace], [join], [startswith], [endswith], [in], [isupper]);
    - [Formatter]: [format_post], the pure text formatter;
    - [Browser]: the Selenium session, the file system and the console as
      an explicit world, and a state-and-exception monad over it;
    - [Poster]: [get_driver], [save_cookies], [load_cookies],
      [check_login_status], [login_to_linkedin], [create_post] and
      [post_to_linkedin], statement by statement;
    - [Properties]: the notions the statements are written with;
    - [Scenarios]: concrete texts, worlds and states;
    - [Layout], [LayoutScenarios]: the shape of formatted text, and texts
      to format;
    - [LatestPost]: [get_latest_post] over an explicit posts directory, and
      the components that [main.py] saves;
    - [PostProperties], [PostScenarios]: notions and inputs for it;
    - [Conduct], [ConductScenarios]: notions and worlds for the conduct of
      the workflow (exceptions, files, what is typed, the session options).

    Facts:
    - [FormatterFacts]: what [format_post] does to the lines of a text;
    - [BrowserFacts]: how runs extend the history;
    - [PosterFacts]: when the session is closed, and when it is not;
    - [StoreFacts], [LoginFacts], [PublishFacts]: the credential store, the
      login workflow and the publishing workflow;
    - [LayoutFacts], [SectionFacts]: the output of [format_post] and its
      sections;
    - [RoundTripFacts]: the classified lines of input and output;
    - [LatestPostFacts]: what [get_latest_post] returns and raises;
    - [ConductFacts]: what the workflow raises, which files it changes,
      what it types, and how it starts the browser. *)

From Stdlib Require Import NArith QArith Ascii.
From stdpp Require Import base option list strings gmap.

Local Open Scope N_scope.
Local Open Scope list_scope.

(** ** Python strings *)

Module PyStr.

(** A Python [str] is a sequence of Unicode code points. *)
Definition str : Type := list N.

(** An ASCII literal of the source, as code points. *)
Definition lit (s : string) : str :=
  map Ascii.N_of_ascii (String.list_ascii_of_string s).

(** [str.isspace] for one code point ([_PyUnicode_IsWhitespace]). *)
Definition is_space (c : N) : bool :=
  ((0x09 <=? c) && (c <=? 0x0D)) || ((0x1C <=? c) && (c <=? 0x20))
  || (c =? 0x85) || (c =? 0xA0) || (c =? 0x1680)
  || ((0x2000 <=? c) && (c <=? 0x200A))
  || (c =? 0x2028) || (c =? 0x2029) || (c =? 0x202F) || (c =? 0x205F)
  || (c =? 0x3000).

(** The line boundaries of [str.splitlines] ([_PyUnicode_IsLinebreak]). *)
Definition is_linebreak (c : N) : bool :=
  ((0x0A <=? c) && (c <=? 0x0D)) || ((0x1C <=? c) && (c <=? 0x1E))
  || (c =? 0x85) || (c =? 0x2028) || (c =? 0x2029).

Fixpoint lstrip (s : str) : str :=
  match s with
  | c :: s' => if is_space c then lstrip s' else s
  | [] => []
  end.

Definition rstrip (s : str) : str := rev (lstrip (rev s)).

(** [s.strip()] *)
Definition strip (s : str) : str := rstrip (lstrip s).

(** Truth value of a string: non-empty. *)
Definition truthy (s : str) : bool :=
  match s with [] => false | _ :: _ => true end.

(** [s.startswith(p)] *)
Fixpoint startswith (p s : str) : bool :=
  match p, s with
  | [], _ => true
  | a :: p', b :: s' => (a =? b) && startswith p' s'
  | _ :: _, [] => false
  end.

(** [s.endswith(p)] *)
Definition endswith (p s : str) : bool := startswith (rev p) (rev s).

(** [p in s] *)
Fixpoint contains (p s : str) : bool :=
  startswith p s || match s with [] => false | _ :: s' => contains p s' end.

(** [sep.join(parts)] *)
Fixpoint join (sep : str) (parts : list str) : str :=
  match parts with
  | [] => []
  | [p] => p
  | p :: ps => p ++ sep ++ join sep ps
  end.

(** [s.splitlines()]: a carriage return directly followed by a line feed is
    one boundary, and a boundary at the very end opens no further line. *)
Fixpoint splitlines (s : str) : list str :=
  match s with
  | [] => []
  | c :: s' =>
      if is_linebreak c then
        if c =? 0x0D then
          match s' with
          | 0x0A :: s'' => [] :: splitlines s''
          | _ => [] :: splitlines s'
          end
        else [] :: splitlines s'
      else
        match splitlines s' with
        | [] => [[c]]
        | l :: ls => (c :: l) :: ls
        end
  end.

(** [s.replace(old, new)] for a non-empty [old]: occurrences are taken from
    the left and do not overlap; [skip] counts the code points of the
    occurrence that has just been replaced. *)
Fixpoint replace_from (old new : str) (skip : nat) (s : str) : str :=
  match s with
  | [] => []
  | c :: s' =>
      match skip with
      | S k => replace_from old new k s'
      | O =>
          if startswith old s
          then new ++ replace_from old new (pred (length old)) s'
          else c :: replace_from old new 0 s'
      end
  end.

Definition replace (old new s : str) : str := replace_from old new 0 s.

(** [s.split(sep)] for a non-empty [sep]; the result is never empty, so it
    is given as its first piece and the remaining ones. *)
Fixpoint split_from (sep : str) (skip : nat) (s : str) : str * list str :=
  match s with
  | [] => ([], [])
  | c :: s' =>
      match skip with
      | S k => split_from sep k s'
      | O =>
          if startswith sep s
          then let '(p, ps) := split_from sep (pred (length sep)) s' in
               ([], p :: ps)
          else let '(p, ps) := split_from sep 0 s' in (c :: p, ps)
      end
  end.

Definition split (sep s : str) : str * list str := split_from sep 0 s.

(** The part of the Unicode character database that [str.isupper] reads.
    The tables belong to the Python runtime; what is fixed here is their
    ASCII range. *)
Record UnicodeCase : Type := {
  cp_isupper : N -> bool;
  cp_islower : N -> bool;
  cp_istitle : N -> bool;
  cp_isupper_ascii :
    forall c, c < 128 -> cp_isupper c = (65 <=? c) && (c <=? 90);
  cp_islower_ascii :
    forall c, c < 128 -> cp_islower c = (97 <=? c) && (c <=? 122);
  cp_istitle_ascii : forall c, c < 128 -> cp_istitle c = false
}.

(** The scan of [unicode_isupper_impl] over a string of length at least 2:
    a lower-case or title-case code point ends it with [False]; otherwise
    the answer is whether an upper-case code point was met. *)
Fixpoint isupper_scan (U : UnicodeCase) (cased : bool) (s : str) : bool :=
  match s with
  | [] => cased
  | c :: s' =>
      if cp_islower U c || cp_istitle U c then false
      else if negb cased && cp_isupper U c then isupper_scan U true s'
      else isupper_scan U cased s'
  end.

(** [s.isupper()] *)
Definition isupper (U : UnicodeCase) (s : str) : bool :=
  match s with
  | [c] => cp_isupper U c
  | [] => false
  | _ => isupper_scan U false s
  end.

End PyStr.

(** ** The post formatter *)

Module Formatter.
Import PyStr.

Definition nl : str := [0x0A].
Definition hash : str := [0x23].
Definition stars : str := [0x2A; 0x2A].
Definition dash : str := [0x2D].
Definition dashes : str := [0x2D; 0x2D; 0x2D].
Definition colon : str := [0x3A].

(** The bullet glyph of the source, as the code points its literal holds. *)
Definition bullet_glyph : str := [0xE2; 0x20AC; 0xA2].

(** [header_indicators], in the order of the source; the seven marker
    literals after the colon are given by their code points. *)
Definition header_indicators : list str :=
  [ colon;
    [0xF0; 0x178; 0x201D; 0xA5];
    [0xF0; 0x178; 0x2019; 0xA1];
    [0xF0; 0x178; 0x161; 0x20AC];
    [0xF0; 0x178; 0x152; 0x17D];
    [0xF0; 0x178; 0xA4; 0x201D];
    [0xF0; 0x178; 0x2014; 0xA3; 0xEF; 0xB8];
    [0xEF; 0xBF; 0xBD];
    lit "Breaking News";
    lit "Why";
    lit "Impact";
    lit "Take";
    lit "Question";
    lit "Call to Action" ].

(** [lines = [line.strip() for line in content.splitlines() if line.strip()]] *)
Definition clean_lines (content : str) : list str :=
  map strip (filter (fun line => truthy (strip line) = true) (splitlines content)).

(** A line the loop does not skip: it does not start with three dashes. *)
Definition keeps (line : str) : Prop := startswith dashes line = false.

(** The lines of the input that reach the classification: markup removed,
    trimmed, non-empty, and not skipped. *)
Definition retained_lines (content : str) : list str :=
  filter keeps (clean_lines (replace stars [] content)).

Section WithCase.
Context (U : UnicodeCase).

(** The test [is_header] of the loop, for the line at index [i]. *)
Definition is_header (i : nat) (line : str) : bool :=
  existsb (fun indicator => contains indicator line) header_indicators
  || ((0 <? i)%nat && (length line <=? 50)%nat && isupper U line)
  || ((0 <? i)%nat && endswith colon line).

(** [line.startswith(bullet) or line.startswith('-')] *)
Definition is_bullet (line : str) : bool :=
  startswith bullet_glyph line || startswith dash line.

(** The class the loop gives a line it does not skip: the first of its
    tests that holds. *)
Inductive line_class : Type := Header | Bullet | Hashtag | Plain.

Definition classify (i : nat) (line : str) : line_class :=
  if is_header i line then Header
  else if is_bullet line then Bullet
  else if startswith hash line then Hashtag
  else Plain.

(** The header, bullet and hashtag lines among [lines], as the loop that
    starts at index [i] classifies them. *)
Fixpoint classified_from (i : nat) (lines : list str) : list str :=
  match lines with
  | [] => []
  | line :: rest =>
      if startswith dashes line then classified_from (S i) rest
      else match classify i line with
           | Plain => classified_from (S i) rest
           | _ => line :: classified_from (S i) rest
           end
  end.

(** The header, bullet and hashtag lines of a text. *)
Definition classified_lines (content : str) : list str :=
  classified_from 0 (clean_lines (replace stars [] content)).

(** The loop state: [formatted_sections] and [current_section]. *)
Definition sections_state : Type := list str * list str.

(** [if current_section: formatted_sections.append('\n'.join(current_section));
     current_section = []] *)
Definition flush (st : sections_state) : sections_state :=
  let '(formatted_sections, current_section) := st in
  match current_section with
  | [] => st
  | _ :: _ => (formatted_sections ++ [join nl current_section], [])
  end.

(** One iteration of the classification loop. *)
Definition classify_step (i : nat) (line : str) (st : sections_state)
  : sections_state :=
  if startswith dashes line then st
  else if is_header i line then
    let '(formatted_sections, current_section) := flush st in
    (formatted_sections ++ [line], current_section)
  else if is_bullet line then
    let '(formatted_sections, current_section) :=
      match last (snd st) with
      | Some prev => if negb (is_bullet prev) then flush st else st
      | None => st
      end in
    (formatted_sections, current_section ++ [line])
  else if startswith hash line then
    let '(formatted_sections, current_section) := flush st in
    (formatted_sections ++ [line], current_section)
  else (fst st, snd st ++ [line]).

(** [for i, line in enumerate(lines)], started at index [i]. *)
Fixpoint classify_loop (i : nat) (lines : list str) (st : sections_state)
  : sections_state :=
  match lines with
  | [] => st
  | line :: rest => classify_loop (S i) rest (classify_step i line st)
  end.

(** [formatted_sections] after the loop and the final flush. *)
Definition sections (lines : list str) : list str :=
  fst (flush (classify_loop 0 lines ([], []))).

(** [for i, section in enumerate(formatted_sections)], building
    [formatted_text]. *)
Fixpoint join_sections (i : nat) (secs : list str) (formatted_text : str)
  : str :=
  match secs with
  | [] => formatted_text
  | section :: rest =>
      if truthy (strip section) then
        join_sections (S i) rest
          ((if (0 <? i)%nat then formatted_text ++ nl else formatted_text)
             ++ strip section)
      else join_sections (S i) rest formatted_text
  end.

(** The last step: the text is cut at every [#] and the pieces after the
    first are put back on one line. *)
Definition hashtag_fix (formatted_text : str) : str :=
  if contains hash formatted_text then
    let '(main_content, hashtag_parts) := split hash formatted_text in
    let hashtags := join (lit " #") (map strip hashtag_parts) in
    strip (strip main_content ++ nl ++ hash ++ hashtags)
  else strip formatted_text.

Definition format_post (content : str) : str :=
  let content := replace stars [] content in
  let lines := clean_lines content in
  let formatted_sections := sections lines in
  let formatted_text := join_sections 0 formatted_sections [] in
  hashtag_fix formatted_text.

End WithCase.

(** A string without its white space, for comparing lines up to white
    space. *)
Definition squeeze (s : str) : str := filter (fun c => is_space c = false) s.

(** The round trip of the specification: input and output have the same
    header, bullet and hashtag lines, up to white space. *)
Definition same_classified_lines (U : UnicodeCase) (content : str) : Prop :=
  forall l : str,
    l ∈ map squeeze (classified_lines U content)
    <-> l ∈ map squeeze (classified_lines U (format_post U content)).

(** A case table that knows the ASCII letters only. *)
Program Definition ascii_case : UnicodeCase :=
  {| cp_isupper c := (c <? 128) && (65 <=? c) && (c <=? 90);
     cp_islower c := (c <? 128) && (97 <=? c) && (c <=? 122);
     cp_istitle c := false |}.
Solve All Obligations with
  (intros; cbn; destruct (N.ltb_spec0 c 128); [reflexivity | contradiction]).

(** [text] with the two-character escape [\n] of the source read as a line
    feed, for writing multi-line literals. *)
Fixpoint unescape (s : list Ascii.ascii) : str :=
  match s with
  | "\"%char :: "n"%char :: s' => 0x0A :: unescape s'
  | c :: s' => Ascii.N_of_ascii c :: unescape s'
  | [] => []
  end.

Definition text (s : string) : str := unescape (String.list_ascii_of_string s).

End Formatter.

(** ** The browser, the file system and the console *)

Module Browser.
Import PyStr.

Local Open Scope string_scope.

(** A value held in a cookie dictionary. *)
Inductive pyval : Type :=
| VStr (s : string)
| VNum (q : Q)
| VBool (b : bool)
| VNone.

(** A cookie record is a Python [dict] with string keys. *)
Abbreviation cookie := (gmap string pyval).

Inductive exn : Type :=
| ValueError (msg : string)
| PyException (msg : string)
| KeyError (key : string)
| TypeError
| UnpicklingError
| OSError (msg : string)
| WebDriverException (msg : string).

(** The pieces of a printed or written line: the literal text of an
    f-string and the values it interpolates. *)
Inductive fragment : Type :=
| Text (s : string)
| ShowStr (t : str)
| ShowVal (v : option pyval)
| ShowExn (e : exn)
| Newline.

(** What a file of the working directory holds. *)
Inductive file : Type :=
| Pickle (cookies : list cookie)   (* a pickled list of cookie records *)
| Garbage                          (* what [pickle.load] rejects *)
| Image                            (* a screenshot *)
| TextFile (written : list fragment)
| Directory.

Inductive driver : Type := Session (id : nat).
Inductive element : Type := Element (id : nat).

Inductive by_ : Type := By_ID | By_CSS_SELECTOR | By_XPATH | By_CLASS_NAME.

Inductive condition : Type :=
| presence_of_element_located
| element_to_be_clickable.

Inductive chrome_option : Type :=
| Argument (arg : string)
| Experimental (name : string) (value : string).

Inductive js_arg : Type := JsElement (e : element) | JsText (t : str).

Inductive keys : Type := Typed (s : string) | Keys_RETURN.

(** The calls that leave the program: to the browser session, to the file
    system, and (for [get_latest_post]) to the posts directory. *)
Inductive request : Type :=
| InstallChromeDriver
| NewChrome (service : string) (options : list chrome_option)
| ExecuteCdpCmd (d : driver) (cmd : string)
| MaximizeWindow (d : driver)
| Get (d : driver) (url : string)
| Refresh (d : driver)
| Quit (d : driver)
| GetCookies (d : driver)
| AddCookie (d : driver) (c : cookie)
| CurrentUrl (d : driver)
| PageSource (d : driver)
| FindElement (d : driver) (how : by_) (selector : string)
| WaitUntil (d : driver) (timeout : nat) (cond : condition) (how : by_)
            (selector : string)
| IsDisplayed (e : element)
| Clear (e : element)
| SendKeys (e : element) (k : keys)
| ExecuteScript (d : driver) (script : string) (args : list js_arg)
| SaveScreenshot (d : driver) (filename : string)
| OpenRead (path : string)
| OpenWrite (path : string)
| PickleDump (path : string) (cookies : list cookie)
| FileWrite (path : string) (data : list fragment)
| Remove (path : string)
| MakeDirs (path : string)
| GetLatestPost.   (* [self.get_latest_post()]: the post text, or its exception *)

(** The type of the value a successful call returns. *)
Definition reply (r : request) : Type :=
  match r with
  | InstallChromeDriver => string
  | NewChrome _ _ => driver
  | GetCookies _ => list cookie
  | CurrentUrl _ => string
  | PageSource _ => string
  | FindElement _ _ _ => element
  | WaitUntil _ _ _ _ _ => element
  | IsDisplayed _ => bool
  | SaveScreenshot _ _ => bool
  | GetLatestPost => str
  | _ => unit
  end.

Inductive outcome (A : Type) : Type :=
| Done (a : A)
| Fault (msg : string).
Arguments Done {A} a.
Arguments Fault {A} msg.

(** The exception a failed call raises. *)
Definition fault_of (r : request) (msg : string) : exn :=
  match r with
  | OpenRead _ | OpenWrite _ | PickleDump _ _ | FileWrite _ _
  | Remove _ | MakeDirs _ => OSError msg
  | GetLatestPost => PyException msg
  | _ => WebDriverException msg
  end.

(** What the program did, in order. *)
Inductive event : Type :=
| Did (r : request)
| Slept (seconds : Q)
| Printed (message : list fragment).

(** The world outside the program: how each call is answered after a given
    history, and what the clock shows. *)
Record world : Type := {
  answer : list event -> forall r : request, outcome (reply r);
  clock : list event -> Q;           (* [datetime.now().timestamp()] *)
  clock_text : list event -> string  (* [datetime.now().strftime(...)] *)
}.

(** The state a run threads: the history, the files, [self.options], and
    the local variable [driver] of [post_to_linkedin]. *)
Record state : Type := {
  trace : list event;
  fs : gmap string file;
  options : list chrome_option;
  driver_var : option driver
}.

Definition log (e : event) (s : state) : state :=
  {| trace := trace s ++ [e]; fs := fs s; options := options s;
     driver_var := driver_var s |}.

Definition set_fs (f : gmap string file) (s : state) : state :=
  {| trace := trace s; fs := f; options := options s;
     driver_var := driver_var s |}.

Definition set_options (o : list chrome_option) (s : state) : state :=
  {| trace := trace s; fs := fs s; options := o;
     driver_var := driver_var s |}.

Definition set_driver_var (d : option driver) (s : state) : state :=
  {| trace := trace s; fs := fs s; options := options s; driver_var := d |}.

(** The effect of a successful call on the files. *)
Definition fs_effect (r : request) (v : reply r) (f : gmap string file)
  : gmap string file :=
  match r return reply r -> gmap string file with
  | SaveScreenshot _ filename =>
      fun written => if written then <[filename := Image]> f else f
  | OpenWrite path => fun _ => <[path := Garbage]> f
  | PickleDump path cookies => fun _ => <[path := Pickle cookies]> f
  | FileWrite path data => fun _ =>
      match f !! path with
      | Some (TextFile written) => <[path := TextFile (written ++ data)]> f
      | _ => <[path := TextFile data]> f
      end
  | Remove path => fun _ => delete path f
  | MakeDirs path => fun _ => <[path := Directory]> f
  | _ => fun _ => f
  end v.

Inductive result (A : Type) : Type :=
| Ok (a : A)
| Raise (e : exn).
Arguments Ok {A} a.
Arguments Raise {A} e.

(** Computations: they read the world, thread the state, and end with a
    value or a raised exception. *)
Definition M (A : Type) : Type := world -> state -> result A * state.

Definition ret {A} (a : A) : M A := fun _ s => (Ok a, s).

Definition bind {A B} (m : M A) (k : A -> M B) : M B :=
  fun w s =>
    match m w s with
    | (Ok a, s') => k a w s'
    | (Raise e, s') => (Raise e, s')
    end.

Definition raise {A} (e : exn) : M A := fun _ s => (Raise e, s).

(** [try: m  except Exception as e: h e] (and the bare [except:]). *)
Definition try_except {A} (m : M A) (h : exn -> M A) : M A :=
  fun w s =>
    match m w s with
    | (Ok a, s') => (Ok a, s')
    | (Raise e, s') => h e w s'
    end.

(** [try: m  finally: f]: [f] runs on every way out of [m]; an exception of
    [f] replaces the outcome of [m]. *)
Definition try_finally {A} (m : M A) (f : M unit) : M A :=
  fun w s =>
    match m w s with
    | (r, s') =>
        match f w s' with
        | (Ok _, s'') => (r, s'')
        | (Raise e, s'') => (Raise e, s'')
        end
    end.

Definition lift {A} (r : result A) : M A := fun _ s => (r, s).

Definition call (r : request) : M (reply r) :=
  fun w s =>
    match answer w (trace s) r with
    | Done v => (Ok v, set_fs (fs_effect r v (fs s)) (log (Did r) s))
    | Fault msg => (Raise (fault_of r msg), log (Did r) s)
    end.

Definition sleep (seconds : Q) : M unit :=
  fun _ s => (Ok tt, log (Slept seconds) s).

Definition print (message : list fragment) : M unit :=
  fun _ s => (Ok tt, log (Printed message) s).

Definition now_timestamp : M Q := fun w s => (Ok (clock w (trace s)), s).

Definition now_strftime : M string :=
  fun w s => (Ok (clock_text w (trace s)), s).

(** [os.path.exists(path)] *)
Definition path_exists (path : string) : M bool :=
  fun _ s => (Ok (bool_decide (is_Some (fs s !! path))), s).

(** [pickle.load(f)] on the file just opened. *)
Definition pickle_load (path : string) : M (list cookie) :=
  fun _ s =>
    match fs s !! path with
    | Some (Pickle cookies) => (Ok cookies, s)
    | _ => (Raise UnpicklingError, s)
    end.

Definition get_options : M (list chrome_option) :=
  fun _ s => (Ok (options s), s).

Definition put_options (o : list chrome_option) : M unit :=
  fun _ s => (Ok tt, set_options o s).

Definition get_driver_var : M (option driver) :=
  fun _ s => (Ok (driver_var s), s).

Definition put_driver_var (d : option driver) : M unit :=
  fun _ s => (Ok tt, set_driver_var d s).

Declare Scope io_scope.
Delimit Scope io_scope with io.
Bind Scope io_scope with M.

Notation "x ← y ; z" := (bind y (fun x => z)) : io_scope.
Notation "' x ← y ; z" := (bind y (fun x => z)) : io_scope.
Notation "x ;; z" := (bind x (fun _ => z)) : io_scope.

End Browser.

(** ** The poster *)

Module Poster.
Import PyStr Formatter Browser.

Local Open Scope string_scope.
Local Open Scope io_scope.

(** [self.cookies_file] *)
Definition cookies_file : string := "linkedin_cookies.pkl".

(** [self.email] and [self.password]: what [os.getenv] returned. *)
Record credentials : Type := {
  email : option string;
  password : option string
}.

(** [not x] for an optional string: [None] and the empty string count as
    false, so that [not x] holds. *)
Definition missing (x : option string) : bool :=
  match x with
  | None => true
  | Some v => bool_decide (v = "")
  end.

(** [self.options] as [__init__] leaves it. *)
Definition initial_options : list chrome_option :=
  [ Argument "--no-sandbox";
    Argument "--disable-dev-shm-usage";
    Argument "--disable-notifications";
    Argument "--disable-blink-features=AutomationControlled";
    Experimental "excludeSwitches" "['enable-automation']";
    Experimental "useAutomationExtension" "False" ].

Definition stealth_script : string :=
  "Object.defineProperty(navigator, 'webdriver', { get: () => undefined })".

Definition get_driver : M driver :=
  service ← call InstallChromeDriver;
  opts ← get_options;
  d ← call (NewChrome service opts);
  call (ExecuteCdpCmd d stealth_script);;
  put_options (opts ++ [Argument "--headless"]);;
  ret d.

(** *** The credential store *)

Definition essential_cookies : list string := ["li_at"; "JSESSIONID"].

(** [cookie['name'] in essential_cookies] *)
Definition has_essential_name (c : cookie) : result bool :=
  match c !! "name" with
  | None => Raise (KeyError "name")
  | Some (VStr n) => Ok (bool_decide (n ∈ essential_cookies))
  | Some _ => Ok false
  end.

(** [any(cookie['name'] in essential_cookies for cookie in cookies)]: the
    generator stops at the first hit. *)
Fixpoint any_essential (cookies : list cookie) : result bool :=
  match cookies with
  | [] => Ok false
  | c :: rest =>
      match has_essential_name c with
      | Ok true => Ok true
      | Ok false => any_essential rest
      | Raise e => Raise e
      end
  end.

Definition save_cookies (d : driver) : M bool :=
  try_except
    (sleep 3;;
     cookies ← call (GetCookies d);
     found ← lift (any_essential cookies);
     if found then
       call (OpenWrite cookies_file);;
       call (PickleDump cookies_file cookies);;
       print [Text "Cookies saved successfully!"];;
       ret true
     else
       print [Text "Warning: Essential cookies not found"];;
       ret false)
    (fun e =>
       print [Text "Error saving cookies: "; ShowExn e];;
       ret false).

(** ['expiry' in cookie and cookie['expiry'] <= current_time]; a Boolean
    compares as 0 or 1, a string or [None] does not compare with a number. *)
Definition expired (current_time : Q) (c : cookie) : result bool :=
  match c !! "expiry" with
  | None => Ok false
  | Some (VNum q) => Ok (Qle_bool q current_time)
  | Some (VBool b) => Ok (Qle_bool (if b then 1 else 0) current_time)
  | Some _ => Raise TypeError
  end.

(** [for k in ['expiry', 'expires', 'domain']: cookie.pop(k, None)] *)
Definition pop_attributes (c : cookie) : cookie :=
  delete "domain" (delete "expires" (delete "expiry" c)).

(** The loop that builds [valid_cookies]. *)
Fixpoint valid_cookies (current_time : Q) (cookies : list cookie)
  : result (list cookie) :=
  match cookies with
  | [] => Ok []
  | c :: rest =>
      match expired current_time c with
      | Raise e => Raise e
      | Ok true => valid_cookies current_time rest
      | Ok false =>
          match valid_cookies current_time rest with
          | Ok valid => Ok (pop_attributes c :: valid)
          | Raise e => Raise e
          end
      end
  end.

(** [for cookie in valid_cookies: try: driver.add_cookie(cookie) ...] *)
Fixpoint add_cookies (d : driver) (valid : list cookie) : M unit :=
  match valid with
  | [] => ret tt
  | c :: rest =>
      try_except
        (call (AddCookie d c))
        (fun e =>
           print [Text "Warning: Could not add cookie "; ShowVal (c !! "name");
                  Text ": "; ShowExn e]);;
      add_cookies d rest
  end.

Definition load_cookies (d : driver) : M bool :=
  try_except
    (found ← path_exists cookies_file;
     if negb found then
       print [Text "No cookies file found"];;
       ret false
     else
       call (OpenRead cookies_file);;
       cookies ← pickle_load cookies_file;
       current_time ← now_timestamp;
       valid ← lift (valid_cookies current_time cookies);
       match valid with
       | [] =>
           print [Text "No valid cookies found"];;
           ret false
       | _ :: _ =>
           add_cookies d valid;;
           print [Text "Cookies loaded successfully!"];;
           ret true
       end)
    (fun e =>
       print [Text "Error loading cookies: "; ShowExn e];;
       ret false).

(** *** Login *)

Definition feed_url : string := "https://www.linkedin.com/feed/".
Definition feed_prefix : string := "https://www.linkedin.com/feed".
Definition home_url : string := "https://www.linkedin.com".
Definition login_url : string := "https://www.linkedin.com/login".

Definition login_indicators : list string :=
  [ "share-box-feed-entry__trigger";
    "global-nav__me-trigger";
    "feed-identity-module";
    "global-nav__primary-link" ].

(** The probe loop of [check_login_status]: [true] stands for the
    [return True] inside the loop. *)
Fixpoint probe_login (d : driver) (selectors : list string) : M bool :=
  match selectors with
  | [] => ret false
  | selector :: rest =>
      hit ← try_except
              (e ← call (WaitUntil d 15 presence_of_element_located
                           By_CLASS_NAME selector);
               shown ← call (IsDisplayed e);
               if shown then
                 print [Text "Login verified with selector: "; Text selector];;
                 ret true
               else ret false)
              (fun _ => ret false);
      if hit then ret true else probe_login d rest
  end.

Definition check_login_status (d : driver) : M bool :=
  try_except
    (call (Get d feed_url);;
     sleep 5;;
     url ← call (CurrentUrl d);
     if negb (String.prefix feed_prefix url) then
       print [Text "Not on feed page after navigation"];;
       ret false
     else
       hit ← probe_login d login_indicators;
       if hit then ret true
       else
         print [Text "Could not verify login status"];;
         ret false)
    (fun e =>
       print [Text "Error checking login status: "; ShowExn e];;
       ret false).

Section WithCredentials.
Context (cred : credentials).

(** The cookie part of [login_to_linkedin]: [true] stands for its
    [return True]. *)
Definition cookie_login (d : driver) : M bool :=
  found ← path_exists cookies_file;
  if found then
    print [Text "Found existing cookies, attempting to use them..."];;
    loaded ← load_cookies d;
    if loaded then
      call (Refresh d);;
      sleep 5;;
      logged_in ← check_login_status d;
      if logged_in then
        print [Text "Successfully logged in using saved cookies!"];;
        ret true
      else
        print [Text "Cookie login failed, removing cookie file"];;
        call (Remove cookies_file);;
        ret false
    else ret false
  else ret false.

(** The inner [try] of the manual login. *)
Definition enter_credentials (d : driver) (email password : string) : M bool :=
  try_except
    (email_field ← call (FindElement d By_ID "username");
     call (Clear email_field);;
     sleep 1;;
     call (SendKeys email_field (Typed email));;
     sleep 2;;
     password_field ← call (FindElement d By_ID "password");
     call (Clear password_field);;
     sleep 1;;
     call (SendKeys password_field (Typed password));;
     sleep 2;;
     call (SendKeys password_field Keys_RETURN);;
     sleep 10;;
     logged_in ← check_login_status d;
     if logged_in then
       print [Text "Manual login successful!"];;
       saved ← save_cookies d;
       (if saved then print [Text "New login cookies saved"] else ret tt);;
       ret true
     else
       print [Text "Login verification failed"];;
       ret false)
    (fun e =>
       print [Text "Error during manual login: "; ShowExn e];;
       ret false).

(** The manual part of [login_to_linkedin], from the credentials test on. *)
Definition manual_login (d : driver) : M bool :=
  if missing (email cred) || missing (password cred) then
    raise (ValueError
      "Please set LINKEDIN_EMAIL and LINKEDIN_PASSWORD in .env file for login")
  else
    print [Text "Performing manual login..."];;
    call (Get d login_url);;
    sleep 5;;
    enter_credentials d (default "" (email cred)) (default "" (password cred)).

(** The handler of the outer [try] of [login_to_linkedin]. *)
Definition login_failed (d : driver) (e : exn) : M bool :=
  print [Text "Login process failed: "; ShowExn e];;
  url ← call (CurrentUrl d);
  (if negb (bool_decide (url = login_url)) then
     url' ← call (CurrentUrl d);
     print [Text "Current URL: "; Text url']
   else ret tt);;
  ret false.

Definition login_to_linkedin (d : driver) : M bool :=
  try_except
    (call (Get d home_url);;
     sleep 5;;
     logged_in ← cookie_login d;
     if logged_in then ret true else manual_login d)
    (login_failed d).

(** *** Publishing *)

Definition click_script : string := "arguments[0].click();".

(** One approach to the compose trigger: find, click, and record success;
    any exception is swallowed with a message. *)
Definition try_trigger (d : driver) (how : by_) (selector : string)
    (message : string) : M bool :=
  try_except
    (post_button ← call (FindElement d how selector);
     call (ExecuteScript d click_script [JsElement post_button]);;
     ret true)
    (fun _ => print [Text message];; ret false).

(** The three approaches to the compose trigger; the result is
    [post_button_found]. *)
Definition find_compose_trigger (d : driver) : M bool :=
  found ← try_trigger d By_CSS_SELECTOR
            "button[data-control-name='share.sharebox_focus']"
            "Approach 1 failed";
  found ← (if negb found then
             try_trigger d By_XPATH "//button[contains(.,'Start a post')]"
               "Approach 2 failed"
           else ret found);
  if negb found then
    try_trigger d By_XPATH
      "//div[contains(@class, 'share-box-feed-entry__trigger')]"
      "Approach 3 failed"
  else ret found.

(** One approach to an element that is kept in a variable: the element on
    success, [None] with a message on any exception. *)
Definition try_locate (locate : M element) (message : string)
  : M (option element) :=
  try_except
    (e ← locate; ret (Some e))
    (fun _ => print [Text message];; ret None).

(** [if not x: <approach>], for a variable holding an element or [None]. *)
Definition unless_found (x : option element) (approach : M (option element))
  : M (option element) :=
  match x with
  | Some _ => ret x
  | None => approach
  end.

Definition find_post_field (d : driver) : M (option element) :=
  post_field ← try_locate
    (call (WaitUntil d 10 presence_of_element_located By_CSS_SELECTOR
             "div[data-placeholder='What do you want to talk about?']"))
    "Editor approach 1 failed";
  post_field ← unless_found post_field
    (try_locate (call (FindElement d By_CSS_SELECTOR "div.ql-editor"))
       "Editor approach 2 failed");
  unless_found post_field
    (try_locate
       (call (FindElement d By_XPATH "//div[contains(@class, 'editor-content')]"))
       "Editor approach 3 failed").

Definition br : str := lit "<br>".

(** The separator of [content.split] in [create_post]: two line feeds. *)
Definition paragraph_break : str := (Formatter.nl ++ Formatter.nl)%list.

(** [for paragraph in paragraphs: if paragraph.strip(): ...] *)
Fixpoint enter_paragraphs (d : driver) (post_field : element)
    (paragraphs : list str) : M unit :=
  match paragraphs with
  | [] => ret tt
  | paragraph :: rest =>
      (if truthy (strip paragraph) then
         let html_content := replace Formatter.nl br paragraph in
         call (ExecuteScript d "arguments[0].innerHTML += arguments[1] + '<br><br>';"
                 [JsElement post_field; JsText html_content]);;
         sleep (1 # 2)
       else ret tt);;
      enter_paragraphs d post_field rest
  end.

Definition find_submit_button (d : driver) : M (option element) :=
  post_button ← try_locate
    (call (WaitUntil d 10 element_to_be_clickable By_CSS_SELECTOR
             "button.share-actions__primary-action"))
    "Post button approach 1 failed";
  post_button ← unless_found post_button
    (try_locate (call (FindElement d By_XPATH "//button[contains(text(), 'Post')]"))
       "Post button approach 2 failed");
  unless_found post_button
    (try_locate (call (FindElement d By_CSS_SELECTOR "button[type='submit']"))
       "Post button approach 3 failed").

Definition success_indicators : list string :=
  [ "//div[contains(@class, 'share-box-feed-entry__trigger')]";
    "//div[contains(@class, 'feed-shared-update-v2')]";
    "//span[contains(text(), 'Post successful')]" ].

(** The probe loop after submission: [true] stands for the [return True]
    inside the loop. *)
Fixpoint probe_success (d : driver) (indicators : list string) : M bool :=
  match indicators with
  | [] => ret false
  | indicator :: rest =>
      hit ← try_except
              (e ← call (WaitUntil d 5 presence_of_element_located
                           By_XPATH indicator);
               shown ← call (IsDisplayed e);
               if shown then
                 print [Text "Post verified with indicator: "; Text indicator];;
                 ret true
               else ret false)
              (fun _ => ret false);
      if hit then ret true else probe_success d rest
  end.

Definition unverified_warning : list fragment :=
  [Text "Warning: Could not verify post success, but no errors detected"].

(** The verification step of [create_post], from the wait after the click. *)
Definition verify_post (d : driver) : M bool :=
  sleep 10;;
  hit ← probe_success d success_indicators;
  if hit then ret true
  else
    print unverified_warning;;
    ret true.

(** [f"pre_post_error_{timestamp}.png"] *)
Definition pre_post_shot (timestamp : string) : string :=
  "pre_post_error_" ++ timestamp ++ ".png".

(** The screenshot and the exception of [create_post] when no approach
    has found the compose trigger. *)
Definition trigger_not_found (d : driver) : M unit :=
  timestamp ← now_strftime;
  call (SaveScreenshot d (pre_post_shot timestamp));;
  raise (PyException "Could not find post button").

(** The [try] block of [create_post] up to the click on the submit button. *)
Definition submit_post (d : driver) (content : str) : M unit :=
  call (Get d feed_url);;
  sleep 5;;
  post_button_found ← find_compose_trigger d;
  (if negb post_button_found then trigger_not_found d else ret tt);;
  sleep 5;;
  post_field ← find_post_field d;
  match post_field with
  | None => raise (PyException "Could not find post input field")
  | Some post_field =>
      call (ExecuteScript d "arguments[0].innerHTML = '';" [JsElement post_field]);;
      sleep 2;;
      let '(p, ps) := split paragraph_break content in
      enter_paragraphs d post_field (p :: ps);;
      sleep 3;;
      post_button ← find_submit_button d;
      match post_button with
      | None => raise (PyException "Could not find post button")
      | Some post_button =>
          call (ExecuteScript d click_script [JsElement post_button])
      end
  end.

(** The handler of the outer [try] of [create_post]. *)
Definition post_failed (d : driver) (e : exn) : M bool :=
  print [Text "Error creating post: "; ShowExn e];;
  url ← call (CurrentUrl d);
  print [Text "Current URL: "; Text url];;
  try_except
    (timestamp ← now_strftime;
     call (SaveScreenshot d ("error_screenshot_" ++ timestamp ++ ".png"));;
     print [Text "Error screenshot saved as error_screenshot_"; Text timestamp;
            Text ".png"];;
     print [Text "Page source preview:"];;
     source ← call (PageSource d);
     print [Text (String.substring 0 1000 source)])
    (fun _ => ret tt);;
  ret false.

Definition create_post (d : driver) (content : str) : M bool :=
  try_except
    (submit_post d content;;
     verify_post d)
    (post_failed d).

(** *** The whole run *)

Definition log_dir : string := "linkedin_logs".

(** The part of [post_to_linkedin] after a successful [create_post]. *)
Definition write_log (formatted_content : str) : M unit :=
  timestamp ← now_strftime;
  found ← path_exists log_dir;
  (if negb found then call (MakeDirs log_dir) else ret tt);;
  let log_file := log_dir ++ "/post_log_" ++ timestamp ++ ".txt" in
  call (OpenWrite log_file);;
  call (FileWrite log_file [Text "Posted at: "; Text timestamp; Newline]);;
  call (FileWrite log_file
          [Text "Content:"; Newline; ShowStr formatted_content; Newline]);;
  print [Text "Successfully posted to LinkedIn! Log saved to "; Text log_file].

Section WithCase.
Context (U : UnicodeCase).

(** The [try] block of [post_to_linkedin] up to and including the
    assignment [driver = self.get_driver()]. *)
Definition open_session (content : option str) : M (driver * str) :=
  content ← match content with
            | None => call GetLatestPost
            | Some c => ret c
            end;
  let formatted_content := format_post U content in
  d ← get_driver;
  put_driver_var (Some d);;
  ret (d, formatted_content).

(** The [try] block of [post_to_linkedin] after that assignment. *)
Definition use_session (d : driver) (formatted_content : str) : M bool :=
  call (MaximizeWindow d);;
  logged_in ← login_to_linkedin d;
  if negb logged_in then raise (PyException "Failed to login to LinkedIn")
  else
    posted ← create_post d formatted_content;
    if negb posted then raise (PyException "Failed to create post")
    else
      write_log formatted_content;;
      ret true.

(** The [finally] block: [if driver: driver.quit()]. *)
Definition close_session : M unit :=
  driver ← get_driver_var;
  match driver with
  | Some d => call (Quit d)
  | None => ret tt
  end.

Definition post_to_linkedin (content : option str) : M bool :=
  put_driver_var None;;
  try_finally
    (try_except
       ('(d, formatted_content) ← open_session content;
        use_session d formatted_content)
       (fun e =>
          print [Text "Error posting to LinkedIn: "; ShowExn e];;
          ret false))
    close_session.

End WithCase.

End WithCredentials.

End Poster.

(** ** Notions used in the statements *)

Module Properties.
Import PyStr Formatter Browser Poster.

Local Open Scope string_scope.
Local Open Scope list_scope.

(** *** Text *)

(** A string is trimmed on the left when [lstrip] leaves it alone. *)
Definition ltrimmed (s : str) : Prop := lstrip s = s.

(** Trimmed on both sides. *)
Definition trimmed (s : str) : Prop := ltrimmed s /\ ltrimmed (rev s).

(** A string without a line boundary. *)
Definition unbroken (l : str) : Prop :=
  Forall (fun c => is_linebreak c = false) l.

(** A line of [clean_lines]: non-empty, trimmed, and without a boundary. *)
Definition tidy (l : str) : Prop := l <> [] /\ trimmed l /\ unbroken l.

(** A non-empty trimmed string: what a section is. *)
Definition solid (s : str) : Prop := s <> [] /\ trimmed s.

(** Every line with a line feed in front: the text of several lines after
    the first one. *)
Definition flat (ls : list str) : str := concat (map (fun l => nl ++ l) ls).

(** The loop state holds the lines [r], cut into groups: the finished
    sections, and the lines of the section that is still open. *)
Definition grouped (r : list str) (st : sections_state) : Prop :=
  exists groups,
    fst st = map (join nl) groups
    /\ Forall (fun g => g <> [] /\ Forall tidy g) groups
    /\ Forall tidy (snd st)
    /\ concat groups ++ snd st = r.

(** A line boundary directly followed by three dashes. *)
Fixpoint has_marker (s : str) : bool :=
  match s with
  | [] => false
  | c :: s' => (is_linebreak c && startswith dashes s') || has_marker s'
  end.

Definition ascii_only (s : str) : Prop := Forall (fun c => (c < 128)%N) s.

(** *** Runs *)

(** The events of [s'] that [s] does not have yet. *)
Definition new_events (s s' : state) : list event :=
  drop (length (trace s)) (trace s').

(** [s'] comes after [s]: the variable [driver] is the same, and the
    history has grown by events that satisfy [Q]. *)
Definition extends (Q : event -> Prop) (s s' : state) : Prop :=
  driver_var s' = driver_var s
  /\ exists evs, trace s' = trace s ++ evs /\ Forall Q evs.

(** Every run of [m] extends the state by events that satisfy [Q]. *)
Definition steps (Q : event -> Prop) {A} (m : M A) : Prop :=
  forall w s, extends Q s (m w s).2.

Definition is_quit (e : event) : bool :=
  match e with
  | Did (Quit _) => true
  | _ => false
  end.

Definition not_quit (e : event) : Prop := is_quit e = false.

(** How often [driver.quit()] was called. *)
Fixpoint quits (evs : list event) : nat :=
  match evs with
  | [] => 0
  | e :: rest => (if is_quit e then 1 else 0) + quits rest
  end.

(** *** The credential store *)

(** The cookie records handed to [driver.add_cookie]. *)
Definition added_cookies (evs : list event) : list cookie :=
  omap (fun e => match e with Did (AddCookie _ c) => Some c | _ => None end) evs.

(** [c] comes from the stored record [c0], which had not expired at [t]. *)
Definition fresh_copy (t : Q) (stored : list cookie) (c : cookie) : Prop :=
  exists c0, c0 ∈ stored /\ c = pop_attributes c0 /\ expired t c0 = Ok false.

(** No record of [cookies] carries an essential name. *)
Definition no_essential (cookies : list cookie) : Prop :=
  Forall (fun c => forall n, c !! "name" = Some (VStr n) -> n ∉ essential_cookies)
    cookies.

(** Opening a file for writing, or pickling into it. *)
Definition is_store_write (e : event) : bool :=
  match e with
  | Did (OpenWrite _) | Did (PickleDump _ _) => true
  | _ => false
  end.

(** *** Login *)

(** The login workflow reaches the manual login: the first navigation and
    the cookie part of [login_to_linkedin] end without a login, in [s1]. *)
Definition reaches_manual_login (d : driver) (w : world) (s s1 : state) : Prop :=
  (call (Get d home_url);; sleep 5;; cookie_login d)%io w s = (Ok false, s1).

(** Putting a cookie into the session, refreshing, or opening the feed to
    check the login. *)
Definition is_injection (e : event) : bool :=
  match e with
  | Did (AddCookie _ _) | Did (Refresh _) => true
  | Did (Get _ url) => bool_decide (url = feed_url)
  | _ => false
  end.

(** Printing, or reading the current URL of [d]. *)
Definition is_report (d : driver) (e : event) : Prop :=
  match e with
  | Printed _ => True
  | Did (CurrentUrl d') => d' = d
  | _ => False
  end.

(** The claim of the specification about missing credentials: the login
    workflow ends by raising a configuration error to its caller. *)
Definition raises_configuration_error (r : result bool) : Prop :=
  exists msg, r = Raise (ValueError msg).

(** *** Publishing *)

(** No approach has found the compose trigger: the navigation to the feed
    and the three approaches end with [post_button_found = False], in [s1]. *)
Definition trigger_missed (d : driver) (w : world) (s s1 : state) : Prop :=
  (call (Get d feed_url);; sleep 5;; find_compose_trigger d)%io w s
  = (Ok false, s1).

(** What the failure handling of [create_post] does: it prints, takes
    screenshots, and reads the current URL and the page source. *)
Definition is_diagnostic (e : event) : bool :=
  match e with
  | Printed _ | Did (SaveScreenshot _ _) | Did (CurrentUrl _)
  | Did (PageSource _) => true
  | _ => false
  end.

End Properties.

(** ** Concrete worlds *)

Module Scenarios.
Import PyStr Formatter Browser Poster.

Local Open Scope string_scope.

(** The example of the specification, the same text with its hashtag line
    put first, a text without hashtags, a header line with a [#] inside,
    and a text with a marker line. *)
Definition breaking_news : str := text "Breaking News: X\n\nfoo\nbar\n\n#A #B".
Definition hashtags_first : str := text "#A #B\n\nBreaking News: X\n\nfoo\nbar".
Definition outline : str :=
  text "Key Points:\n- first\n- second\n\n---\nMore to come".
Definition sharp_header : str := lit "Note: C# rocks".
Definition marked : str := text "--- cut here\nkept".

Definition session : driver := Session 1.

(** Every call succeeds, every element is found and displayed. *)
Definition calm_answer (r : request) : outcome (reply r) :=
  match r return outcome (reply r) with
  | InstallChromeDriver => Done "/usr/local/bin/chromedriver"
  | NewChrome _ _ => Done session
  | ExecuteCdpCmd _ _ => Done tt
  | MaximizeWindow _ => Done tt
  | Get _ _ => Done tt
  | Refresh _ => Done tt
  | Quit _ => Done tt
  | GetCookies _ => Done []
  | AddCookie _ _ => Done tt
  | CurrentUrl _ => Done feed_url
  | PageSource _ => Done "<html></html>"
  | FindElement _ _ _ => Done (Element 0)
  | WaitUntil _ _ _ _ _ => Done (Element 0)
  | IsDisplayed _ => Done true
  | Clear _ => Done tt
  | SendKeys _ _ => Done tt
  | ExecuteScript _ _ _ => Done tt
  | SaveScreenshot _ _ => Done true
  | OpenRead _ => Done tt
  | OpenWrite _ => Done tt
  | PickleDump _ _ => Done tt
  | FileWrite _ _ => Done tt
  | Remove _ => Done tt
  | MakeDirs _ => Done tt
  | GetLatestPost => Done breaking_news
  end.

Definition world_of (a : forall r : request, outcome (reply r)) : world :=
  {| answer := fun _ => a;
     clock := fun _ => 10%Q;
     clock_text := fun _ => "20240101_120000" |}.

Definition calm : world := world_of calm_answer.

(** No locator finds anything: [find_element] raises. *)
Definition no_element : world :=
  world_of (fun r =>
    match r return outcome (reply r) with
    | FindElement _ _ _ => Fault "no such element"
    | r => calm_answer r
    end).

(** No explicit wait is ever satisfied: [WebDriverWait.until] times out. *)
Definition no_wait : world :=
  world_of (fun r =>
    match r return outcome (reply r) with
    | WaitUntil _ _ _ _ _ => Fault "timeout"
    | r => calm_answer r
    end).

(** The browser holds one cookie, and it is not an essential one. *)
Definition language_cookie : cookie :=
  {[ "name" := VStr "lang"; "value" := VStr "en" ]}.

Definition only_language_cookie : world :=
  world_of (fun r =>
    match r return outcome (reply r) with
    | GetCookies _ => Done [language_cookie]
    | r => calm_answer r
    end).

(** A session cookie that expired at time 5, and one that lasts until 99. *)
Definition stale_cookie : cookie :=
  {[ "name" := VStr "li_at"; "value" := VStr "old"; "expiry" := VNum 5;
     "domain" := VStr ".linkedin.com" ]}.

Definition fresh_cookie : cookie :=
  {[ "name" := VStr "JSESSIONID"; "value" := VStr "new"; "expiry" := VNum 99;
     "domain" := VStr ".linkedin.com" ]}.

Definition start : state :=
  {| trace := []; fs := ∅; options := initial_options; driver_var := None |}.

Definition start_with (cookies : list cookie) : state :=
  {| trace := []; fs := {[ cookies_file := Pickle cookies ]};
     options := initial_options; driver_var := None |}.

Definition no_credentials : credentials := {| email := None; password := None |}.

Definition some_credentials : credentials :=
  {| email := Some "user@example.org"; password := Some "secret" |}.

End Scenarios.

(** ** The shape of formatted text *)

Module Layout.
Import PyStr Formatter Properties.

(** Every two neighbouring code points of [s] satisfy [R]. *)
Fixpoint chained (R : N -> N -> bool) (s : str) : bool :=
  match s with
  | a :: (b :: _) as t => R a b && chained R t
  | _ => true
  end.

(** Not two asterisks. *)
Definition no_star_pair (a b : N) : bool := negb ((a =? 42) && (b =? 42)).

(** Around a line feed there is no white space. *)
Definition feed_apart (a b : N) : bool :=
  (if a =? 10 then negb (is_space b) else true)
  && (if b =? 10 then negb (is_space a) else true).

(** A [#] comes after a space. *)
Definition hash_after_space (a b : N) : bool := negb (b =? 35) || (a =? 32).

(** The only line boundary of the text is the line feed. *)
Definition only_feeds (s : str) : Prop :=
  Forall (fun c => is_linebreak c = true -> c = 10) s.

(** Text as [format_post] lays it out: trimmed, broken by line feeds only,
    and without white space around a line feed, so that its lines are
    non-empty and trimmed. *)
Definition laid_out (s : str) : Prop :=
  trimmed s /\ chained feed_apart s = true /\ only_feeds s.

(** The pieces that [split] finds again in [' #'.join(pieces)]: all but the
    last have the space of the separator at their end. *)
Fixpoint spaced_pieces (qs : list str) : list str :=
  match qs with
  | [] => []
  | [q] => [q]
  | q :: rest => (q ++ [32]) :: spaced_pieces rest
  end.

(** A line of the input that [format_post] drops: blank, or starting with
    three dashes once trimmed. *)
Definition dropped (line : str) : Prop :=
  strip line = [] \/ startswith dashes (strip line) = true.

(** The lines of the text that start with [#]. *)
Definition hash_lines (s : str) : list str :=
  filter (fun l => startswith hash l = true) (splitlines s).

(** [current_section[-1].startswith((bullet, '-'))] is the test [is_bullet]
    of the loop; a line that is neither a bullet nor starts with [#]. *)
Definition is_plain (line : str) : bool :=
  negb (is_bullet line) && negb (startswith hash line).

(** From index [i] on, the loop takes no line of [lines] for a header and
    skips none. *)
Fixpoint unmarked_from (U : UnicodeCase) (i : nat) (lines : list str) : bool :=
  match lines with
  | [] => true
  | line :: rest =>
      negb (startswith dashes line) && negb (is_header U i line)
      && unmarked_from U (S i) rest
  end.

(** The first line of the input that is not blank does not start with three
    dashes, or every line is blank: the loop skips no line before the first
    one it classifies. *)
Definition leading_kept (content : str) : bool :=
  match clean_lines (replace stars [] content) with
  | [] => true
  | line :: _ => negb (startswith dashes line)
  end.

(** No line but the last contains a [#], and the last contains one only if
    it starts with one. *)
Fixpoint hash_at_end (lines : list str) : bool :=
  match lines with
  | [] => true
  | [line] => negb (contains hash line) || startswith hash line
  | line :: rest => negb (contains hash line) && hash_at_end rest
  end.

End Layout.

(** ** Texts to format *)

Module LayoutScenarios.
Import PyStr Formatter.

Local Open Scope string_scope.

(** A marker line, and then a short line in capitals. *)
Definition marker_first : str := text "---\nABC".

(** Two lines that start with a [#]. *)
Definition tag_lines : str := text "#a\n#b".

(** Two lines of text and a line of hashtags with white space to spare. *)
Definition tagged : str := text "Big news\nRead on:\n#A   # B  #C".

End LayoutScenarios.

(** ** The latest post: [get_latest_post], and the components [main.py] saves *)

Module LatestPost.
Import PyStr Formatter.

Local Open Scope string_scope.
Local Open Scope list_scope.

(** What the function raises, or lets through from the file system. *)
Inductive error : Type :=
| Exception (msg : string)
| IndexError
| OSError (msg : string)
| UnicodeDecodeError.

Inductive returned (A : Type) : Type :=
| Returns (a : A)
| Raises (e : error).
Arguments Returns {A} a.
Arguments Raises {A} e.

Definition post_start : str := lit "---POST START---".
Definition post_end : str := lit "---POST END---".
Definition fire : str := [0xF0; 0x178; 0x201D; 0xA5].
Definition call_to_action : str := lit "Call to Action:".
Definition three_dashes : str := lit "---".

(** [content.split(start_marker)[1].split(end_marker)[0]] *)
Definition between (start_marker end_marker content : str) : returned str :=
  match snd (split start_marker content) with
  | piece :: _ => Returns (fst (split end_marker piece))
  | [] => Raises IndexError
  end.

(** *** The pattern [---POST.*?START---(.+?)---POST.*?END---] under
    [re.DOTALL]

    The matcher tries the start positions from the left, and at each one
    the lengths of the lazy parts from the shortest on. *)

(** [(.+?)---POST.*?END---] with the group already holding [group]: the
    shortest extension of the group after which [---POST] stands and
    [END---] follows somewhere. *)
Fixpoint grow_group (group rest : str) : option str :=
  if startswith (lit "---POST") rest && contains (lit "END---") (drop 7 rest)
  then Some group
  else match rest with
       | [] => None
       | c :: rest' => grow_group (group ++ [c]) rest'
       end.

Definition group_at (s : str) : option str :=
  match s with
  | [] => None
  | c :: s' => grow_group [c] s'
  end.

(** [.*?START---(.+?)---POST.*?END---] *)
Fixpoint after_post (s : str) : option str :=
  match (if startswith (lit "START---") s then group_at (drop 8 s) else None) with
  | Some group => Some group
  | None => match s with
            | [] => None
            | _ :: s' => after_post s'
            end
  end.

(** [re.search(pattern, content, re.DOTALL)], as [match.group(1)]. *)
Fixpoint re_search (s : str) : option str :=
  match (if startswith (lit "---POST") s then after_post (drop 7 s) else None) with
  | Some group => Some group
  | None => match s with
            | [] => None
            | _ :: s' => re_search s'
            end
  end.

(** *** The order of [str], and [max] *)

(** [a < b] on strings: by code points, the shorter of a string and its
    extension first. *)
Fixpoint str_lt (a b : str) : bool :=
  match a, b with
  | _, [] => false
  | [], _ :: _ => true
  | x :: a', y :: b' => (x <? y)%N || ((x =? y)%N && str_lt a' b')
  end.

(** [max] keeps the first of the greatest items. *)
Fixpoint max_from (best : str) (rest : list str) : str :=
  match rest with
  | [] => best
  | x :: rest' => max_from (if str_lt best x then x else best) rest'
  end.

(** *** The posts directory *)

(** What [open(path, 'r')] and [f.read()] give. *)
Inductive reading : Type :=
| Content (text : str)
| Unreadable (e : error).

(** An entry of [linkedin_posts]: its name, whether it is a directory, and
    what is found at [full_output.txt] inside it, if the path exists. *)
Record entry : Type := {
  name : str;
  is_dir : bool;
  full_output : option reading
}.

(** The directory [linkedin_posts] as the function meets it; a listing
    names every entry once. *)
Inductive posts_dir : Type :=
| Missing
| Listing (entries : list entry)
| Unlistable (e : error).

(** An argument of [print]. *)
Inductive shown : Type :=
| Lit (s : string)
| Str (t : str)
| Err (e : error)        (* [str(e)] *)
| Parts (ps : list str).

(** A call of [print], by its arguments. *)
Definition message : Type := list shown.

(** [[d for d in os.listdir(posts_dir) if os.path.isdir(...)]] *)
Definition directories (entries : list entry) : list str :=
  map name (filter (fun e => is_dir e = true) entries).

(** What is at [os.path.join(posts_dir, d, 'full_output.txt')]. *)
Definition at_full_output (entries : list entry) (d : str) : option reading :=
  match filter (fun e => name e = d) entries with
  | e :: _ => full_output e
  | [] => None
  end.

(** The choice of the text, the first part of the [try] block. *)
Definition choose (content : str) : returned str :=
  if contains post_start content && contains post_end content then
    between post_start post_end content
  else if contains fire content && contains hash content
          && contains call_to_action content then
    Returns content
  else
    match re_search content with
    | Some group => Returns group
    | None => Raises (Exception "Could not find valid post content")
    end.

(** The clean-up, the second part of the [try] block. *)
Definition clean_up (post_content : str) : returned str :=
  let post_content := strip post_content in
  let post_content := replace stars [] post_content in
  if negb (truthy (strip post_content))
  then Raises (Exception "Found POST section but it was empty")
  else Returns (strip post_content).

(** The [try] block. *)
Definition extract (content : str) : returned str :=
  match choose content with
  | Returns post_content => clean_up post_content
  | Raises e => Raises e
  end.

(** [get_latest_post]: what it prints, and what it returns or raises. *)
Definition get_latest_post (posts : posts_dir) : list message * returned str :=
  match posts with
  | Missing => ([], Raises (Exception "No posts directory found"))
  | Unlistable e => ([], Raises e)
  | Listing entries =>
      match directories entries with
      | [] => ([], Raises (Exception "No post directories found"))
      | d :: ds =>
          let latest_dir := max_from d ds in
          match at_full_output entries latest_dir with
          | None =>
              ([], Raises (Exception "No full_output.txt found in latest directory"))
          | Some (Unreadable e) => ([], Raises e)
          | Some (Content content) =>
              let found := [Lit "Found content:"; Str (take 500 content); Lit "..."] in
              match extract content with
              | Returns post => ([found], Returns post)
              | Raises e =>
                  ([found;
                    [Lit "Error extracting post content: "; Err e];
                    [Lit "Content structure:";
                     Parts (let '(p, ps) := split three_dashes content in p :: ps)]],
                   Raises (Exception
                     "Could not extract valid post content from the output file"))
              end
          end
      end
  end.

(** *** [main.py]: the components saved beside [full_output.txt] *)

Definition start_marker (content_type : string) : str :=
  lit ("---" +:+ content_type +:+ " START---").

Definition end_marker (content_type : string) : str :=
  lit ("---" +:+ content_type +:+ " END---").

(** What the loop body writes for [content_type]: [Returns (Some content)] is
    the text written to the component's file, [Returns None] the warning that
    the component was not found. *)
Definition component (content_type : string) (result_str : str)
  : returned (option str) :=
  if contains (start_marker content_type) result_str
     && contains (end_marker content_type) result_str
  then
    match between (start_marker content_type) (end_marker content_type) result_str with
    | Returns content => Returns (Some (strip content))
    | Raises e => Raises e
    end
  else Returns None.

End LatestPost.

(** ** Notions for the latest post *)

Module PostProperties.
Import PyStr Formatter Properties LatestPost.

(** No occurrence of [marker] begins within [a], in the text [a ++ rest]. *)
Fixpoint none_begins (marker a rest : str) : bool :=
  match a with
  | [] => true
  | _ :: a' => negb (startswith marker (a ++ rest)) && none_begins marker a' rest
  end.

(** The text has its first start marker after [before], then [body], then
    an end marker: no end marker begins within [body], and no further
    start marker before that end marker is over. *)
Definition framed (before body rest content : str) : Prop :=
  content = before ++ post_start ++ body ++ post_end ++ rest
  /\ none_begins post_start before post_start = true
  /\ none_begins post_start (body ++ post_end) rest = true
  /\ none_begins post_end body post_end = true.

(** The entry [e] is the directory of [entries] with the greatest name. *)
Definition greatest_dir (e : entry) (entries : list entry) : Prop :=
  e ∈ entries /\ is_dir e = true
  /\ forall e', e' ∈ entries -> is_dir e' = true -> str_lt (name e) (name e') = false.

(** The messages with which [get_latest_post] itself ends. *)
Definition own_errors : list error :=
  [ Exception "No posts directory found";
    Exception "No post directories found";
    Exception "No full_output.txt found in latest directory";
    Exception "Could not extract valid post content from the output file" ].

End PostProperties.

(** ** Texts and directories to run the latest post on *)

Module PostScenarios.
Import PyStr Formatter LatestPost.

Local Open Scope string_scope.

(** The output of a run, with the three components. *)
Definition crew_output : str :=
  text "---STORY START---\nA story.\n---STORY END---\n---POST START---\n**Big** news #ai\n---POST END---\n".

Definition run (dir_name : string) (content : str) : entry :=
  {| name := lit dir_name; is_dir := true; full_output := Some (Content content) |}.

(** Two runs and a file with a greater name. *)
Definition two_runs : list entry :=
  [ run "20240101_120000" (lit "old");
    run "20240102_090000" crew_output;
    {| name := lit "notes.txt"; is_dir := false; full_output := None |} ].

End PostScenarios.

(** ** Notions for the conduct of the workflow *)

Module Conduct.
Import PyStr Formatter Browser Poster Properties.

Local Open Scope string_scope.

(** Every run of [m] ends with a value. *)
Definition never_raises {A} (m : M A) : Prop :=
  forall w s, exists a, (m w s).1 = Ok a.

(** The file a call may change. *)
Definition touched (r : request) : option string :=
  match r with
  | SaveScreenshot _ filename => Some filename
  | OpenWrite path | PickleDump path _ | FileWrite path _
  | Remove path | MakeDirs path => Some path
  | _ => None
  end.

(** Every run of [m] leaves the files alone whose names do not satisfy
    [P]. *)
Definition changes_only (P : string -> Prop) {A} (m : M A) : Prop :=
  forall w s k, ~ P k -> fs (m w s).2 !! k = fs s !! k.

Definition no_file (k : string) : Prop := False.

Definition is_cookie_store (k : string) : Prop := k = cookies_file.

Definition is_screenshot (k : string) : Prop :=
  exists timestamp,
    k = pre_post_shot timestamp
    \/ k = "error_screenshot_" ++ timestamp ++ ".png".

Definition log_file (timestamp : string) : string :=
  log_dir ++ "/post_log_" ++ timestamp ++ ".txt".

Definition is_log (k : string) : Prop :=
  k = log_dir \/ exists timestamp, k = log_file timestamp.

(** The files of the workflow: the cookie store, the screenshots, and the
    logs. *)
Definition workflow_file (k : string) : Prop :=
  k = cookies_file \/ is_screenshot k \/ is_log k.

(** What a finished log file holds. *)
Definition log_text (timestamp : string) (formatted_content : str)
  : list fragment :=
  [ Text "Posted at: "; Text timestamp; Newline;
    Text "Content:"; Newline; ShowStr formatted_content; Newline ].

(** The texts handed to scripts, in order. *)
Definition script_texts (evs : list event) : list str :=
  flat_map (fun e =>
              match e with
              | Did (ExecuteScript _ _ args) =>
                  omap (fun a => match a with JsText t => Some t | _ => None end)
                       args
              | _ => []
              end) evs.

(** The sessions started, by the options they were started with. *)
Definition started_with (evs : list event) : list (list chrome_option) :=
  omap (fun e => match e with Did (NewChrome _ opts) => Some opts | _ => None end)
       evs.

(** The event starts no session. *)
Definition no_start (e : event) : Prop := started_with [e] = [].

(** The event hands no text to a script, or the text [t]. *)
Definition types_only (t : str) (e : event) : Prop :=
  script_texts [e] = [] \/ script_texts [e] = [t].

(** [m] never returns [True]. *)
Definition never_true (m : M bool) : Prop :=
  forall w s s', m w s <> (Ok true, s').

(** [m] returns [True] only after an event that satisfies [E]. *)
Definition vouched (E : event -> Prop) (m : M bool) : Prop :=
  forall w s s',
    m w s = (Ok true, s') ->
    exists evs, trace s' = (trace s ++ evs)%list /\ Exists E evs.

Definition any_event (e : event) : Prop := True.

(** One of [selectors] was reported as a displayed login indicator. *)
Definition verified_by (selectors : list string) (e : event) : Prop :=
  exists selector,
    selector ∈ selectors
    /\ e = Printed [Text "Login verified with selector: "; Text selector].

(** A displayed login indicator was reported. *)
Definition login_verified (e : event) : Prop := verified_by login_indicators e.

(** The call [driver.quit()] failed. *)
Definition quit_failed (w : world) (s' : state) (e : exn) : Prop :=
  exists d msg evs,
    trace s' = (evs ++ [Did (Quit d)])%list
    /\ answer w evs (Quit d) = Fault msg
    /\ e = WebDriverException msg.

(** The sessions that the calls of [webdriver.Chrome] among [evs] have
    started, [evs] being what happened after the history [h]. *)
Fixpoint created (w : world) (h evs : list event) : list driver :=
  match evs with
  | [] => []
  | e :: rest =>
      match e with
      | Did (NewChrome service opts) =>
          match answer w h (NewChrome service opts) with
          | Done d => [d]
          | Fault _ => []
          end
      | _ => []
      end ++ created w (h ++ [e])%list rest
  end.

(** The error of [login_to_linkedin] for missing credentials. *)
Definition credentials_error : exn :=
  ValueError
    "Please set LINKEDIN_EMAIL and LINKEDIN_PASSWORD in .env file for login".

(** The expiry time of the record, if it has one, is a number. *)
Definition numeric_expiry (c : cookie) : Prop :=
  match c !! "expiry" with
  | None | Some (VNum _) => True
  | Some _ => False
  end.

(** The record is still good at the time [t]: an expiry time that it
    carries is later than [t]. *)
Definition unexpired (t : Q) (c : cookie) : Prop :=
  forall q, c !! "expiry" = Some (VNum q) -> (t < q)%Q.

#[export] Instance unexpired_dec t c : Decision (unexpired t c).
Proof.
  unfold unexpired. destruct (c !! "expiry") as [[s|q|b|]|].
  1,3-5: left; intros ? [=].
  destruct (Qlt_le_dec t q) as [H|H].
  - left. intros ? [= <-]. exact H.
  - right. intros H'. exact (Qle_not_lt _ _ H (H' q eq_refl)).
Defined.

(** The attributes that [load_cookies] removes from a record. *)
Definition session_attributes : list string := ["expiry"; "expires"; "domain"].

(** [c'] is the record [c] without its session attributes: it has none of
    them, and every other key as [c] has it. *)
Definition stripped_of (c c' : cookie) : Prop :=
  forall k, c' !! k = if bool_decide (k ∈ session_attributes) then None else c !! k.

End Conduct.

(** ** Worlds to run the workflow in *)

Module ConductScenarios.
Import PyStr Formatter Browser Poster Scenarios.

Local Open Scope string_scope.

(** Everything succeeds but [driver.quit()]. *)
Definition quit_fails : world :=
  world_of (fun r =>
    match r return outcome (reply r) with
    | Quit _ => Fault "chrome not reachable"
    | r => calm_answer r
    end).

(** Nothing is displayed: no login indicator, no success indicator. *)
Definition nothing_shown : world :=
  world_of (fun r =>
    match r return outcome (reply r) with
    | IsDisplayed _ => Done false
    | r => calm_answer r
    end).

(** The browser holds a session cookie that has expired and one that has
    not. *)
Definition two_session_cookies : world :=
  world_of (fun r =>
    match r return outcome (reply r) with
    | GetCookies _ => Done [stale_cookie; fresh_cookie]
    | r => calm_answer r
    end).

(** The browser starts, and then refuses the command that installs the
    stealth script. *)
Definition stealth_fails : world :=
  world_of (fun r =>
    match r return outcome (reply r) with
    | ExecuteCdpCmd _ _ => Fault "disconnected: not connected to DevTools"
    | r => calm_answer r
    end).

End ConductScenarios.

(** ** Facts about the formatter *)

Module FormatterFacts.
Import PyStr Formatter Properties Scenarios.

(** *** Stripping *)

Lemma lstrip_suffix s : exists t, s = t ++ lstrip s.
Proof.
  induction s as [|c s IH]; simpl.
  - now exists [].
  - destruct (is_space c).
    + destruct IH as [t Ht]. exists (c :: t). simpl. now f_equal.
    + now exists [].
Qed.

Lemma rstrip_prefix s : exists t, s = rstrip s ++ t.
Proof.
  unfold rstrip. destruct (lstrip_suffix (rev s)) as [t Ht].
  exists (rev t). rewrite <- rev_app_distr, <- Ht. now rewrite rev_involutive.
Qed.

Lemma lstrip_idem s : lstrip (lstrip s) = lstrip s.
Proof.
  induction s as [|c s IH]; simpl; [done|].
  destruct (is_space c) eqn:E; [done|]. simpl. now rewrite E.
Qed.

Lemma lstrip_head c s : is_space c = false -> lstrip (c :: s) = c :: s.
Proof. intros E. simpl. now rewrite E. Qed.

Lemma ltrimmed_cases s :
  ltrimmed s <-> s = [] \/ exists c t, s = c :: t /\ is_space c = false.
Proof.
  unfold ltrimmed. split.
  - destruct s as [|c t]; [now left|]. simpl.
    destruct (is_space c) eqn:E; [|right; eauto].
    intros H. exfalso.
    destruct (lstrip_suffix t) as [u Hu].
    assert (length (lstrip t) = S (length t)) by now rewrite H.
    apply (f_equal (@length N)) in Hu. rewrite length_app in Hu. lia.
  - intros [->|(c & t & -> & E)]; [done|]. now apply lstrip_head.
Qed.

Lemma ltrimmed_app a b : a <> [] -> ltrimmed a -> ltrimmed (a ++ b).
Proof.
  intros Ha H. apply ltrimmed_cases in H as [->|(c & t & -> & E)]; [done|].
  apply ltrimmed_cases. right. exists c, (t ++ b). done.
Qed.

Lemma ltrimmed_prefix a b : ltrimmed (a ++ b) -> a <> [] -> ltrimmed a.
Proof.
  intros H Ha. apply ltrimmed_cases in H as [H|(c & t & H & E)].
  - apply app_eq_nil in H as [-> _]. done.
  - destruct a as [|x a]; [done|]. simpl in H. injection H as -> _.
    apply ltrimmed_cases. right. eauto.
Qed.

Lemma trimmed_strip_id s : trimmed s -> strip s = s.
Proof.
  intros [H1 H2]. unfold strip, rstrip. rewrite H1, H2. apply rev_involutive.
Qed.

Lemma strip_trimmed s : trimmed (strip s).
Proof.
  split.
  - unfold strip. destruct (rstrip_prefix (lstrip s)) as [t Ht].
    destruct (rstrip (lstrip s)) as [|c u] eqn:E; [done|].
    apply (ltrimmed_prefix _ t); [|done]. rewrite <- Ht. apply lstrip_idem.
  - unfold strip, rstrip, ltrimmed. rewrite rev_involutive. apply lstrip_idem.
Qed.

Lemma trimmed_app a b :
  a <> [] -> b <> [] -> trimmed a -> trimmed b -> forall m, trimmed (a ++ m ++ b).
Proof.
  intros Ha Hb [Ha1 _] [_ Hb2] m. split.
  - now apply ltrimmed_app.
  - rewrite !rev_app_distr, <- app_assoc. apply ltrimmed_app; [|done].
    intros H. apply (f_equal (@rev N)) in H. rewrite rev_involutive in H. done.
Qed.

Lemma Forall_filter_with {A} (P Q : A -> Prop) `{!forall x, Decision (P x)} l :
  Forall (fun x => P x -> Q x) l -> Forall Q (filter P l).
Proof.
  induction 1 as [|x l Hx Hl IH]; [constructor|].
  rewrite filter_cons. destruct (decide (P x)); [constructor; auto | done].
Qed.

(** *** What the string operations keep *)

Section Keep.
Context (P : N -> Prop).

Lemma lstrip_keep s : Forall P s -> Forall P (lstrip s).
Proof.
  induction 1 as [|c s Hc Hs IH]; simpl; [constructor|].
  destruct (is_space c); [done|]. now constructor.
Qed.

Lemma strip_keep s : Forall P s -> Forall P (strip s).
Proof.
  intros H. unfold strip, rstrip.
  apply Forall_rev, lstrip_keep, Forall_rev, lstrip_keep, H.
Qed.

Lemma splitlines_keep s : Forall P s -> Forall (Forall P) (splitlines s).
Proof.
  induction s as [s IH] using (induction_ltof1 _ (@length N)). unfold ltof in IH.
  intros H. destruct s as [|c s']; simpl; [constructor|].
  inversion H as [|? ? Hc Hs']; subst.
  destruct (is_linebreak c).
  - assert (Forall (Forall P) ([] :: splitlines s')) as Hdef
      by (constructor; [constructor | apply IH; simpl; [lia | done]]).
    destruct (c =? 13); [|done].
    destruct s' as [|c' s'']; [done|].
    destruct c' as [|p]; [done|].
    do 4 (destruct p as [p|p|]; try done).
    constructor; [constructor|]. apply IH; [simpl; lia|].
    now inversion Hs'.
  - assert (Forall (Forall P) (splitlines s')) as IH' by (apply IH; simpl; [lia|done]).
    destruct (splitlines s') as [|l ls].
    + repeat constructor. done.
    + inversion IH'; subst. constructor; [now constructor | done].
Qed.

Lemma replace_from_keep old k s :
  Forall P s -> Forall P (replace_from old [] k s).
Proof.
  intros H. revert k. induction H as [|c s Hc Hs IH]; intros k; simpl; [constructor|].
  destruct k; [|apply IH].
  destruct (startswith old (c :: s)); simpl; [apply IH|].
  constructor; [done | apply IH].
Qed.

Lemma join_keep sep parts :
  Forall P sep -> Forall (Forall P) parts -> Forall P (join sep parts).
Proof.
  intros Hsep. induction 1 as [|p ps Hp Hps IH]; simpl; [constructor|].
  destruct ps as [|q qs]; [done|].
  apply Forall_app. split; [done|]. apply Forall_app. split; done.
Qed.

Lemma clean_lines_keep s : Forall P s -> Forall (Forall P) (clean_lines s).
Proof.
  intros H. unfold clean_lines. apply Forall_fmap.
  apply Forall_filter_with. eapply Forall_impl; [apply splitlines_keep, H|].
  intros l Hl _. apply strip_keep, Hl.
Qed.

End Keep.

Lemma contains_char_false c s :
  Forall (fun x => x <> c) s -> contains [c] s = false.
Proof.
  induction 1 as [|x s Hx Hs IH]; simpl; [done|].
  rewrite IH. destruct (N.eqb_spec c x); [congruence | done].
Qed.

(** *** Lines without boundaries *)

Lemma splitlines_unbroken s : Forall unbroken (splitlines s).
Proof.
  induction s as [s IH] using (induction_ltof1 _ (@length N)). unfold ltof in IH.
  destruct s as [|c s']; simpl; [constructor|].
  destruct (is_linebreak c) eqn:Ec.
  - assert (Forall unbroken ([] :: splitlines s')) as Hdef
      by (constructor; [constructor | apply IH; simpl; lia]).
    destruct (c =? 13); [|done].
    destruct s' as [|c' s'']; [done|].
    destruct c' as [|p]; [done|].
    do 4 (destruct p as [p|p|]; try done).
    constructor; [constructor|]. apply IH. simpl; lia.
  - assert (Forall unbroken (splitlines s')) as IH' by (apply IH; simpl; lia).
    destruct (splitlines s') as [|l ls].
    + repeat constructor. done.
    + inversion IH'; subst. constructor; [now constructor | done].
Qed.

Lemma splitlines_line l rest :
  unbroken l -> splitlines (l ++ nl ++ rest) = l :: splitlines rest.
Proof.
  induction 1 as [|c l Hc Hl IH]; simpl; [done|].
  rewrite Hc. simpl in IH. now rewrite IH.
Qed.

Lemma splitlines_single l : unbroken l -> l <> [] -> splitlines l = [l].
Proof.
  induction 1 as [|c l Hc Hl IH]; [done|]. intros _. simpl. rewrite Hc.
  destruct l as [|c' l']; [done|]. rewrite IH; done.
Qed.

Lemma join_cons sep p q ps : join sep (p :: q :: ps) = p ++ sep ++ join sep (q :: ps).
Proof. reflexivity. Qed.

Lemma splitlines_join ls :
  Forall (fun l => unbroken l /\ l <> []) ls -> splitlines (join nl ls) = ls.
Proof.
  induction 1 as [|l ls [Hl Hne] Hls IH]; [done|].
  destruct ls as [|l' ls']; [now apply splitlines_single|].
  rewrite join_cons, splitlines_line by done. now rewrite IH.
Qed.

Lemma truthy_nonempty s : truthy s = true <-> s <> [].
Proof. destruct s; simpl; split; congruence. Qed.

Lemma clean_lines_tidy s : Forall tidy (clean_lines s).
Proof.
  unfold clean_lines. apply Forall_fmap, Forall_filter_with.
  eapply Forall_impl; [apply splitlines_unbroken|].
  intros l Hl Ht. split; [now apply truthy_nonempty|].
  split; [apply strip_trimmed | apply strip_keep, Hl].
Qed.

(** *** Sections are groups of kept lines *)

Lemma flat_app a b : flat (a ++ b) = flat a ++ flat b.
Proof. unfold flat. now rewrite map_app, concat_app. Qed.

Lemma join_flat l ls : join nl (l :: ls) = l ++ flat ls.
Proof.
  revert l. induction ls as [|l' ls IH]; intros l.
  - simpl. now rewrite app_nil_r.
  - rewrite join_cons, IH. reflexivity.
Qed.

Lemma flat_join g : g <> [] -> flat [join nl g] = flat g.
Proof.
  destruct g as [|l ls]; [done|]. intros _. rewrite join_flat.
  unfold flat. simpl. now rewrite app_nil_r.
Qed.

Lemma flat_groups groups :
  Forall (fun g => g <> []) groups ->
  flat (map (join nl) groups) = flat (concat groups).
Proof.
  induction 1 as [|g gs Hg Hgs IH]; [done|].
  change (map (join nl) (g :: gs)) with ([join nl g] ++ map (join nl) gs).
  simpl concat. rewrite !flat_app, IH, flat_join; done.
Qed.

Lemma join_solid g : g <> [] -> Forall tidy g -> solid (join nl g).
Proof.
  intros Hne H. induction H as [|l g (Hl & Ht & _) Hg IH]; [done|].
  destruct g as [|l' g']; [done|].
  destruct IH as [IH1 IH2]; [done|].
  rewrite join_cons. split.
  - destruct l; [done|]. done.
  - now apply trimmed_app.
Qed.

Section Sections.
Context (U : UnicodeCase).

Lemma flush_grouped r st : grouped r st -> grouped r (flush st) /\ snd (flush st) = [].
Proof.
  destruct st as [fsec cur]. intros (groups & Hf & Hg & Hc & Hr). simpl in *.
  destruct cur as [|l cur]; [split; [exists groups|]; done|].
  split; [|done]. exists (groups ++ [l :: cur]). simpl. repeat split.
  - rewrite map_app, Hf. done.
  - apply Forall_app. split; [done|]. constructor; [done | constructor].
  - constructor.
  - rewrite concat_app. simpl. rewrite !app_nil_r. done.
Qed.

Lemma emit_grouped r st line :
  tidy line -> grouped r st ->
  grouped (r ++ [line])
    (let '(formatted_sections, current_section) := flush st in
     (formatted_sections ++ [line], current_section)).
Proof.
  intros Hl Hst. destruct (flush_grouped _ _ Hst) as [(groups & Hf & Hg & Hc & Hr) He].
  destruct (flush st) as [fsec cur]. simpl in *. subst cur.
  exists (groups ++ [[line]]). simpl. repeat split.
  - rewrite map_app, Hf. done.
  - apply Forall_app. split; [done|].
    constructor; [split; [done | constructor; [done | constructor]] | constructor].
  - constructor.
  - rewrite concat_app. simpl. rewrite !app_nil_r in *. now subst r.
Qed.

Lemma extend_grouped r st line :
  tidy line -> grouped r st -> grouped (r ++ [line]) (fst st, snd st ++ [line]).
Proof.
  intros Hl (groups & Hf & Hg & Hc & Hr). exists groups. simpl. repeat split; try done.
  - apply Forall_app. split; [done|]. constructor; [done | constructor].
  - rewrite app_assoc, Hr. done.
Qed.

Lemma filter_keeps_single line :
  filter keeps [line] = if startswith dashes line then [] else [line].
Proof.
  rewrite filter_cons, filter_nil.
  destruct (decide (keeps line)) as [H|H]; unfold keeps in H;
    destruct (startswith dashes line); congruence.
Qed.

Lemma classify_step_grouped r st i line :
  tidy line -> grouped r st ->
  grouped (r ++ filter keeps [line]) (classify_step U i line st).
Proof.
  intros Hl Hst. unfold classify_step.
  rewrite filter_keeps_single.
  destruct (startswith dashes line) eqn:Ed; [now rewrite app_nil_r|].
  destruct (is_header U i line); [now apply emit_grouped|].
  destruct (is_bullet line).
  { assert (forall st', grouped r st' ->
        grouped (r ++ [line])
          (let '(formatted_sections, current_section) := st' in
           (formatted_sections, current_section ++ [line]))) as Hext.
    { intros [a b] H. now apply (extend_grouped r (a, b)). }
    destruct (last st.2) as [prev|]; [|now apply Hext].
    destruct (negb (is_bullet prev)); [|now apply Hext].
    apply Hext. now apply flush_grouped. }
  destruct (startswith hash line); [now apply emit_grouped|].
  now apply extend_grouped.
Qed.

Lemma classify_loop_grouped lines : forall r st i,
  Forall tidy lines -> grouped r st ->
  grouped (r ++ filter keeps lines) (classify_loop U i lines st).
Proof.
  induction lines as [|line lines IH]; intros r st i Hl Hst; simpl.
  - now rewrite filter_nil, app_nil_r.
  - inversion Hl; subst.
    change (line :: lines) with ([line] ++ lines).
    rewrite filter_app, app_assoc. apply IH; [done|].
    now apply classify_step_grouped.
Qed.

Lemma sections_groups lines :
  Forall tidy lines ->
  exists groups,
    sections U lines = map (join nl) groups
    /\ Forall (fun g => g <> [] /\ Forall tidy g) groups
    /\ concat groups = filter keeps lines.
Proof.
  intros Hl. unfold sections.
  assert (grouped [] ([], [])) as H0.
  { exists []. repeat split; constructor. }
  pose proof (classify_loop_grouped lines [] _ 0%nat Hl H0) as H.
  apply flush_grouped in H as [(groups & Hf & Hg & Hc & Hr) He].
  rewrite He, app_nil_r in Hr. exists groups. done.
Qed.

Lemma join_sections_pos secs : forall i acc,
  Forall solid secs -> join_sections (S i) secs acc = acc ++ flat secs.
Proof.
  induction secs as [|s secs IH]; intros i acc H; simpl.
  - now rewrite app_nil_r.
  - inversion H as [|? ? [Hne Ht] Hs]; subst.
    rewrite (trimmed_strip_id s Ht).
    destruct s as [|c s]; [done|]. simpl truthy. cbv iota.
    rewrite IH; [|done]. unfold flat. simpl. rewrite <- !app_assoc. done.
Qed.

Lemma join_sections_zero secs :
  Forall solid secs -> join_sections 0 secs [] = join nl secs.
Proof.
  destruct secs as [|s secs]; [done|]. intros H.
  inversion H as [|? ? [Hne Ht] Hs]; subst. simpl join_sections.
  rewrite (trimmed_strip_id s Ht).
  destruct s as [|c s]; [done|]. simpl truthy. cbv iota.
  rewrite join_sections_pos by done. now rewrite join_flat.
Qed.

Lemma join_drop ls : join nl ls = drop 1 (flat ls).
Proof. destruct ls as [|l ls]; [done|]. now rewrite join_flat. Qed.

(** The text before the hashtag step is the kept lines, one per line. *)
Lemma formatted_text lines :
  Forall tidy lines ->
  join_sections 0 (sections U lines) [] = join nl (filter keeps lines).
Proof.
  intros Hl. destruct (sections_groups lines Hl) as (groups & -> & Hg & Hc).
  rewrite join_sections_zero.
  - rewrite !join_drop, flat_groups, Hc; [done|].
    eapply Forall_impl; [exact Hg|]. now intros g [? _].
  - apply Forall_fmap. eapply Forall_impl; [exact Hg|].
    intros g [? ?]. now apply join_solid.
Qed.

End Sections.

(** *** Line starts *)

Lemma startswith_app p a b : startswith p a = true -> startswith p (a ++ b) = true.
Proof.
  revert a. induction p as [|x p IH]; intros a; [done|].
  destruct a as [|y a]; [done|]. simpl.
  intros [-> H]%andb_prop. simpl. now apply IH.
Qed.

Lemma dashes_app_other a c b :
  c <> 45 -> startswith dashes (a ++ c :: b) = startswith dashes a.
Proof.
  intros Hc. assert ((45 =? c) = false) as E by (apply N.eqb_neq; congruence).
  unfold dashes.
  destruct a as [|x [|y [|z a]]]; cbn [startswith app];
    rewrite ?E, ?andb_false_r; done.
Qed.

Lemma has_marker_app_other a c b :
  c <> 45 -> has_marker (a ++ c :: b) = has_marker a || has_marker (c :: b).
Proof.
  intros Hc. induction a as [|x a IH]; [done|].
  cbn [app has_marker]. rewrite IH, dashes_app_other by done.
  now rewrite orb_assoc.
Qed.

Lemma has_marker_unbroken l : unbroken l -> has_marker l = false.
Proof. induction 1 as [|c l Hc Hl IH]; [done|]. simpl. now rewrite Hc, IH. Qed.

Lemma has_marker_app a b :
  has_marker (a ++ b) = false -> has_marker a = false /\ has_marker b = false.
Proof.
  induction a as [|x a IH]; [done|]. cbn [app has_marker].
  intros [H1 H2]%orb_false_elim. destruct (IH H2) as [Ha Hb].
  split; [|done]. rewrite Ha, orb_false_r.
  destruct (is_linebreak x); [|done]. rewrite andb_true_l in *.
  destruct (startswith dashes a) eqn:E; [|done].
  now rewrite (startswith_app _ _ b E) in H1.
Qed.

Lemma has_marker_strip s : has_marker s = false -> has_marker (strip s) = false.
Proof.
  intros H. destruct (lstrip_suffix s) as [t Ht]. rewrite Ht in H.
  apply has_marker_app in H as [_ H].
  destruct (rstrip_prefix (lstrip s)) as [u Hu]. rewrite Hu in H.
  now apply has_marker_app in H as [H _].
Qed.

Lemma startswith_strip p s :
  startswith p (lstrip s) = false -> startswith p (strip s) = false.
Proof.
  intros H. destruct (startswith p (strip s)) eqn:E; [|done].
  destruct (rstrip_prefix (lstrip s)) as [u Hu]. unfold strip in E.
  rewrite Hu, (startswith_app _ _ u E) in H. done.
Qed.

Lemma splitlines_first p s l ls :
  splitlines s = l :: ls -> startswith p l = true -> startswith p s = true.
Proof.
  revert s l ls. induction p as [|x p IH]; intros s l ls Hs Hp; [done|].
  destruct l as [|y l]; [done|]. simpl in Hp. apply andb_prop in Hp as [Hxy Hp].
  destruct s as [|c s']; [done|]. simpl in Hs.
  destruct (is_linebreak c).
  { exfalso. destruct (c =? 13); [|discriminate].
    destruct s' as [|c' s'']; [discriminate|].
    destruct c' as [|q]; [discriminate|].
    do 4 (destruct q as [q|q|]; try discriminate). }
  destruct (splitlines s') as [|l' ls'] eqn:E.
  - injection Hs as <- <- <-. destruct p; [|done]. simpl. now rewrite Hxy.
  - injection Hs as <- <- <-. simpl. rewrite Hxy. simpl. now apply (IH s' l' ls').
Qed.

(** Without a boundary followed by three dashes, only the first line can
    start with them. *)
Lemma splitlines_rest_keeps s :
  has_marker s = false -> Forall keeps (tail (splitlines s)).
Proof.
  induction s as [s IH] using (induction_ltof1 _ (@length N)). unfold ltof in IH.
  destruct s as [|c s']; [constructor|]. cbn [has_marker splitlines].
  intros [H1 H2]%orb_false_elim.
  assert (forall t, (length t <= length s')%nat -> startswith dashes t = false ->
            has_marker t = false -> Forall keeps (splitlines t)) as Hall.
  { intros t Hlen Ht Hm. pose proof (IH t ltac:(simpl; lia) Hm) as Hrest.
    destruct (splitlines t) as [|l ls] eqn:E; [constructor|].
    constructor; [|exact Hrest]. unfold keeps.
    destruct (startswith dashes l) eqn:El; [|done].
    now rewrite (splitlines_first _ _ _ _ E El) in Ht. }
  destruct (is_linebreak c) eqn:Ec.
  - simpl in H1.
    assert (Forall keeps (tail ([] :: splitlines s'))) as Hdef
      by (apply Hall; [lia | done | done]).
    destruct (c =? 13); [|done].
    destruct s' as [|c' s'']; [done|].
    destruct c' as [|q]; [done|].
    do 4 (destruct q as [q|q|]; try done).
    cbn [has_marker] in H2. apply orb_false_elim in H2 as [H3 H4].
    simpl in H3. apply Hall; [simpl; lia | done | done].
  - pose proof (IH s' ltac:(simpl; lia) H2) as Hrest.
    destruct (splitlines s') as [|l ls]; [constructor | exact Hrest].
Qed.

Lemma splitlines_keeps s :
  startswith dashes s = false -> has_marker s = false ->
  Forall keeps (splitlines s).
Proof.
  intros Hs Hm. pose proof (splitlines_rest_keeps s Hm) as Hrest.
  destruct (splitlines s) as [|l ls] eqn:E; [constructor|].
  constructor; [|exact Hrest]. unfold keeps.
  destruct (startswith dashes l) eqn:El; [|done].
  now rewrite (splitlines_first _ _ _ _ E El) in Hs.
Qed.

(** *** The hashtag step *)

Lemma split_char c s : forall p ps,
  split [c] s = (p, ps) -> s = p ++ concat (map (cons c) ps).
Proof.
  unfold split. induction s as [|x s IH]; intros p ps; simpl.
  - now intros [= <- <-].
  - destruct (split_from [c] 0 s) as [p' ps'].
    destruct (N.eqb_spec c x) as [->|Hne]; simpl.
    + intros [= <- <-]. simpl. f_equal. now apply IH.
    + intros [= <- <-]. simpl. f_equal. now apply IH.
Qed.

Lemma has_marker_pieces hs :
  has_marker (concat (map (cons 35) hs)) = false ->
  Forall (fun h => has_marker h = false) hs.
Proof.
  induction hs as [|h hs IH]; [constructor|].
  cbn [map concat]. intros H. change ((35 :: h) ++ concat (map (cons 35) hs))
    with ([35] ++ h ++ concat (map (cons 35) hs)) in H.
  apply has_marker_app in H as [_ H]. apply has_marker_app in H as [H1 H2].
  constructor; [done | now apply IH].
Qed.

Lemma has_marker_hashtags hs :
  Forall (fun h => has_marker h = false) hs ->
  has_marker (join (lit " #") hs) = false.
Proof.
  induction 1 as [|h hs Hh Hhs IH]; [done|].
  destruct hs as [|h' hs']; [done|].
  rewrite join_cons. change (lit " #") with [32; 35].
  change (h ++ [32; 35] ++ join [32; 35] (h' :: hs'))
    with (h ++ 32 :: ([35] ++ join [32; 35] (h' :: hs'))).
  rewrite has_marker_app_other by done. rewrite Hh.
  change (lit " #") with [32; 35] in IH.
  cbn [has_marker app]. rewrite IH. reflexivity.
Qed.

(** The hashtag step creates no line that starts with three dashes. *)
Lemma hashtag_fix_keeps T :
  startswith dashes T = false -> has_marker T = false -> ltrimmed T ->
  startswith dashes (hashtag_fix T) = false /\ has_marker (hashtag_fix T) = false.
Proof.
  intros Hs Hm Ht. unfold hashtag_fix. destruct (contains hash T).
  2:{ split; [apply startswith_strip; now rewrite Ht | now apply has_marker_strip]. }
  destruct (split hash T) as [main hs] eqn:Es. apply split_char in Es.
  assert (has_marker main = false /\ Forall (fun h => has_marker h = false) hs)
    as [Hmain Hhs].
  { rewrite Es in Hm. apply has_marker_app in Hm as [? ?].
    split; [done | now apply has_marker_pieces]. }
  set (J := join (lit " #") (map strip hs)).
  assert (has_marker J = false) as HJ.
  { apply has_marker_hashtags, Forall_fmap. eapply Forall_impl; [exact Hhs|].
    intros h Hh. now apply has_marker_strip. }
  change (strip main ++ nl ++ hash ++ J) with (strip main ++ 10 :: ([35] ++ J)).
  split.
  - apply startswith_strip.
    destruct (strip main) as [|c m] eqn:Em.
    + reflexivity.
    + pose proof (strip_trimmed main) as [Hl _]. rewrite Em in Hl.
      change ((c :: m) ++ 10 :: [35] ++ J) with (c :: (m ++ 10 :: [35] ++ J)).
      apply ltrimmed_cases in Hl as [?|(c' & t & [= <- <-] & Hc)]; [done|].
      rewrite lstrip_head by done.
      change (c :: (m ++ 10 :: [35] ++ J)) with ((c :: m) ++ 10 :: [35] ++ J).
      rewrite dashes_app_other by done. rewrite <- Em.
      destruct main as [|x main']; [done|].
      assert (ltrimmed (x :: main')) as Hlm.
      { apply (ltrimmed_prefix _ (concat (map (cons 35) hs))); [|done].
        now rewrite <- Es. }
      apply startswith_strip. rewrite Hlm.
      destruct (startswith dashes (x :: main')) eqn:E; [|done].
      rewrite Es, (startswith_app _ _ _ E) in Hs. done.
  - apply has_marker_strip. rewrite has_marker_app_other by done.
    rewrite (has_marker_strip _ Hmain). cbn [has_marker app orb].
    rewrite HJ. reflexivity.
Qed.

Lemma join_kept R :
  Forall tidy R -> Forall keeps R ->
  startswith dashes (join nl R) = false /\ has_marker (join nl R) = false
  /\ ltrimmed (join nl R).
Proof.
  induction 1 as [|l R (Hne & [Hl _] & Hu) HR IH]; intros Hk; [done|].
  inversion Hk as [|? ? Hkl HkR]; subst.
  destruct R as [|l' R'].
  - simpl. split; [done|]. split; [now apply has_marker_unbroken | done].
  - destruct (IH HkR) as (IH1 & IH2 & IH3). rewrite join_cons.
    change (l ++ nl ++ join nl (l' :: R')) with (l ++ 10 :: join nl (l' :: R')).
    split; [now rewrite dashes_app_other|]. split; [|now apply ltrimmed_app].
    rewrite has_marker_app_other by done. rewrite (has_marker_unbroken l Hu).
    cbn [has_marker orb]. rewrite IH1, IH2. reflexivity.
Qed.

Lemma retained_lines_tidy content :
  Forall (fun l => tidy l /\ keeps l) (retained_lines content).
Proof.
  unfold retained_lines. apply Forall_filter_with.
  eapply Forall_impl; [apply clean_lines_tidy|]. done.
Qed.

(** The classification does not show in the text: whatever the sections
    are, the output is the hashtag step applied to the retained lines. *)
Lemma format_post_retained U content :
  format_post U content = hashtag_fix (join nl (retained_lines content)).
Proof.
  unfold format_post. rewrite formatted_text by apply clean_lines_tidy. done.
Qed.

(** *** ASCII text is classified the same under every case table *)

Lemma isupper_scan_ascii U b s :
  ascii_only s -> isupper_scan U b s = isupper_scan ascii_case b s.
Proof.
  intros H. revert b. induction H as [|c s Hc Hs IH]; intros b; [done|].
  cbn [isupper_scan].
  rewrite (cp_islower_ascii U), (cp_istitle_ascii U), (cp_isupper_ascii U),
    (cp_islower_ascii ascii_case), (cp_istitle_ascii ascii_case),
    (cp_isupper_ascii ascii_case) by done.
  now rewrite !IH.
Qed.

Lemma isupper_ascii U s : ascii_only s -> isupper U s = isupper ascii_case s.
Proof.
  intros H. destruct s as [|c [|c' s]]; [done| |].
  - inversion H; subst. cbn [isupper].
    now rewrite (cp_isupper_ascii U), (cp_isupper_ascii ascii_case).
  - cbn [isupper]. now apply isupper_scan_ascii.
Qed.

Lemma classify_loop_ascii U lines : forall i st,
  Forall ascii_only lines ->
  classify_loop U i lines st = classify_loop ascii_case i lines st.
Proof.
  induction lines as [|l lines IH]; intros i st H; [done|].
  inversion H; subst. cbn [classify_loop]. rewrite IH by done. f_equal.
  unfold classify_step, is_header. now rewrite (isupper_ascii U).
Qed.

Lemma sections_ascii U lines :
  Forall ascii_only lines -> sections U lines = sections ascii_case lines.
Proof. intros H. unfold sections. now rewrite classify_loop_ascii. Qed.

Lemma ascii_only_check lines :
  forallb (forallb (fun c => c <? 128)) lines = true -> Forall ascii_only lines.
Proof.
  intros H. apply Forall_forall. intros l Hl. apply Forall_forall. intros c Hc.
  rewrite forallb_forall in H. apply list_elem_of_In in Hl, Hc.
  specialize (H l Hl). rewrite forallb_forall in H. apply N.ltb_lt. now apply H.
Qed.

(** *** The string methods on small inputs *)

Example splitlines_crlf : splitlines [97; 13; 10; 98] = [[97]; [98]].
Proof. reflexivity. Qed.

Example splitlines_trailing : splitlines (text "a\n\nb\n") = [lit "a"; []; lit "b"].
Proof. reflexivity. Qed.

Example strip_both : strip (lit "  a b  ") = lit "a b".
Proof. reflexivity. Qed.

Example replace_stars : replace stars [] (lit "a**b***c****") = lit "ab*c".
Proof. reflexivity. Qed.

Example split_hash : split hash (lit "a #b #c") = (lit "a ", [lit "b "; lit "c"]).
Proof. reflexivity. Qed.

Example isupper_hashtags : isupper ascii_case (lit "#A #B") = true.
Proof. reflexivity. Qed.

(** Three bullet lines make one section. *)
Example sections_bullets :
  sections ascii_case (clean_lines (text "- a\n- b\n- c")) = [text "- a\n- b\n- c"].
Proof. reflexivity. Qed.

(** *** The formatter on the example of the specification *)

(** C7 (as amended): on the input
    "Breaking News: X\n\nfoo\nbar\n\n#A #B" the formatter returns
    "Breaking News: X\nfoo\nbar\n#A #B": the last line is exactly "#A #B",
    and "Breaking News: X" is a section of its own, followed by the section
    "foo\nbar" and the section "#A #B". The hashtag line is last because it
    is last in the input. This holds under every case table. *)
Theorem format_post_breaking_news (U : UnicodeCase) :
  format_post U breaking_news = text "Breaking News: X\nfoo\nbar\n#A #B"
  /\ last (splitlines (format_post U breaking_news)) = Some (lit "#A #B")
  /\ sections U (clean_lines (replace stars [] breaking_news))
     = [lit "Breaking News: X"; text "foo\nbar"; lit "#A #B"].
Proof.
  rewrite format_post_retained.
  split; [vm_compute; reflexivity|]. split; [vm_compute; reflexivity|].
  rewrite sections_ascii by (apply ascii_only_check; vm_compute; reflexivity).
  vm_compute. reflexivity.
Qed.

(** C7, counterexample: with the hashtag line of the same text put first,
    the last line of the output is "bar", not "#A #B": the hashtag line
    stays where it was. *)
Lemma format_post_hashtags_first :
  format_post ascii_case hashtags_first = text "#A #B\nBreaking News: X\nfoo\nbar"
  /\ last (splitlines (format_post ascii_case hashtags_first)) = Some (lit "bar")
  /\ last (splitlines (format_post ascii_case hashtags_first)) <> Some (lit "#A #B").
Proof. vm_compute. split; [done|]. split; [done|]. discriminate. Qed.

(** *** Up to white space *)

Lemma squeeze_app a b : squeeze (a ++ b) = squeeze a ++ squeeze b.
Proof. apply filter_app. Qed.

Lemma squeeze_lstrip s : squeeze (lstrip s) = squeeze s.
Proof.
  induction s as [|c s IH]; [done|]. cbn [lstrip].
  destruct (is_space c) eqn:E; [|done].
  rewrite IH. unfold squeeze, str. rewrite filter_cons.
  destruct (decide (is_space c = false)); congruence.
Qed.

Lemma squeeze_rev s : squeeze (rev s) = rev (squeeze s).
Proof.
  induction s as [|c s IH]; [done|]. cbn [rev]. rewrite squeeze_app, IH.
  unfold squeeze at 2 3. unfold str. rewrite !filter_cons, filter_nil.
  destruct (decide (is_space c = false)); [done|]. now rewrite app_nil_r.
Qed.

Lemma squeeze_strip s : squeeze (strip s) = squeeze s.
Proof.
  unfold strip, rstrip.
  now rewrite squeeze_rev, squeeze_lstrip, squeeze_rev, rev_involutive, squeeze_lstrip.
Qed.

Lemma squeeze_hashtags x xs :
  squeeze (join (lit " #") (x :: xs))
  = squeeze x ++ concat (map (fun y => 35 :: squeeze y) xs).
Proof.
  revert x. induction xs as [|y xs IH]; intros x.
  - simpl. now rewrite app_nil_r.
  - rewrite join_cons, !squeeze_app, IH. reflexivity.
Qed.

Lemma squeeze_pieces hs :
  squeeze (concat (map (cons 35) hs)) = concat (map (fun h => 35 :: squeeze h) hs).
Proof.
  induction hs as [|h hs IH]; [done|]. cbn [map concat].
  change ((35 :: h) ++ concat (map (cons 35) hs))
    with ([35] ++ h ++ concat (map (cons 35) hs)).
  now rewrite !squeeze_app, IH.
Qed.

Lemma squeeze_lines R : squeeze (join nl R) = concat (map squeeze R).
Proof.
  induction R as [|l R IH]; [done|]. destruct R as [|l' R'].
  - simpl. now rewrite app_nil_r.
  - rewrite join_cons, !squeeze_app, IH. reflexivity.
Qed.

Lemma split_char_head c s : forall p ps,
  split [c] s = (p, ps) -> Forall (fun x => x <> c) p.
Proof.
  unfold split. induction s as [|x s IH]; intros p ps; simpl.
  - intros [= <- <-]. constructor.
  - destruct (split_from [c] 0 s) as [p' ps'].
    destruct (N.eqb_spec c x) as [->|Hne]; simpl.
    + intros [= <- <-]. constructor.
    + intros [= <- <-]. constructor; [congruence | now apply (IH p' ps')].
Qed.

(** The hashtag step changes white space only. *)
Lemma squeeze_hashtag_fix T : squeeze (hashtag_fix T) = squeeze T.
Proof.
  unfold hashtag_fix. destruct (contains hash T) eqn:Ec; [|apply squeeze_strip].
  destruct (split hash T) as [main hs] eqn:Es.
  pose proof (split_char_head _ _ _ _ Es) as Hmain.
  apply split_char in Es. destruct hs as [|h hs].
  { simpl in Es. rewrite app_nil_r in Es. subst T.
    unfold hash in Ec. now rewrite contains_char_false in Ec. }
  rewrite squeeze_strip, !squeeze_app, squeeze_strip.
  cbn [map]. rewrite squeeze_hashtags, squeeze_strip.
  rewrite Es, squeeze_app, squeeze_pieces. cbn [map concat].
  rewrite map_map.
  replace (map (fun x => 35 :: squeeze (strip x)) hs)
    with (map (fun h0 => 35 :: squeeze h0) hs)
    by (apply map_ext; intros; now rewrite squeeze_strip).
  reflexivity.
Qed.

(** *** Lines of the output *)

(** C10: a line that starts with three dashes is skipped by the loop, which
    leaves its state as it was; no line of any section starts with three
    dashes; and no line of the output does. *)
Theorem format_post_drops_marker_lines (U : UnicodeCase) (content : str) :
  (forall i line st,
      startswith dashes line = true -> classify_step U i line st = st)
  /\ (forall sec l,
        sec ∈ sections U (clean_lines (replace stars [] content)) ->
        l ∈ splitlines sec -> startswith dashes l = false)
  /\ (forall l,
        l ∈ splitlines (format_post U content) -> startswith dashes l = false).
Proof.
  split; [|split].
  - intros i line st H. unfold classify_step. now rewrite H.
  - intros sec l Hsec Hl.
    destruct (sections_groups U _ (clean_lines_tidy (replace stars [] content)))
      as (groups & Hs & Hg & Hc).
    rewrite Hs in Hsec. apply list_elem_of_fmap in Hsec as (g & -> & Hgin).
    rewrite Forall_forall in Hg. destruct (Hg g Hgin) as [Hne Ht].
    rewrite splitlines_join in Hl.
    2:{ eapply Forall_impl; [exact Ht|]. intros ? (? & _ & ?). done. }
    assert (l ∈ concat groups) as Hin.
    { apply list_elem_of_In, in_concat. exists g. split; now apply list_elem_of_In. }
    rewrite Hc in Hin. apply list_elem_of_filter in Hin as [Hk _]. exact Hk.
  - intros l Hl. rewrite format_post_retained in Hl.
    pose proof (retained_lines_tidy content) as HR.
    destruct (join_kept (retained_lines content)) as (H1 & H2 & H3).
    { eapply Forall_impl; [exact HR|]. now intros ? [? _]. }
    { eapply Forall_impl; [exact HR|]. now intros ? [_ ?]. }
    destruct (hashtag_fix_keeps _ H1 H2 H3) as [H4 H5].
    pose proof (splitlines_keeps _ H4 H5) as Hall.
    rewrite Forall_forall in Hall. now apply Hall.
Qed.

Lemma format_post_drops_marker_lines_witness :
  classify_step ascii_case 0 (lit "--- cut here") ([], []) = ([], [])
  /\ splitlines (format_post ascii_case marked) = [lit "kept"].
Proof.
  destruct (format_post_drops_marker_lines ascii_case marked) as (Hskip & _ & _).
  split; [apply Hskip; reflexivity | vm_compute; reflexivity].
Defined.

End FormatterFacts.

(** ** Facts about runs *)

Module BrowserFacts.
Import PyStr Formatter Browser Properties.

Section Steps.
Context (Q : event -> Prop).

Lemma extends_refl s : extends Q s s.
Proof. split; [done|]. exists []. now rewrite app_nil_r. Qed.

Lemma extends_trans s1 s2 s3 :
  extends Q s1 s2 -> extends Q s2 s3 -> extends Q s1 s3.
Proof.
  intros [Hd1 (e1 & Ht1 & Hq1)] [Hd2 (e2 & Ht2 & Hq2)]. split; [congruence|].
  exists (e1 ++ e2). rewrite Ht2, Ht1, app_assoc. split; [done|].
  now apply Forall_app.
Qed.

Lemma extends_log s e : Q e -> extends Q s (log e s).
Proof. intros H. split; [done|]. exists [e]. split; [done|]. now constructor. Qed.

Lemma extends_new_events s s' :
  extends Q s s' -> trace s' = trace s ++ new_events s s' /\ Forall Q (new_events s s').
Proof.
  intros [_ (evs & Ht & Hq)]. unfold new_events.
  rewrite Ht, drop_app_length. done.
Qed.

Lemma steps_ret {A} (a : A) : steps Q (ret a).
Proof. intros w s. apply extends_refl. Qed.

Lemma steps_raise {A} e : steps Q (@raise A e).
Proof. intros w s. apply extends_refl. Qed.

Lemma steps_lift {A} (r : result A) : steps Q (lift r).
Proof. intros w s. apply extends_refl. Qed.

Lemma steps_bind {A B} (m : M A) (k : A -> M B) :
  steps Q m -> (forall a, steps Q (k a)) -> steps Q (bind m k).
Proof.
  intros Hm Hk w s. unfold bind. specialize (Hm w s).
  destruct (m w s) as [[a|e] s']; [|exact Hm].
  eapply extends_trans; [exact Hm | apply Hk].
Qed.

Lemma steps_try_except {A} (m : M A) (h : exn -> M A) :
  steps Q m -> (forall e, steps Q (h e)) -> steps Q (try_except m h).
Proof.
  intros Hm Hh w s. unfold try_except. specialize (Hm w s).
  destruct (m w s) as [[a|e] s']; [exact Hm|].
  eapply extends_trans; [exact Hm | apply Hh].
Qed.

Lemma steps_try_finally {A} (m : M A) (f : M unit) :
  steps Q m -> steps Q f -> steps Q (try_finally m f).
Proof.
  intros Hm Hf w s. unfold try_finally. specialize (Hm w s).
  destruct (m w s) as [r s']. specialize (Hf w s').
  destruct (f w s') as [[u|e] s'']; eapply extends_trans; eauto.
Qed.

Lemma steps_call r : Q (Did r) -> steps Q (call r).
Proof.
  intros H w s. unfold call. destruct (answer w (trace s) r); simpl.
  - destruct (extends_log s (Did r) H) as [Hd He]. split; done.
  - now apply extends_log.
Qed.

Lemma steps_sleep q : Q (Slept q) -> steps Q (sleep q).
Proof. intros H w s. now apply extends_log. Qed.

Lemma steps_print m : Q (Printed m) -> steps Q (print m).
Proof. intros H w s. now apply extends_log. Qed.

Lemma steps_now_timestamp : steps Q now_timestamp.
Proof. intros w s. apply extends_refl. Qed.

Lemma steps_now_strftime : steps Q now_strftime.
Proof. intros w s. apply extends_refl. Qed.

Lemma steps_path_exists p : steps Q (path_exists p).
Proof. intros w s. apply extends_refl. Qed.

Lemma steps_pickle_load p : steps Q (pickle_load p).
Proof.
  intros w s. unfold pickle_load.
  destruct (fs s !! p) as [[]|]; apply extends_refl.
Qed.

Lemma steps_get_options : steps Q get_options.
Proof. intros w s. apply extends_refl. Qed.

Lemma steps_put_options o : steps Q (put_options o).
Proof. intros w s. split; [done|]. exists []. now rewrite app_nil_r. Qed.

Lemma steps_get_driver_var : steps Q get_driver_var.
Proof. intros w s. apply extends_refl. Qed.

End Steps.

(** *** Running a computation step by step *)

Lemma run_call_done r v w s :
  answer w (trace s) r = Done v ->
  call r w s = (Ok v, set_fs (fs_effect r v (fs s)) (log (Did r) s)).
Proof. intros H. unfold call. now rewrite H. Qed.

Lemma run_call_fault r msg w s :
  answer w (trace s) r = Fault msg ->
  call r w s = (Raise (fault_of r msg), log (Did r) s).
Proof. intros H. unfold call. now rewrite H. Qed.

Lemma run_pickle_load path cookies w s :
  fs s !! path = Some (Pickle cookies) ->
  pickle_load path w s = (Ok cookies, s).
Proof. intros H. unfold pickle_load. now rewrite H. Qed.

(** Evaluate everything that does not wait for an answer of the world. *)
Tactic Notation "exec" :=
  cbn [ret raise lift print sleep path_exists pickle_load now_timestamp
       now_strftime get_options put_options get_driver_var put_driver_var
       log set_fs set_options set_driver_var trace fs options driver_var
       fs_effect fault_of fst snd negb].

Tactic Notation "exec" "in" hyp(H) :=
  cbn [ret raise lift print sleep path_exists pickle_load now_timestamp
       now_strftime get_options put_options get_driver_var put_driver_var
       log set_fs set_options set_driver_var trace fs options driver_var
       fs_effect fault_of fst snd negb] in H.

(** Split on the answer to the next call. *)
Ltac branch_call v E :=
  match goal with
  | |- context [call ?r ?w ?s] =>
      destruct (answer w (trace s) r) as [v|v] eqn:E;
      [rewrite (run_call_done r v w s E) | rewrite (run_call_fault r v w s E)];
      exec
  end.

(** Take the next call with the answer that [H] gives. *)
Ltac run_done H :=
  match goal with
  | |- context [call ?r ?w ?s] => rewrite (run_call_done r _ w s H); exec
  end.

Ltac run_fault H :=
  match goal with
  | |- context [call ?r ?w ?s] => rewrite (run_call_fault r _ w s H); exec
  end.

(** Put the new events of the goal in one list. *)
Ltac events := rewrite <- ?app_assoc; cbn [app].

Ltac steps_step :=
  match goal with
  | |- steps _ (bind _ _) => apply steps_bind; [|intros ?]
  | |- steps _ (try_except _ _) => apply steps_try_except; [|intros ?]
  | |- steps _ (try_finally _ _) => apply steps_try_finally
  | |- steps ?Q (call ?r) => apply (steps_call Q r); reflexivity
  | |- steps _ (sleep _) => apply steps_sleep; reflexivity
  | |- steps _ (print _) => apply steps_print; reflexivity
  | |- steps _ (ret _) => apply steps_ret
  | |- steps _ (raise _) => apply steps_raise
  | |- steps _ (lift _) => apply steps_lift
  | |- steps _ now_timestamp => apply steps_now_timestamp
  | |- steps _ now_strftime => apply steps_now_strftime
  | |- steps _ (path_exists _) => apply steps_path_exists
  | |- steps _ (pickle_load _) => apply steps_pickle_load
  | |- steps _ get_options => apply steps_get_options
  | |- steps _ (put_options _) => apply steps_put_options
  | |- steps _ get_driver_var => apply steps_get_driver_var
  | |- steps _ (if ?b then _ else _) => destruct b
  | |- steps _ (match ?x with _ => _ end) => destruct x
  end.

Ltac steps_auto := repeat steps_step; eauto.

End BrowserFacts.

(** ** Closing the session *)

Module PosterFacts.
Import PyStr Formatter Browser Poster Properties Scenarios Conduct
  ConductScenarios BrowserFacts.

Lemma quits_app a b : quits (a ++ b) = (quits a + quits b)%nat.
Proof. induction a as [|e a IH]; simpl; [done|]. rewrite IH. lia. Qed.

Lemma quits_none evs : Forall not_quit evs -> quits evs = 0%nat.
Proof. induction 1 as [|e evs He Hevs IH]; simpl; [done|]. now rewrite He, IH. Qed.

Section NoQuit.
Context (cred : credentials) (d : driver).

Lemma get_driver_no_quit : steps not_quit get_driver.
Proof. unfold get_driver. steps_auto. Qed.

Lemma save_cookies_no_quit : steps not_quit (save_cookies d).
Proof. unfold save_cookies. steps_auto. Qed.

Lemma add_cookies_no_quit valid : steps not_quit (add_cookies d valid).
Proof. induction valid as [|c valid IH]; cbn [add_cookies]; steps_auto. Qed.

Lemma load_cookies_no_quit : steps not_quit (load_cookies d).
Proof. unfold load_cookies. steps_auto. apply add_cookies_no_quit. Qed.

Lemma probe_login_no_quit selectors : steps not_quit (probe_login d selectors).
Proof. induction selectors as [|x selectors IH]; cbn [probe_login]; steps_auto. Qed.

Lemma check_login_status_no_quit : steps not_quit (check_login_status d).
Proof. unfold check_login_status. steps_auto. apply probe_login_no_quit. Qed.

Lemma login_to_linkedin_no_quit : steps not_quit (login_to_linkedin cred d).
Proof.
  pose proof load_cookies_no_quit. pose proof check_login_status_no_quit.
  pose proof save_cookies_no_quit.
  unfold login_to_linkedin, cookie_login, manual_login, enter_credentials,
    login_failed.
  steps_auto.
Qed.

Lemma enter_paragraphs_no_quit e ps : steps not_quit (enter_paragraphs d e ps).
Proof. induction ps as [|p ps IH]; cbn [enter_paragraphs]; steps_auto. Qed.

Lemma probe_success_no_quit indicators : steps not_quit (probe_success d indicators).
Proof. induction indicators as [|x indicators IH]; cbn [probe_success]; steps_auto. Qed.

Lemma create_post_no_quit content : steps not_quit (create_post d content).
Proof.
  pose proof enter_paragraphs_no_quit. pose proof probe_success_no_quit.
  unfold create_post, submit_post, verify_post, post_failed, trigger_not_found,
    find_compose_trigger, find_post_field, find_submit_button, try_trigger,
    unless_found, try_locate.
  steps_auto.
Qed.

Lemma write_log_no_quit content : steps not_quit (write_log content).
Proof. unfold write_log. steps_auto. Qed.

Lemma use_session_no_quit content : steps not_quit (use_session cred d content).
Proof.
  pose proof login_to_linkedin_no_quit. pose proof create_post_no_quit.
  pose proof write_log_no_quit.
  unfold use_session. steps_auto.
Qed.

End NoQuit.

Lemma open_session_ok U content w s0 d fc s1 :
  open_session U content w s0 = (Ok (d, fc), s1) ->
  driver_var s1 = Some d
  /\ exists evs, trace s1 = trace s0 ++ evs /\ Forall not_quit evs.
Proof.
  unfold open_session, bind. intros H.
  assert (steps not_quit
            (match content with Some c => ret c | None => call GetLatestPost end))
    as Hc by (destruct content; steps_auto).
  specialize (Hc w s0).
  destruct (match content with Some c => ret c | None => call GetLatestPost end w s0)
    as [[c|e] sa]; [|discriminate].
  pose proof (get_driver_no_quit w sa) as Hg.
  destruct (get_driver w sa) as [[d'|e] sb]; [|discriminate].
  simpl in H. injection H as <- <- <-. split; [done|].
  destruct (extends_trans _ _ _ _ Hc Hg) as [_ Hev]. exact Hev.
Qed.

Lemma close_session_quits w s d :
  driver_var s = Some d ->
  exists r s',
    close_session w s = (r, s')
    /\ trace s' = trace s ++ [Did (Quit d)]
    /\ (r = Ok tt \/ exists msg, r = Raise (WebDriverException msg)).
Proof.
  intros Hd. unfold close_session, bind, get_driver_var. rewrite Hd. unfold call.
  destruct (answer w (trace s) (Quit d)) as [[]|msg]; simpl;
    eexists _, _; (split; [reflexivity|]); (split; [reflexivity|]); eauto.
Qed.

Lemma quits_once s evs d :
  Forall not_quit evs ->
  quits (drop (length (trace s)) (trace s ++ evs ++ [Did (Quit d)])) = 1%nat.
Proof.
  intros H. rewrite drop_app_length, quits_app, (quits_none _ H). reflexivity.
Qed.

(** X27: in every run of [post_to_linkedin] in which
    [driver = self.get_driver()] has returned the session [d],
    [driver.quit()] is called exactly once, on [d], as the last action of
    the run, whether the run returns [True], returns [False], or the call
    of [quit] itself raises. *)
Theorem post_to_linkedin_quits_once cred U content w s d fc s1 :
  open_session U content w (set_driver_var None s) = (Ok (d, fc), s1) ->
  exists r s2,
    post_to_linkedin cred U content w s = (r, s2)
    /\ quits (new_events s s2) = 1%nat
    /\ last (trace s2) = Some (Did (Quit d))
    /\ (r = Ok true \/ r = Ok false
        \/ exists msg, r = Raise (WebDriverException msg)).
Proof.
  intros Hopen.
  destruct (open_session_ok _ _ _ _ _ _ _ Hopen) as [Hd (ev1 & Ht1 & Hq1)].
  simpl in Ht1.
  unfold post_to_linkedin, bind, put_driver_var, try_finally, try_except.
  rewrite Hopen.
  pose proof (use_session_no_quit cred d fc w s1) as [Hd2 (ev2 & Ht2 & Hq2)].
  destruct (use_session cred d fc w s1) as [r1 sa]. simpl in Hd2, Ht2.
  rewrite Hd in Hd2.
  assert (Forall not_quit (ev1 ++ ev2)) as Hq12 by now apply Forall_app.
  destruct r1 as [b|e].
  - destruct (close_session_quits w sa d Hd2) as (r & s2 & -> & Ht & Hr).
    assert (trace s2 = trace s ++ (ev1 ++ ev2) ++ [Did (Quit d)]) as Hs2
      by (rewrite Ht, Ht2, Ht1, <- !app_assoc; done).
    destruct Hr as [->|[msg ->]]; eexists _, _; (split; [reflexivity|]);
      unfold new_events; rewrite Hs2, quits_once, app_assoc, last_snoc by done;
      (split; [done|]); (split; [done|]); destruct b; eauto.
  - unfold print at 1. unfold ret at 1. cbn [log].
    set (sb := log (Printed [Text "Error posting to LinkedIn: "; ShowExn e]) sa).
    destruct (close_session_quits w sb d Hd2) as (r & s2 & -> & Ht & Hr).
    assert (trace s2
            = trace s ++ ((ev1 ++ ev2)
                ++ [Printed [Text "Error posting to LinkedIn: "; ShowExn e]])
                ++ [Did (Quit d)]) as Hs2
      by (rewrite Ht; subst sb; simpl; rewrite Ht2, Ht1, <- !app_assoc; done).
    assert (Forall not_quit ((ev1 ++ ev2)
              ++ [Printed [Text "Error posting to LinkedIn: "; ShowExn e]])) as Hq
      by (apply Forall_app; split; [done | now constructor]).
    destruct Hr as [->|[msg ->]]; eexists _, _; (split; [reflexivity|]);
      unfold new_events; rewrite Hs2, quits_once, app_assoc, last_snoc by done;
      (split; [done|]); (split; [done|]); eauto.
Qed.

(** A run in which everything works: the post is published and logged, and
    the session is closed at the end. *)
Example post_to_linkedin_calm_run :
  (post_to_linkedin some_credentials ascii_case None calm start).1 = Ok true
  /\ last (trace (post_to_linkedin some_credentials ascii_case None calm start).2)
     = Some (Did (Quit session)).
Proof. vm_compute. split; reflexivity. Qed.

(** When [driver = self.get_driver()] does not return (the driver cannot
    be installed or started, or the stealth command fails in a browser that
    has started), the variable [driver] stays [None], [quit] is not called,
    and the run returns [False]. *)
Lemma post_to_linkedin_without_session cred U content w s e s1 :
  open_session U content w (set_driver_var None s) = (Raise e, s1) ->
  exists s2,
    post_to_linkedin cred U content w s = (Ok false, s2)
    /\ quits (new_events s s2) = 0%nat.
Proof.
  intros Hopen.
  assert (driver_var s1 = None
          /\ exists evs, trace s1 = trace s ++ evs /\ Forall not_quit evs)
    as [Hd (evs & Ht & Hq)].
  { revert Hopen. unfold open_session, bind.
    assert (steps not_quit
              (match content with Some c => ret c | None => call GetLatestPost end))
      as Hc by (destruct content; steps_auto).
    specialize (Hc w (set_driver_var None s)).
    destruct (match content with Some c => ret c | None => call GetLatestPost end
                w (set_driver_var None s)) as [[c|e0] sa].
    - pose proof (get_driver_no_quit w sa) as Hg.
      destruct (get_driver w sa) as [[d'|e1] sb]; [discriminate|].
      intros [= <- <-]. destruct (extends_trans _ _ _ _ Hc Hg) as [Hdv Hev].
      split; [exact Hdv | exact Hev].
    - intros [= <- <-]. destruct Hc as [Hdv Hev]. split; [exact Hdv | exact Hev]. }
  unfold post_to_linkedin, bind, put_driver_var, try_finally, try_except.
  rewrite Hopen. exec. unfold close_session, bind. exec. rewrite Hd.
  eexists. split; [reflexivity|]. unfold new_events. exec.
  rewrite Ht, <- app_assoc, drop_app_length, quits_app, (quits_none _ Hq).
  reflexivity.
Qed.

Lemma post_to_linkedin_quits_once_witness :
  (open_session ascii_case None calm (set_driver_var None start)).1
    = Ok (session, format_post ascii_case breaking_news)
  /\ exists r s2,
       post_to_linkedin some_credentials ascii_case None calm start = (r, s2)
       /\ quits (new_events start s2) = 1%nat
       /\ last (trace s2) = Some (Did (Quit session))
       /\ (r = Ok true \/ r = Ok false
           \/ exists msg, r = Raise (WebDriverException msg)).
Proof.
  split; [vm_compute; reflexivity|].
  apply (post_to_linkedin_quits_once some_credentials ascii_case None calm start
           session (format_post ascii_case breaking_news)
           (open_session ascii_case None calm (set_driver_var None start)).2).
  vm_compute. reflexivity.
Defined.

(** C2 (a defect of the code): a run of [post_to_linkedin] in which
    [webdriver.Chrome] starts the session [d] and the stealth command of
    [get_driver] then fails. The exception leaves [get_driver] before
    [driver = ...] is assigned, so the [finally] block finds [driver] still
    [None]: the run prints the error and returns [False], a session has been
    created, and [driver.quit()] is never called on it. *)
Theorem post_to_linkedin_leaks_session cred U content w s service d msg :
  let fetched :=
    match content with
    | None => [Did GetLatestPost]
    | Some _ => []
    end in
  (content = None -> exists c, answer w (trace s) GetLatestPost = Done c) ->
  answer w (trace s ++ fetched) InstallChromeDriver = Done service ->
  answer w (trace s ++ fetched ++ [Did InstallChromeDriver])
    (NewChrome service (options s)) = Done d ->
  answer w (trace s ++ fetched ++ [Did InstallChromeDriver;
                                   Did (NewChrome service (options s))])
    (ExecuteCdpCmd d stealth_script) = Fault msg ->
  exists s2,
    post_to_linkedin cred U content w s = (Ok false, s2)
    /\ new_events s s2
       = fetched ++ [Did InstallChromeDriver;
                     Did (NewChrome service (options s));
                     Did (ExecuteCdpCmd d stealth_script);
                     Printed [Text "Error posting to LinkedIn: ";
                              ShowExn (WebDriverException msg)]]
    /\ created w (trace s) (new_events s s2) = [d]
    /\ quits (new_events s s2) = 0%nat.
Proof.
  intros fetched Hc Hi Hn He.
  assert (exists s2,
            post_to_linkedin cred U content w s = (Ok false, s2)
            /\ trace s2
               = trace s ++ fetched ++ [Did InstallChromeDriver;
                     Did (NewChrome service (options s));
                     Did (ExecuteCdpCmd d stealth_script);
                     Printed [Text "Error posting to LinkedIn: ";
                              ShowExn (WebDriverException msg)]])
    as (s2 & Hrun & Ht).
  { unfold post_to_linkedin, open_session, get_driver, close_session, bind,
      put_driver_var, try_finally, try_except.
    destruct content as [c|]; subst fetched; cbn [app] in *.
    - rewrite app_nil_r in Hi.
      change (trace s ++ [Did InstallChromeDriver;
                          Did (NewChrome service (options s))])
        with (trace s ++ [Did InstallChromeDriver]
                ++ [Did (NewChrome service (options s))]) in He.
      rewrite app_assoc in He. exec.
      run_done Hi. run_done Hn. run_fault He.
      eexists. split; [reflexivity|]. exec. now rewrite <- !app_assoc.
    - destruct (Hc eq_refl) as [c Hg].
      change (trace s ++ [Did GetLatestPost; Did InstallChromeDriver])
        with (trace s ++ [Did GetLatestPost] ++ [Did InstallChromeDriver]) in Hn.
      change (trace s ++ [Did GetLatestPost; Did InstallChromeDriver;
                          Did (NewChrome service (options s))])
        with (trace s ++ [Did GetLatestPost] ++ [Did InstallChromeDriver]
                ++ [Did (NewChrome service (options s))]) in He.
      rewrite app_assoc in Hn. rewrite 2!app_assoc in He. exec.
      run_done Hg. run_done Hi. run_done Hn. run_fault He.
      eexists. split; [reflexivity|]. exec. now rewrite <- !app_assoc. }
  exists s2. split; [exact Hrun|].
  unfold new_events. rewrite Ht, drop_app_length.
  split; [reflexivity|].
  destruct content as [c|]; subst fetched; cbn [app created] in *.
  - rewrite Hn. split; [reflexivity|]. reflexivity.
  - rewrite <- !app_assoc. cbn [app]. rewrite Hn.
    split; [reflexivity|]. reflexivity.
Qed.

Lemma post_to_linkedin_leaks_session_witness :
  exists s2,
    post_to_linkedin some_credentials ascii_case None stealth_fails start
    = (Ok false, s2)
    /\ new_events start s2
       = [Did GetLatestPost; Did InstallChromeDriver;
          Did (NewChrome "/usr/local/bin/chromedriver" initial_options);
          Did (ExecuteCdpCmd session stealth_script);
          Printed [Text "Error posting to LinkedIn: ";
                   ShowExn (WebDriverException
                              "disconnected: not connected to DevTools")]]
    /\ created stealth_fails [] (new_events start s2) = [session]
    /\ quits (new_events start s2) = 0%nat.
Proof.
  apply (post_to_linkedin_leaks_session some_credentials ascii_case None
           stealth_fails start "/usr/local/bin/chromedriver" session
           "disconnected: not connected to DevTools").
  - intros _. eexists. reflexivity.
  - reflexivity.
  - reflexivity.
  - reflexivity.
Defined.

End PosterFacts.

(** ** Facts about the credential store, the login and the publishing *)

(** *** The credential store *)

Module StoreFacts.
Import PyStr Formatter Browser Poster Properties BrowserFacts PosterFacts Scenarios.
Local Open Scope string_scope.
Local Open Scope list_scope.

Lemma steps_mono (Q Q' : event -> Prop) {A} (m : M A) :
  (forall e, Q e -> Q' e) -> steps Q m -> steps Q' m.
Proof.
  intros HQ Hm w s. destruct (Hm w s) as [Hd (evs & Ht & Hq)].
  split; [done|]. exists evs. split; [done|].
  eapply Forall_impl; [exact Hq | exact HQ].
Qed.

Lemma extends_set_fs Q s s' f : extends Q s s' -> extends Q s (set_fs f s').
Proof. intros [Hd He]. split; done. Qed.

Lemma added_cookies_app a b : added_cookies (a ++ b) = added_cookies a ++ added_cookies b.
Proof. unfold added_cookies. apply omap_app. Qed.

Lemma valid_cookies_fresh t stored : forall valid,
  valid_cookies t stored = Ok valid -> Forall (fresh_copy t stored) valid.
Proof.
  induction stored as [|c0 stored IH]; intros valid; simpl.
  - intros [= <-]. constructor.
  - destruct (expired t c0) as [[]|] eqn:E; [| |discriminate].
    + intros H. eapply Forall_impl; [apply IH, H|].
      intros c (c1 & ? & ? & ?). exists c1. split; [now right | done].
    + destruct (valid_cookies t stored) as [v|]; [|discriminate].
      intros [= <-]. constructor.
      * exists c0. split; [left | done].
      * eapply Forall_impl; [now apply IH|].
        intros c (c1 & ? & ? & ?). exists c1. split; [now right | done].
Qed.

Lemma pop_attributes_lookup c :
  pop_attributes c !! "expiry" = None /\ pop_attributes c !! "domain" = None.
Proof.
  unfold pop_attributes. split.
  - rewrite lookup_delete_ne, lookup_delete_ne by done. apply lookup_delete_eq.
  - apply lookup_delete_eq.
Qed.

Lemma expired_false t c q :
  expired t c = Ok false -> c !! "expiry" = Some (VNum q) -> (t < q)%Q.
Proof.
  unfold expired. intros H E. rewrite E in H. injection H as H.
  apply Qnot_le_lt. intros Hle. apply Qle_bool_iff in Hle. congruence.
Qed.

(** The loop over [valid_cookies] never raises, and hands exactly records
    of [valid] to the session. *)
Lemma add_cookies_run d valid : forall w s,
  exists s' evs,
    add_cookies d valid w s = (Ok tt, s')
    /\ fs s' = fs s /\ trace s' = trace s ++ evs
    /\ Forall (fun c => c ∈ valid) (added_cookies evs).
Proof.
  induction valid as [|c valid IH]; intros w s; cbn [add_cookies].
  - exists s, []. rewrite app_nil_r. repeat split; constructor.
  - unfold bind, try_except, call.
    destruct (answer w (trace s) (AddCookie d c)) as [[]|msg].
    + match goal with |- context [add_cookies d valid w ?s1] =>
        destruct (IH w s1) as (s' & evs & -> & Hfs & Ht & Hq) end.
      exists s', (Did (AddCookie d c) :: evs). simpl in *.
      rewrite Ht, <- app_assoc. repeat split; try done.
      constructor; [left|]. eapply Forall_impl; [exact Hq|]. intros; now right.
    + unfold print at 1.
      match goal with |- context [add_cookies d valid w ?s1] =>
        destruct (IH w s1) as (s' & evs & -> & Hfs & Ht & Hq) end.
      eexists s', (Did (AddCookie d c) :: _ :: evs). simpl in *.
      rewrite Ht, <- !app_assoc. repeat split; try done.
      constructor; [left|]. eapply Forall_impl; [exact Hq|]. intros; now right.
Qed.

(** C1: whatever the stored records and the world, every record that
    [load_cookies] hands to the browser session ([driver.add_cookie]) has
    no [expiry] and no [domain] attribute, and is the copy of a stored
    record that was not expired at the time [load_cookies] read the clock:
    that record had no [expiry], or an [expiry] after that time. *)
Theorem load_cookies_hands_fresh_stripped w s d :
  Forall
    (fun c =>
       c !! "expiry" = None /\ c !! "domain" = None
       /\ exists stored c0,
            fs s !! cookies_file = Some (Pickle stored)
            /\ c0 ∈ stored /\ c = pop_attributes c0
            /\ expired (clock w (trace s ++ [Did (OpenRead cookies_file)])) c0
               = Ok false
            /\ forall q, c0 !! "expiry" = Some (VNum q) ->
                 (clock w (trace s ++ [Did (OpenRead cookies_file)]) < q)%Q)
    (added_cookies (new_events s (load_cookies d w s).2)).
Proof.
  set (t := clock w (trace s ++ [Did (OpenRead cookies_file)])).
  match goal with |- Forall ?P0 _ => set (P := P0) end.
  assert (exists evs, trace (load_cookies d w s).2 = trace s ++ evs
                      /\ Forall P (added_cookies evs)) as (evs & Ht & HP).
  2:{ unfold new_events. now rewrite Ht, drop_app_length. }
  assert (forall s0 e m,
            trace s0 = trace s ++ e -> Forall P (added_cookies e) ->
            exists evs, trace (log (Printed m) s0) = trace s ++ evs
                        /\ Forall P (added_cookies evs)) as Hprint.
  { intros s0 e m Hs0 He. exists (e ++ [Printed m]). simpl.
    rewrite Hs0, <- app_assoc, added_cookies_app, app_nil_r. done. }
  unfold load_cookies, try_except, bind, path_exists.
  destruct (bool_decide (is_Some (fs s !! cookies_file))); cbn [negb fst snd].
  2:{ apply (Hprint s []); [now rewrite app_nil_r | constructor]. }
  unfold call. destruct (answer w (trace s) (OpenRead cookies_file)) as [[]|msg].
  2:{ apply (Hprint _ [Did (OpenRead cookies_file)]); [done | constructor]. }
  unfold pickle_load. cbn [fs set_fs log fs_effect].
  destruct (fs s !! cookies_file) as [[stored| | | |]|] eqn:Efs;
    try (apply (Hprint _ [Did (OpenRead cookies_file)]); [done | constructor]).
  unfold now_timestamp, lift. cbn [trace set_fs log]. fold t.
  destruct (valid_cookies t stored) as [valid|e] eqn:Ev.
  2:{ apply (Hprint _ [Did (OpenRead cookies_file)]); [done | constructor]. }
  destruct valid as [|c valid].
  { apply (Hprint _ [Did (OpenRead cookies_file)]); [done | constructor]. }
  match goal with |- context [add_cookies d (c :: valid) w ?s1] =>
    destruct (add_cookies_run d (c :: valid) w s1) as (s' & evs & -> & Hfs & Ht & Hq) end.
  apply (Hprint _ (Did (OpenRead cookies_file) :: evs)).
  { rewrite Ht. simpl. now rewrite <- app_assoc. }
  change (Did (OpenRead cookies_file) :: evs) with ([Did (OpenRead cookies_file)] ++ evs).
  rewrite added_cookies_app. simpl.
  pose proof (valid_cookies_fresh _ _ _ Ev) as Hfresh.
  rewrite Forall_forall in Hfresh, Hq. apply Forall_forall. intros x Hx.
  destruct (Hfresh x (Hq x Hx)) as (c0 & Hin & -> & Hexp).
  destruct (pop_attributes_lookup c0) as [? ?]. subst P. cbv beta.
  split; [done|]. split; [done|]. exists stored, c0. repeat split; try done.
  intros q Hq0. now apply (expired_false t c0 q).
Qed.

(** Saving *)

Lemma any_essential_none cookies :
  no_essential cookies -> any_essential cookies <> Ok true.
Proof.
  induction 1 as [|c cookies Hc Hcs IH]; simpl; [done|].
  unfold has_essential_name. destruct (c !! "name") as [[n| | |]|] eqn:E; try done.
  specialize (Hc n eq_refl). now rewrite bool_decide_eq_false_2.
Qed.

Lemma any_essential_some cookies :
  any_essential cookies = Ok true ->
  exists c n, c ∈ cookies /\ c !! "name" = Some (VStr n) /\ n ∈ essential_cookies.
Proof.
  induction cookies as [|c cookies IH]; simpl; [done|].
  unfold has_essential_name.
  destruct (c !! "name") as [[n| | |]|] eqn:E; try done.
  - destruct (bool_decide (n ∈ essential_cookies)) eqn:Eb.
    + intros _. exists c, n. apply bool_decide_eq_true_1 in Eb.
      split; [left | done].
    + intros H. destruct (IH H) as (c' & n' & ? & ? & ?).
      exists c', n'. split; [now right | done].
  - intros H. destruct (IH H) as (c' & n' & ? & ? & ?).
    exists c', n'. split; [now right | done].
  - intros H. destruct (IH H) as (c' & n' & ? & ? & ?).
    exists c', n'. split; [now right | done].
  - intros H. destruct (IH H) as (c' & n' & ? & ? & ?).
    exists c', n'. split; [now right | done].
Qed.

(** C6: when the cookies of the session contain none of the essential
    names, [save_cookies] returns [False], leaves every file as it was and
    opens no file for writing; and whenever [save_cookies] returns [True],
    the session held a cookie with an essential name. *)
Theorem save_cookies_needs_essential w s d cookies :
  (answer w (trace s ++ [Slept 3]) (GetCookies d) = Done cookies ->
   no_essential cookies ->
   exists s',
     save_cookies d w s = (Ok false, s')
     /\ fs s' = fs s
     /\ Forall (fun e => is_store_write e = false) (new_events s s'))
  /\ (forall s',
        save_cookies d w s = (Ok true, s') ->
        exists cookies' c n,
          answer w (trace s ++ [Slept 3]) (GetCookies d) = Done cookies'
          /\ c ∈ cookies' /\ c !! "name" = Some (VStr n)
          /\ n ∈ essential_cookies).
Proof.
  split.
  - intros Hget Hnone. pose proof (any_essential_none _ Hnone) as Hany.
    unfold save_cookies, try_except, bind, sleep, call, lift, new_events.
    cbn [trace log]. rewrite Hget. cbn [fs_effect set_fs fs log].
    destruct (any_essential cookies) as [[]|e]; [done| |].
    + eexists. split; [reflexivity|]. split; [done|]. simpl.
      rewrite <- !app_assoc, drop_app_length. repeat constructor.
    + eexists. split; [reflexivity|]. split; [done|]. simpl.
      rewrite <- !app_assoc, drop_app_length. repeat constructor.
  - intros s'. unfold save_cookies, try_except, bind, sleep, call, lift.
    cbn [trace log].
    destruct (answer w (trace s ++ [Slept 3]) (GetCookies d)) as [cookies'|msg];
      [|discriminate].
    cbn [fs_effect set_fs fs log trace].
    destruct (any_essential cookies') as [[]|e] eqn:Ea; [|discriminate..].
    intros _. destruct (any_essential_some _ Ea) as (c & n & ? & ? & ?).
    exists cookies', c, n. done.
Qed.

(** [load_cookies] on a stale and a fresh record: only the fresh one
    reaches the session, without its [expiry] and [domain]. *)
Example load_cookies_stale_and_fresh :
  added_cookies
    (new_events (start_with [stale_cookie; fresh_cookie])
       (load_cookies session calm (start_with [stale_cookie; fresh_cookie])).2)
  = [ {[ "name" := VStr "JSESSIONID"; "value" := VStr "new" ]} ].
Proof. vm_compute. reflexivity. Qed.

Lemma save_cookies_needs_essential_witness :
  answer only_language_cookie (trace start ++ [Slept 3]) (GetCookies session)
    = Done [language_cookie]
  /\ no_essential [language_cookie]
  /\ exists s',
       save_cookies session only_language_cookie start = (Ok false, s')
       /\ fs s' = fs start
       /\ Forall (fun e => is_store_write e = false) (new_events start s').
Proof.
  assert (no_essential [language_cookie]) as Hnone.
  { constructor; [|constructor]. intros n Hn. vm_compute in Hn.
    injection Hn as <-. refine (bool_decide_unpack _ _). vm_compute. exact I. }
  split; [reflexivity|]. split; [exact Hnone|].
  exact (proj1 (save_cookies_needs_essential only_language_cookie start session
                  [language_cookie]) eq_refl Hnone).
Defined.

End StoreFacts.

(** *** The login workflow *)

Module LoginFacts.
Import PyStr Formatter Browser Poster Properties Conduct BrowserFacts
  PosterFacts StoreFacts Scenarios.
Local Open Scope string_scope.
Local Open Scope list_scope.

Lemma login_from_manual cred d w s s1 :
  reaches_manual_login d w s s1 ->
  login_to_linkedin cred d w s
  = try_except (manual_login cred d) (login_failed d) w s1.
Proof.
  unfold reaches_manual_login, login_to_linkedin, try_except, bind.
  destruct (call (Get d home_url) w s) as [[u|e] sa]; [|discriminate].
  destruct (sleep 5 w sa) as [[u'|e] sb]; [|discriminate].
  intros ->. reflexivity.
Qed.

Lemma valid_cookies_all_expired t stored :
  Forall (fun c => expired t c = Ok true) stored -> valid_cookies t stored = Ok [].
Proof. induction 1 as [|c stored Hc Hs IH]; simpl; [done|]. now rewrite Hc. Qed.

(** C8: when the cookie file exists and every stored record is expired at
    the time [load_cookies] reads the clock, the login workflow, once it
    has opened the home page, adds no cookie to the session, does not
    refresh, does not check the login status, and goes on with the manual
    login. *)
Theorem login_with_expired_cookies cred w s d stored :
  fs s !! cookies_file = Some (Pickle stored) ->
  answer w (trace s) (Get d home_url) = Done tt ->
  Forall
    (fun c =>
       expired
         (clock w
            (trace s
               ++ [Did (Get d home_url); Slept 5;
                   Printed [Text "Found existing cookies, attempting to use them..."];
                   Did (OpenRead cookies_file)])) c = Ok true)
    stored ->
  exists s1,
    reaches_manual_login d w s s1
    /\ login_to_linkedin cred d w s
       = try_except (manual_login cred d) (login_failed d) w s1
    /\ fs s1 = fs s
    /\ Forall (fun e => is_injection e = false) (new_events s s1).
Proof.
  intros Hfs Hget Hexp.
  assert (exists s1, reaches_manual_login d w s s1 /\ fs s1 = fs s
            /\ Forall (fun e => is_injection e = false) (new_events s s1))
    as (s1 & Hreach & Hfs1 & Hev).
  2:{ exists s1. split; [done|]. split; [now apply login_from_manual | done]. }
  unfold reaches_manual_login, new_events, cookie_login, load_cookies, bind,
    try_except.
  rewrite (run_call_done _ _ _ _ Hget). exec.
  repeat progress (rewrite ?Hfs, ?bool_decide_eq_true_2 by eauto; exec).
  branch_call v E.
  - rewrite (run_pickle_load _ stored) by exact Hfs. exec. events. rewrite (valid_cookies_all_expired _ _ Hexp). exec.
    eexists. split; [reflexivity|]. split; [done|]. exec. events.
    rewrite drop_app_length. repeat constructor.
  - eexists. split; [reflexivity|]. split; [done|]. exec. events.
    rewrite drop_app_length. repeat constructor.
Qed.

(** C3 (as amended): when the login workflow reaches the manual login and
    the email or the password is missing, the manual login raises the
    [ValueError] that asks for them, and the handler of [login_to_linkedin]
    itself catches it and prints it: the caller gets [False] (or, if
    reading [driver.current_url] in that handler fails, the browser's
    exception), never the [ValueError]; after the cookie part the workflow
    only prints and reads the current URL: no login page is opened, nothing
    is typed, and nothing is tried again. In [post_to_linkedin] the [try]
    block then ends with an exception, before [create_post]. *)
Theorem login_without_credentials cred w s d s1 :
  missing (email cred) || missing (password cred) = true ->
  reaches_manual_login d w s s1 ->
  manual_login cred d w s1 = (Raise credentials_error, s1)
  /\ exists r s2,
       login_to_linkedin cred d w s = (r, s2)
       /\ login_failed d credentials_error w s1 = (r, s2)
       /\ (exists rest,
             new_events s1 s2
             = Printed [Text "Login process failed: "; ShowExn credentials_error]
                 :: rest)
       /\ ~ raises_configuration_error r
       /\ (r = Ok false \/ exists msg, r = Raise (WebDriverException msg))
       /\ ((forall h msg, answer w h (CurrentUrl d) <> Fault msg) -> r = Ok false)
       /\ Forall (is_report d) (new_events s1 s2)
       /\ forall k : M bool,
            exists e s3,
              (logged_in ← login_to_linkedin cred d;
               if negb logged_in
               then raise (PyException "Failed to login to LinkedIn")
               else k)%io w s = (Raise e, s3).
Proof.
  intros Hmiss Hreach.
  assert (manual_login cred d w s1 = (Raise credentials_error, s1)) as Hman.
  { unfold manual_login. rewrite Hmiss. reflexivity. }
  split; [exact Hman|].
  assert (login_to_linkedin cred d w s = login_failed d credentials_error w s1)
    as Hlog.
  { rewrite (login_from_manual cred d w s s1 Hreach). unfold try_except.
    now rewrite Hman. }
  enough (exists r s2,
            login_failed d credentials_error w s1 = (r, s2)
            /\ (exists rest,
                  new_events s1 s2
                  = Printed [Text "Login process failed: ";
                             ShowExn credentials_error] :: rest)
            /\ (r = Ok false \/ exists msg, r = Raise (WebDriverException msg))
            /\ ((forall h msg, answer w h (CurrentUrl d) <> Fault msg) -> r = Ok false)
            /\ Forall (is_report d) (new_events s1 s2))
    as (r & s2 & Hrun & Hfirst & Hr & Hok & Hev).
  { exists r, s2. rewrite Hlog. repeat split; try done.
    - intros [m Hm]. destruct Hr as [->|[msg ->]]; discriminate.
    - intros k. unfold bind. rewrite Hlog, Hrun.
      destruct Hr as [->|[msg ->]]; eauto. }
  unfold login_failed, bind, new_events. exec.
  branch_call url E1.
  2:{ eexists _, _. split; [reflexivity|]. exec. events.
      rewrite drop_app_length. split; [eexists; reflexivity|]. split; [eauto|].
      split; [intros H; now apply H in E1|]. repeat constructor. }
  destruct (negb (bool_decide (url = login_url))); exec.
  - branch_call url' E2.
    + eexists _, _. split; [reflexivity|]. exec. events.
      rewrite drop_app_length. split; [eexists; reflexivity|]. split; [eauto|].
      split; [done|]. repeat constructor.
    + eexists _, _. split; [reflexivity|]. exec. events.
      rewrite drop_app_length. split; [eexists; reflexivity|]. split; [eauto|].
      split; [intros H; now apply H in E2|]. repeat constructor.
  - eexists _, _. split; [reflexivity|]. exec. events.
    rewrite drop_app_length. split; [eexists; reflexivity|]. split; [eauto|].
    split; [done|]. repeat constructor.
Qed.

Lemma login_with_expired_cookies_witness :
  exists s1,
    reaches_manual_login session calm (start_with [stale_cookie]) s1
    /\ login_to_linkedin some_credentials session calm (start_with [stale_cookie])
       = try_except (manual_login some_credentials session) (login_failed session)
           calm s1
    /\ fs s1 = fs (start_with [stale_cookie])
    /\ Forall (fun e => is_injection e = false)
         (new_events (start_with [stale_cookie]) s1).
Proof.
  apply (login_with_expired_cookies some_credentials calm
           (start_with [stale_cookie]) session [stale_cookie]).
  - vm_compute. reflexivity.
  - reflexivity.
  - constructor; [vm_compute; reflexivity | constructor].
Defined.

(** C3, counterexample: with no credentials configured, no cookie file and
    a browser that answers every call, the login workflow reaches the
    manual login and then returns [False]; it does not raise. *)
Lemma login_without_credentials_returns_false :
  (exists s1, reaches_manual_login session calm start s1)
  /\ missing (email no_credentials) || missing (password no_credentials) = true
  /\ (login_to_linkedin no_credentials session calm start).1 = Ok false
  /\ ~ raises_configuration_error
        (login_to_linkedin no_credentials session calm start).1.
Proof.
  split; [eexists; vm_compute; reflexivity|]. split; [reflexivity|].
  split; [vm_compute; reflexivity|]. intros [msg H]. vm_compute in H. discriminate.
Qed.

Lemma login_without_credentials_witness :
  missing (email no_credentials) || missing (password no_credentials) = true
  /\ reaches_manual_login session calm start
       ((call (Get session home_url);; sleep 5;; cookie_login session)%io
          calm start).2
  /\ manual_login no_credentials session calm
       ((call (Get session home_url);; sleep 5;; cookie_login session)%io
          calm start).2
     = (Raise credentials_error,
        ((call (Get session home_url);; sleep 5;; cookie_login session)%io
           calm start).2)
  /\ exists r s2,
       login_to_linkedin no_credentials session calm start = (r, s2)
       /\ login_failed session credentials_error calm
            ((call (Get session home_url);; sleep 5;; cookie_login session)%io
               calm start).2
          = (r, s2)
       /\ (exists rest,
             new_events
               ((call (Get session home_url);; sleep 5;; cookie_login session)%io
                  calm start).2 s2
             = Printed [Text "Login process failed: "; ShowExn credentials_error]
                 :: rest)
       /\ ~ raises_configuration_error r
       /\ (r = Ok false \/ exists msg, r = Raise (WebDriverException msg))
       /\ ((forall h msg, answer calm h (CurrentUrl session) <> Fault msg) ->
           r = Ok false)
       /\ Forall (is_report session)
            (new_events
               ((call (Get session home_url);; sleep 5;; cookie_login session)%io
                  calm start).2 s2)
       /\ forall k : M bool,
            exists e s3,
              (logged_in ← login_to_linkedin no_credentials session;
               if negb logged_in
               then raise (PyException "Failed to login to LinkedIn")
               else k)%io calm start = (Raise e, s3).
Proof.
  assert (reaches_manual_login session calm start
            ((call (Get session home_url);; sleep 5;; cookie_login session)%io
               calm start).2) as Hreach
    by (vm_compute; reflexivity).
  split; [reflexivity|]. split; [exact Hreach|].
  exact (login_without_credentials no_credentials calm start session _
           eq_refl Hreach).
Defined.

End LoginFacts.

(** *** The publishing workflow *)

Module PublishFacts.
Import PyStr Formatter Browser Poster Properties BrowserFacts PosterFacts Scenarios.
Local Open Scope string_scope.
Local Open Scope list_scope.

Lemma post_failed_run d e w s :
  exists r s2 evs,
    post_failed d e w s = (r, s2)
    /\ (r = Ok false \/ exists msg, r = Raise (WebDriverException msg))
    /\ trace s2 = trace s ++ evs
    /\ Forall (fun e => is_diagnostic e = true) evs
    /\ forall ts, fs s2 !! pre_post_shot ts = fs s !! pre_post_shot ts.
Proof.
  unfold post_failed, bind, try_except. exec.
  branch_call url E1.
  2:{ eexists _, _, _. split; [reflexivity|]. split; [eauto|]. exec. events.
      split; [reflexivity|]. split; [repeat constructor | done]. }
  branch_call shot E2.
  2:{ eexists _, _, _. split; [reflexivity|]. split; [eauto|]. exec. events.
      split; [reflexivity|]. split; [repeat constructor | done]. }
  assert (forall ts f, fs_effect (SaveScreenshot d
            ("error_screenshot_" ++ clock_text w (trace s ++
               [Printed [Text "Error creating post: "; ShowExn e];
                Did (CurrentUrl d); Printed [Text "Current URL: "; Text url]])
             ++ ".png")%string) shot f !! pre_post_shot ts
          = f !! pre_post_shot ts) as Hkeep.
  { intros ts f. simpl. destruct shot; [|done].
    apply lookup_insert_ne. unfold pre_post_shot. cbv [String.append]. congruence. }
  branch_call source E3.
  - eexists _, _, _. split; [reflexivity|]. split; [eauto|]. exec. events.
    split; [reflexivity|]. split; [repeat constructor|]. intros ts.
    revert Hkeep. events. intros Hkeep. apply Hkeep.
  - eexists _, _, _. split; [reflexivity|]. split; [eauto|]. exec. events.
    split; [reflexivity|]. split; [repeat constructor|]. intros ts.
    revert Hkeep. events. intros Hkeep. apply Hkeep.
Qed.

(** C4: when no approach has found the compose trigger, [create_post]
    first asks the session for the screenshot [pre_post_error_<time>.png],
    which is on disk from then on if the session could take it; what
    follows is only the failure handling (messages, the current URL, a
    second screenshot, the page source): the editor is not looked for,
    nothing is typed, submitted or verified. The caller gets [False], or
    the browser's exception when the handler cannot read the current URL;
    either way the [try] block of [post_to_linkedin] ends with an
    exception, so that the run is reported as failed. *)
Theorem create_post_without_trigger d content w s s1 :
  trigger_missed d w s s1 ->
  exists r s2 rest,
    create_post d content w s = (r, s2)
    /\ (r = Ok false \/ exists msg, r = Raise (WebDriverException msg))
    /\ new_events s1 s2
       = Did (SaveScreenshot d (pre_post_shot (clock_text w (trace s1)))) :: rest
    /\ Forall (fun e => is_diagnostic e = true) rest
    /\ (answer w (trace s1)
          (SaveScreenshot d (pre_post_shot (clock_text w (trace s1)))) = Done true ->
        fs s2 !! pre_post_shot (clock_text w (trace s1)) = Some Image)
    /\ forall k : M bool,
         exists e s3,
           (posted ← create_post d content;
            if negb posted then raise (PyException "Failed to create post")
            else k)%io w s = (Raise e, s3).
Proof.
  intros H.
  enough (exists r s2 rest,
    create_post d content w s = (r, s2)
    /\ (r = Ok false \/ exists msg, r = Raise (WebDriverException msg))
    /\ new_events s1 s2
       = Did (SaveScreenshot d (pre_post_shot (clock_text w (trace s1)))) :: rest
    /\ Forall (fun e => is_diagnostic e = true) rest
    /\ (answer w (trace s1)
          (SaveScreenshot d (pre_post_shot (clock_text w (trace s1)))) = Done true ->
        fs s2 !! pre_post_shot (clock_text w (trace s1)) = Some Image))
    as (r & s2 & rest & Hrun & Hr & Hev & Hd & Hshot).
  { exists r, s2, rest. repeat split; try done. intros k. unfold bind. rewrite Hrun.
    destruct Hr as [->|[msg ->]]; eauto. }
  revert H. unfold trigger_missed, create_post, submit_post, try_except, bind.
  intros H.
  destruct (call (Get d feed_url) w s) as [[u|e] sa]; [|discriminate].
  exec. exec in H. rewrite H. unfold trigger_not_found, bind, new_events. exec.
  fold (pre_post_shot (clock_text w (trace s1))).
  set (shot := pre_post_shot (clock_text w (trace s1))).
  branch_call taken E.
  - match goal with |- context [post_failed d ?e w ?s0] =>
      destruct (post_failed_run d e w s0) as (r & s2 & evs & -> & Hr & Ht & Hd & Hfs)
    end.
    exists r, s2, evs. split; [done|]. split; [done|].
    rewrite Ht. exec. events. rewrite drop_app_length.
    split; [done|]. split; [done|]. intros [= ->].
    subst shot. rewrite Hfs. exec. apply lookup_insert_eq.
  - match goal with |- context [post_failed d ?e w ?s0] =>
      destruct (post_failed_run d e w s0) as (r & s2 & evs & -> & Hr & Ht & Hd & Hfs)
    end.
    exists r, s2, evs. split; [done|]. split; [done|].
    rewrite Ht. exec. events. rewrite drop_app_length.
    split; [done|]. split; [done|]. discriminate.
Qed.

(** C5: when [create_post] has clicked the submit button and none of the
    three success indicators is found displayed, it prints the warning and
    returns [True]: it neither raises nor returns [False]. *)
Theorem create_post_unverified d content w s s1 s2 :
  submit_post d content w s = (Ok tt, s1) ->
  probe_success d success_indicators w (log (Slept 10) s1) = (Ok false, s2) ->
  create_post d content w s = (Ok true, log (Printed unverified_warning) s2).
Proof.
  intros Hsubmit Hprobe. unfold create_post, try_except, bind.
  rewrite Hsubmit. unfold verify_post, bind. exec. rewrite Hprobe. reflexivity.
Qed.

Lemma create_post_without_trigger_witness :
  trigger_missed session no_element start
    ((call (Get session feed_url);; sleep 5;; find_compose_trigger session)%io
       no_element start).2
  /\ (create_post session breaking_news no_element start).1 = Ok false
  /\ fs (create_post session breaking_news no_element start).2
       !! pre_post_shot "20240101_120000" = Some Image.
Proof.
  assert (trigger_missed session no_element start
            ((call (Get session feed_url);; sleep 5;;
              find_compose_trigger session)%io no_element start).2) as Hmiss
    by (vm_compute; reflexivity).
  split; [exact Hmiss|].
  destruct (create_post_without_trigger session breaking_news no_element start _ Hmiss)
    as (r & s2 & rest & Hrun & _ & _ & _ & Hshot & _).
  rewrite Hrun. split; [vm_compute in Hrun; now injection Hrun as <- _|].
  apply Hshot. reflexivity.
Defined.

Lemma create_post_unverified_witness :
  (submit_post session breaking_news no_wait start).1 = Ok tt
  /\ create_post session breaking_news no_wait start
     = (Ok true,
        log (Printed unverified_warning)
          (probe_success session success_indicators no_wait
             (log (Slept 10) (submit_post session breaking_news no_wait start).2)).2).
Proof.
  split; [vm_compute; reflexivity|].
  apply (create_post_unverified session breaking_news no_wait start
           (submit_post session breaking_news no_wait start).2).
  - vm_compute. reflexivity.
  - vm_compute. reflexivity.
Defined.

End PublishFacts.

(** ** Facts about the output of the formatter *)

Module LayoutFacts.
Import PyStr Formatter Properties Scenarios Layout FormatterFacts.

(** *** Neighbouring code points *)

Lemma rtrimmed_cases s :
  ltrimmed (rev s) <-> s = [] \/ exists t c, s = t ++ [c] /\ is_space c = false.
Proof.
  rewrite ltrimmed_cases. split.
  - intros [H|(c & t & H & E)].
    + left. apply (f_equal (@rev N)) in H. now rewrite rev_involutive in H.
    + right. exists (rev t), c. split; [|done].
      apply (f_equal (@rev N)) in H. now rewrite rev_involutive in H.
  - intros [->|(t & c & -> & E)]; [now left|].
    right. exists c, (rev t). now rewrite rev_app_distr.
Qed.

Lemma space_feed : forall c, is_linebreak c = true -> is_space c = true.
Proof.
  intros c. unfold is_linebreak, is_space.
  rewrite !orb_true_iff, !andb_true_iff, !N.leb_le, !N.eqb_eq. lia.
Qed.

Section Chained.
Context (R : N -> N -> bool).

Lemma chained_app_inv a b :
  chained R (a ++ b) = true -> chained R a = true /\ chained R b = true.
Proof.
  induction a as [|x a IH]; [done|].
  destruct a as [|y a].
  - simpl. destruct b; [done|]. now intros [_ ?]%andb_true_iff.
  - change (chained R ((x :: y :: a) ++ b))
      with (R x y && chained R ((y :: a) ++ b)).
    change (chained R (x :: y :: a)) with (R x y && chained R (y :: a)).
    intros [H1 H2]%andb_true_iff. destruct (IH H2) as [? ?].
    split; [|done]. now apply andb_true_iff.
Qed.

Lemma chained_glue a c b :
  chained R (a ++ c :: b) = chained R (a ++ [c]) && chained R (c :: b).
Proof.
  induction a as [|x a IH]; [done|].
  destruct a as [|y a].
  - cbn [app]. change (chained R [x; c]) with (R x c && true).
    change (chained R (x :: c :: b)) with (R x c && chained R (c :: b)).
    now rewrite andb_true_r.
  - change (chained R ((x :: y :: a) ++ c :: b))
      with (R x y && chained R ((y :: a) ++ c :: b)).
    change (chained R ((x :: y :: a) ++ [c]))
      with (R x y && chained R ((y :: a) ++ [c])).
    rewrite IH. now rewrite andb_assoc.
Qed.

Lemma chained_snoc a x c :
  chained R ((a ++ [x]) ++ [c]) = chained R (a ++ [x]) && R x c.
Proof.
  rewrite <- app_assoc. cbn [app]. rewrite chained_glue.
  change (chained R [x; c]) with (R x c && true). now rewrite andb_true_r.
Qed.

Lemma chained_lstrip s : chained R s = true -> chained R (lstrip s) = true.
Proof.
  destruct (lstrip_suffix s) as [t Ht]. rewrite Ht at 1.
  now intros [_ ?]%chained_app_inv.
Qed.

Lemma chained_strip s : chained R s = true -> chained R (strip s) = true.
Proof.
  intros H%chained_lstrip. unfold strip.
  destruct (rstrip_prefix (lstrip s)) as [t Ht]. rewrite Ht in H.
  now apply chained_app_inv in H as [? _].
Qed.

(** The first line of a text is where the text starts. *)
Lemma splitlines_prefix s l ls :
  splitlines s = l :: ls -> exists t, s = l ++ t.
Proof.
  revert l ls. induction s as [|c s IH]; intros l ls; simpl; [done|].
  destruct (is_linebreak c).
  - assert (forall u, [] :: u = l :: ls -> exists t, c :: s = l ++ t) as Hdef
      by (intros u [= <- _]; now exists (c :: s)).
    destruct (c =? 13); [|apply Hdef].
    destruct s as [|c' s']; [apply Hdef|].
    destruct c' as [|p]; [apply Hdef|].
    do 4 (destruct p as [p|p|]; try apply Hdef).
  - destruct (splitlines s) as [|l' ls'].
    + intros [= <- <-]. now exists s.
    + intros [= <- <-]. destruct (IH l' ls' eq_refl) as [t ->].
      now exists t.
Qed.

Lemma chained_splitlines s :
  chained R s = true -> Forall (fun l => chained R l = true) (splitlines s).
Proof.
  induction s as [s IH] using (induction_ltof1 _ (@length N)). unfold ltof in IH.
  intros H. destruct s as [|c s']; simpl; [constructor|].
  assert (chained R s' = true) as Hs'
    by (change (c :: s') with ([c] ++ s') in H; now apply chained_app_inv in H).
  destruct (is_linebreak c).
  - assert (Forall (fun l => chained R l = true) ([] :: splitlines s')) as Hdef
      by (constructor; [done | apply IH; simpl; [lia | done]]).
    destruct (c =? 13); [|done].
    destruct s' as [|c' s'']; [done|].
    destruct c' as [|p]; [done|].
    do 4 (destruct p as [p|p|]; try done).
    constructor; [done|]. apply IH; [simpl; lia|].
    change (10 :: s'') with ([10] ++ s'') in Hs'.
    now apply chained_app_inv in Hs'.
  - assert (Forall (fun l => chained R l = true) (splitlines s')) as IH'
      by (apply IH; simpl; [lia | done]).
    destruct (splitlines s') as [|l ls] eqn:E.
    + repeat constructor.
    + inversion IH'; subst. constructor; [|done].
      destruct (splitlines_prefix _ _ _ E) as [t ->].
      change (c :: l ++ t) with ((c :: l) ++ t) in H.
      now apply chained_app_inv in H.
Qed.

(** What the hashtag step needs of [R]: the separators it writes fit
    between trimmed pieces. *)
Context (R_before_gap :
           forall x y, is_space x = false -> y = 10 \/ y = 32 -> R x y = true).
Context (R_after_hash :
           forall y, is_space y = false \/ y = 32 -> R 35 y = true).
Context (R_after_feed : forall y, is_space y = false -> R 10 y = true).
Context (R_space_hash : R 32 35 = true).

Lemma chained_gap q c :
  chained R q = true -> ltrimmed (rev q) -> c = 10 \/ c = 32 -> q <> [] ->
  chained R (q ++ [c]) = true.
Proof.
  intros Hq Ht Hc Hne. apply rtrimmed_cases in Ht as [->|(t & x & -> & Hx)]; [done|].
  rewrite chained_snoc, Hq. now apply R_before_gap.
Qed.

Lemma chained_hashed q :
  chained R q = true -> ltrimmed q -> chained R (35 :: q) = true.
Proof.
  intros Hq Ht. destruct q as [|c q]; [done|].
  change (chained R (35 :: c :: q)) with (R 35 c && chained R (c :: q)).
  rewrite Hq, andb_true_r. apply R_after_hash. left.
  apply ltrimmed_cases in Ht as [?|(c' & t & [= <- <-] & ?)]; done.
Qed.

Lemma chained_hashtags qs :
  Forall (fun q => chained R q = true /\ trimmed q) qs ->
  chained R (35 :: join (lit " #") qs) = true.
Proof.
  induction 1 as [|q qs [Hq [Hl Hr]] Hqs IH]; [done|].
  destruct qs as [|q' qs']; [now apply chained_hashed|].
  rewrite join_cons. change (lit " #") with [32; 35] in *.
  change (35 :: q ++ [32; 35] ++ join [32; 35] (q' :: qs'))
    with ((35 :: q) ++ 32 :: 35 :: join [32; 35] (q' :: qs')).
  rewrite chained_glue.
  change (chained R (32 :: 35 :: join [32; 35] (q' :: qs')))
    with (R 32 35 && chained R (35 :: join [32; 35] (q' :: qs'))).
  rewrite R_space_hash, IH, andb_true_r.
  destruct q as [|c q].
  - simpl. rewrite andb_true_r. apply R_after_hash. now right.
  - change ((35 :: c :: q) ++ [32]) with ([35] ++ (c :: q) ++ [32]).
    cbn [app]. change (35 :: c :: q ++ [32]) with ([35] ++ c :: (q ++ [32])).
    rewrite chained_glue.
    change (c :: q ++ [32]) with ((c :: q) ++ [32]).
    rewrite (chained_gap (c :: q) 32) by (try done; auto).
    rewrite andb_true_r. simpl. rewrite andb_true_r. apply R_after_hash. left.
    apply ltrimmed_cases in Hl as [?|(c' & t & [= <- <-] & ?)]; done.
Qed.

Lemma chained_pieces hs :
  chained R (concat (map (cons 35) hs)) = true ->
  Forall (fun h => chained R h = true) hs.
Proof.
  induction hs as [|h hs IH]; [constructor|].
  cbn [map concat]. change ((35 :: h) ++ concat (map (cons 35) hs))
    with ([35] ++ h ++ concat (map (cons 35) hs)).
  intros [_ H]%chained_app_inv. apply chained_app_inv in H as [? ?].
  constructor; [done | now apply IH].
Qed.

Lemma chained_hashtag_fix T :
  chained R T = true -> chained R (hashtag_fix T) = true.
Proof.
  intros HT. unfold hashtag_fix. destruct (contains hash T).
  2:{ now apply chained_strip. }
  destruct (split hash T) as [main hs] eqn:Es. apply split_char in Es.
  rewrite Es in HT. apply chained_app_inv in HT as [Hmain Hhs].
  apply chained_pieces in Hhs.
  apply chained_strip.
  change (strip main ++ nl ++ hash ++ join (lit " #") (map strip hs))
    with (strip main ++ 10 :: 35 :: join (lit " #") (map strip hs)).
  rewrite chained_glue.
  change (chained R (10 :: 35 :: join (lit " #") (map strip hs)))
    with (R 10 35 && chained R (35 :: join (lit " #") (map strip hs))).
  rewrite R_after_feed by done. rewrite chained_hashtags.
  2:{ apply Forall_fmap. eapply Forall_impl; [exact Hhs|].
      intros h Hh. split; [now apply chained_strip | apply strip_trimmed]. }
  rewrite andb_true_r.
  destruct (strip main) as [|c m] eqn:Em; [done|].
  rewrite <- Em. apply chained_gap; [now apply chained_strip | | now left | ].
  - apply strip_trimmed.
  - now rewrite Em.
Qed.

Lemma chained_feed s :
  chained R s = true -> ltrimmed s -> chained R (10 :: s) = true.
Proof.
  intros Hs Ht. destruct s as [|c s]; [done|].
  change (chained R (10 :: c :: s)) with (R 10 c && chained R (c :: s)).
  rewrite Hs, andb_true_r. apply R_after_feed.
  apply ltrimmed_cases in Ht as [?|(c' & t & [= <- <-] & ?)]; done.
Qed.

Lemma chained_join ls :
  Forall (fun l => chained R l = true /\ l <> [] /\ trimmed l) ls ->
  chained R (join nl ls) = true.
Proof.
  induction 1 as [|l ls (Hl & Hne & [Hl1 Hl2]) Hls IH]; [done|].
  destruct ls as [|l' ls']; [done|].
  rewrite join_cons.
  change (l ++ nl ++ join nl (l' :: ls')) with (l ++ 10 :: join nl (l' :: ls')).
  rewrite chained_glue, chained_gap by auto. rewrite andb_true_l.
  apply chained_feed; [done|].
  inversion Hls as [|? ? (Hl' & Hne' & [Hl1' _]) _]; subst.
  destruct ls'; [done|]. rewrite join_cons. now apply ltrimmed_app.
Qed.

End Chained.

(** *** The two relations of the formatter *)

Lemma no_star_pair_other x y : x <> 42 \/ y <> 42 -> no_star_pair x y = true.
Proof.
  unfold no_star_pair. intros [H|H].
  - destruct (N.eqb_spec x 42); done.
  - destruct (N.eqb_spec y 42); [done | now rewrite andb_false_r].
Qed.

Lemma feed_apart_other x y : x <> 10 -> y <> 10 -> feed_apart x y = true.
Proof.
  unfold feed_apart. intros Hx Hy.
  destruct (N.eqb_spec x 10); [done|]. destruct (N.eqb_spec y 10); done.
Qed.

Lemma not_space_not_feed x : is_space x = false -> x <> 10.
Proof. now intros H ->. Qed.

Lemma feed_apart_before x y :
  is_space x = false -> y = 10 \/ y = 32 -> feed_apart x y = true.
Proof.
  intros Hx Hy. unfold feed_apart.
  destruct (N.eqb_spec x 10) as [->|_]; [done|].
  rewrite Hx. now destruct (y =? 10).
Qed.

Lemma feed_apart_after x y :
  x = 10 \/ x = 35 -> is_space y = false \/ (x = 35 /\ y = 32) ->
  feed_apart x y = true.
Proof.
  unfold feed_apart. intros [->| ->] [Hy|[? ->]]; try done.
  - rewrite Hy. simpl. now rewrite (proj2 (N.eqb_neq y 10)) by now intros ->.
  - simpl. now destruct (y =? 10).
Qed.

Lemma chained_stars_hashtag_fix T :
  chained no_star_pair T = true -> chained no_star_pair (hashtag_fix T) = true.
Proof.
  apply chained_hashtag_fix.
  - intros x y _ [->| ->]; apply no_star_pair_other; now right.
  - intros y _. apply no_star_pair_other. now left.
  - intros y _. apply no_star_pair_other. now left.
  - done.
Qed.

Lemma chained_feeds_hashtag_fix T :
  chained feed_apart T = true -> chained feed_apart (hashtag_fix T) = true.
Proof.
  apply chained_hashtag_fix.
  - apply feed_apart_before.
  - intros y [Hy| ->]; apply feed_apart_after; auto.
  - intros y Hy. apply feed_apart_after; auto.
  - done.
Qed.

(** *** No pair of asterisks is left *)

Lemma contains_stars_chained s :
  contains stars s = negb (chained no_star_pair s).
Proof.
  induction s as [|c s IH]; [done|].
  cbn [contains]. rewrite IH. destruct s as [|b t].
  - simpl. now rewrite andb_false_r.
  - change (chained no_star_pair (c :: b :: t))
      with (no_star_pair c b && chained no_star_pair (b :: t)).
    unfold stars, no_star_pair. cbn [startswith].
    rewrite andb_true_r, negb_andb, negb_involutive.
    now rewrite (N.eqb_sym 42 c), (N.eqb_sym 42 b).
Qed.

Lemma starless_chained s :
  contains stars s = false <-> chained no_star_pair s = true.
Proof. rewrite contains_stars_chained. now destruct (chained no_star_pair s). Qed.

Lemma chained_cons R c s :
  (forall b t, s = b :: t -> R c b = true) -> chained R s = true ->
  chained R (c :: s) = true.
Proof.
  intros Hh Hs. destruct s as [|b t]; [done|].
  change (chained R (c :: b :: t)) with (R c b && chained R (b :: t)).
  rewrite Hs, andb_true_r. now apply (Hh b t).
Qed.

(** [replace('**', '')] leaves no pair of asterisks: of a run of asterisks
    it keeps at most the last one. *)
Lemma replace_from_starless s : forall k,
  chained no_star_pair (replace_from stars [] k s) = true.
Proof.
  induction s as [|c s IH]; intros k; [done|].
  cbn [replace_from]. destruct k as [|k]; [|apply IH].
  destruct (startswith stars (c :: s)) eqn:E; [apply IH|].
  apply chained_cons; [|apply IH].
  intros b t Hb. apply no_star_pair_other.
  destruct (N.eqb_spec c 42) as [->|Hc]; [|now left]. right. intros ->.
  destruct s as [|x s']; [done|].
  cbn [replace_from] in Hb.
  destruct (startswith stars (x :: s')) eqn:E'.
  - unfold stars in E, E'. cbn [startswith] in E, E'.
    apply andb_prop in E' as [Hx _]. apply N.eqb_eq in Hx. subst x. done.
  - injection Hb as -> _. unfold stars in E. cbn [startswith] in E. done.
Qed.

Lemma replace_absent old new s :
  contains old s = false -> replace old new s = s.
Proof.
  unfold replace. induction s as [|c s IH]; [done|].
  cbn [contains replace_from]. intros [H1 H2]%orb_false_elim.
  rewrite H1. f_equal. now apply IH.
Qed.

Lemma chained_retained R content :
  chained R (replace stars [] content) = true ->
  Forall (fun l => chained R l = true) (retained_lines content).
Proof.
  intros H. unfold retained_lines, clean_lines.
  apply Forall_filter_with.
  eapply Forall_impl; [|intros l Hl _; exact Hl].
  apply Forall_fmap, Forall_filter_with.
  eapply Forall_impl; [apply chained_splitlines, H|].
  intros l Hl _. now apply chained_strip.
Qed.

Lemma starless_text content :
  chained no_star_pair (join nl (retained_lines content)) = true.
Proof.
  apply chained_join.
  - intros x y _ [->| ->]; apply no_star_pair_other; now right.
  - intros y _. apply no_star_pair_other. now left.
  - pose proof (chained_retained no_star_pair content
                  (replace_from_starless content 0)) as H1.
    pose proof (retained_lines_tidy content) as H2.
    induction H1 as [|l ls Hl Hls IH]; [constructor|].
    inversion H2 as [|? ? [(Hne & Ht & _) _] H2']; subst.
    constructor; [done | now apply IH].
Qed.

Lemma format_post_starless U content :
  chained no_star_pair (format_post U content) = true.
Proof.
  rewrite format_post_retained.
  apply chained_stars_hashtag_fix, starless_text.
Qed.

(** X3: the output of [format_post] holds no [**], and removing pairs of
    asterisks from it changes nothing. *)
Theorem format_post_no_stars (U : UnicodeCase) (content : str) :
  contains stars (format_post U content) = false
  /\ replace stars [] (format_post U content) = format_post U content.
Proof.
  assert (contains stars (format_post U content) = false) as H
    by apply starless_chained, format_post_starless.
  split; [exact H | now apply replace_absent].
Qed.

(** *** Text laid out in lines *)

Lemma chained_unbroken l : unbroken l -> chained feed_apart l = true.
Proof.
  induction 1 as [|c l Hc Hl IH]; [done|].
  apply chained_cons; [|done]. intros b t ->.
  inversion Hl as [|? ? Hb _]; subst.
  apply feed_apart_other; now intros ->.
Qed.

Lemma only_feeds_unbroken l : unbroken l -> only_feeds l.
Proof.
  intros H. eapply Forall_impl; [exact H|]. intros c Hc Hc'. congruence.
Qed.

Lemma pieces_keep (P : N -> Prop) c main hs :
  Forall P (main ++ concat (map (cons c) hs)) ->
  Forall P main /\ Forall (Forall P) hs.
Proof.
  intros [Hm Hh]%Forall_app. split; [done|].
  induction hs as [|h hs IH]; [constructor|].
  cbn [map concat] in Hh. apply Forall_app in Hh as [Hh1 Hh2].
  inversion Hh1; subst. constructor; [done | now apply IH].
Qed.

Lemma hashtag_fix_keep (P : N -> Prop) T :
  P 10 -> P 32 -> P 35 -> Forall P T -> Forall P (hashtag_fix T).
Proof.
  intros P10 P32 P35 HT. unfold hashtag_fix. destruct (contains hash T).
  2:{ now apply strip_keep. }
  destruct (split hash T) as [main hs] eqn:Es. apply split_char in Es.
  rewrite Es in HT. apply pieces_keep in HT as [Hm Hh].
  apply strip_keep. apply Forall_app. split; [now apply strip_keep|].
  apply Forall_app. split; [now repeat constructor|].
  apply Forall_app. split; [now repeat constructor|].
  apply join_keep; [now repeat constructor|].
  apply Forall_fmap. eapply Forall_impl; [exact Hh|].
  intros h Hh'. now apply strip_keep.
Qed.

Lemma laid_out_join R : Forall tidy R -> laid_out (join nl R).
Proof.
  intros HR. split; [|split].
  - destruct R as [|l R]; [done|]. now apply join_solid.
  - apply chained_join.
    + apply feed_apart_before.
    + intros y Hy. apply feed_apart_after; auto.
    + eapply Forall_impl; [exact HR|]. intros l (Hne & Ht & Hu).
      split; [now apply chained_unbroken | done].
  - apply join_keep; [now repeat constructor|].
    eapply Forall_impl; [exact HR|]. intros l (_ & _ & Hu).
    now apply only_feeds_unbroken.
Qed.

Lemma hashtag_fix_trimmed T : trimmed (hashtag_fix T).
Proof.
  unfold hashtag_fix. destruct (contains hash T); [|apply strip_trimmed].
  destruct (split hash T). apply strip_trimmed.
Qed.

Lemma laid_out_hashtag_fix T : laid_out T -> laid_out (hashtag_fix T).
Proof.
  intros (_ & Hc & Hf). split; [apply hashtag_fix_trimmed|].
  split; [now apply chained_feeds_hashtag_fix|].
  apply hashtag_fix_keep; done.
Qed.

Lemma splitlines_other c s :
  is_linebreak c = false ->
  splitlines (c :: s)
  = match splitlines s with [] => [[c]] | l :: ls => (c :: l) :: ls end.
Proof. intros H. simpl. now rewrite H. Qed.

(** The lines of a text without white space around its line feeds: after
    the first, all are non-empty and trimmed. *)
Lemma lines_of_chained s :
  chained feed_apart s = true -> only_feeds s -> ltrimmed (rev s) -> s <> [] ->
  exists l L,
    splitlines s = l :: L /\ s = l ++ flat L /\ Forall tidy L
    /\ unbroken l /\ ltrimmed (rev l) /\ (l = [] -> exists t, s = 10 :: t).
Proof.
  induction s as [|c s IH]; intros Hc Hf Hr Hne; [done|].
  unfold only_feeds in Hf. inversion Hf as [|? ? Hfc Hfs]; subst.
  assert (chained feed_apart s = true) as Hcs
    by (change (c :: s) with ([c] ++ s) in Hc; now apply chained_app_inv in Hc).
  assert (s <> [] -> ltrimmed (rev s)) as Hrs.
  { intros Hs. simpl in Hr. apply (ltrimmed_prefix _ [c]); [done|].
    intros H. apply (f_equal (@rev N)) in H. now rewrite rev_involutive in H. }
  destruct (is_linebreak c) eqn:Ec.
  - rewrite (Hfc eq_refl) in *. clear Hfc Ec.
    destruct s as [|x s']; [done|].
    destruct (IH Hcs Hfs (Hrs ltac:(done)) ltac:(done))
      as (l & L & Hl & Hs & HL & Hu & Hrl & Hl0).
    assert (is_space x = false) as Hx.
    { change (chained feed_apart (10 :: x :: s'))
        with (feed_apart 10 x && chained feed_apart (x :: s')) in Hc.
      apply andb_prop in Hc as [Hc _]. unfold feed_apart in Hc. simpl in Hc.
      apply andb_prop in Hc as [Hc _]. now destruct (is_space x). }
    exists [], (l :: L). change (splitlines (10 :: x :: s'))
      with ([] :: splitlines (x :: s')). rewrite Hl.
    split; [done|]. split; [now rewrite Hs|].
    split; [|split; [constructor | split; [done | intros _; eauto]]].
    constructor; [|done].
    destruct l as [|y l].
    { destruct (Hl0 eq_refl) as [t [= -> _]]. done. }
    split; [done|]. split; [|done]. split; [|done].
    simpl in Hs. injection Hs as <- _. now apply lstrip_head.
  - destruct s as [|x s'].
    { exists [c], []. simpl. rewrite Ec. split; [done|]. split; [done|].
      split; [constructor|]. split; [now repeat constructor|]. split; done. }
    destruct (IH Hcs Hfs (Hrs ltac:(done)) ltac:(done))
      as (l & L & Hl & Hs & HL & Hu & Hrl & Hl0).
    exists (c :: l), L. rewrite (splitlines_other _ _ Ec), Hl.
    split; [done|]. split; [now rewrite Hs|]. split; [done|].
    split; [now constructor|]. split; [|done].
    destruct l as [|y l].
    + destruct (Hl0 eq_refl) as [t [= -> _]].
      change (chained feed_apart (c :: 10 :: s'))
        with (feed_apart c 10 && chained feed_apart (10 :: s')) in Hc.
      apply andb_prop in Hc as [Hc _]. unfold feed_apart in Hc.
      apply andb_prop in Hc as [_ Hc]. simpl in Hc.
      apply ltrimmed_cases. right. exists c, []. split; [done|].
      now destruct (is_space c).
    + cbn [rev]. cbn [rev] in Hrl. apply ltrimmed_app; [|done].
      now destruct (rev l).
Qed.

Lemma laid_out_lines s :
  laid_out s -> Forall tidy (splitlines s) /\ join nl (splitlines s) = s.
Proof.
  intros ([Hl Hr] & Hc & Hf). destruct s as [|c s]; [done|].
  destruct (lines_of_chained (c :: s) Hc Hf Hr ltac:(done))
    as (l & L & -> & Hs & HL & Hu & Hrl & Hl0).
  rewrite join_flat. split; [|done].
  constructor; [|done].
  apply ltrimmed_cases in Hl as [?|(c' & t & [= <- <-] & Hc')]; [done|].
  destruct l as [|y l].
  { destruct (Hl0 eq_refl) as [t' [= -> _]]. done. }
  split; [done|]. split; [|done]. split; [|done].
  simpl in Hs. injection Hs as <- _. now apply lstrip_head.
Qed.

Lemma clean_tidy_lines ls :
  Forall tidy ls ->
  map strip (filter (fun line => truthy (strip line) = true) ls) = ls.
Proof.
  induction 1 as [|l ls (Hne & Ht & _) Hls IH]; [done|].
  rewrite filter_cons, (trimmed_strip_id l Ht).
  destruct (decide (truthy l = true)) as [_|Hn].
  - cbn [map]. rewrite (trimmed_strip_id l Ht). now f_equal.
  - now apply truthy_nonempty in Hne.
Qed.

Lemma filter_all {A} (P : A -> Prop) `{!forall x, Decision (P x)} l :
  Forall P l -> filter P l = l.
Proof.
  induction 1 as [|x l Hx Hl IH]; [done|].
  rewrite filter_cons. destruct (decide (P x)); [now f_equal | done].
Qed.

(** *** The hashtag step, written out *)

Lemma contains_char_true c a b : contains [c] (a ++ c :: b) = true.
Proof.
  induction a as [|x a IH]; cbn [app contains startswith].
  - now rewrite N.eqb_refl.
  - rewrite IH. apply orb_true_r.
Qed.

Lemma contains_char_none c s :
  contains [c] s = false -> Forall (fun x => x <> c) s.
Proof.
  induction s as [|x s IH]; [constructor|].
  cbn [contains startswith]. intros [H1 H2]%orb_false_elim.
  constructor; [|now apply IH].
  intros ->. now rewrite N.eqb_refl in H1.
Qed.

Lemma split_char_tail c s : forall p ps,
  split [c] s = (p, ps) -> Forall (Forall (fun x => x <> c)) ps.
Proof.
  unfold split. induction s as [|x s IH]; intros p ps; simpl.
  - intros [= <- <-]. constructor.
  - destruct (split_from [c] 0 s) as [p' ps'] eqn:E.
    destruct (N.eqb_spec c x) as [->|Hne]; simpl.
    + intros [= <- <-]. constructor; [|now apply (IH p' ps')].
      now apply (split_char_head x s p' ps').
    + intros [= <- <-]. now apply (IH p' ps').
Qed.

Lemma split_unique c ps : forall p,
  Forall (fun x => x <> c) p -> Forall (Forall (fun x => x <> c)) ps ->
  split [c] (p ++ concat (map (cons c) ps)) = (p, ps).
Proof.
  unfold split. induction ps as [|q ps IHps]; intros p Hp Hps.
  - simpl. rewrite app_nil_r.
    induction Hp as [|x p Hx Hp IH]; [done|].
    simpl. rewrite IH. destruct (N.eqb_spec c x); [congruence | done].
  - inversion Hps as [|? ? Hq Hps']; subst.
    induction Hp as [|x p Hx Hp IH].
    + cbn [map concat app split_from startswith length pred].
      rewrite N.eqb_refl. cbn [andb]. now rewrite (IHps q Hq Hps').
    + cbn [app split_from startswith].
      destruct (N.eqb_spec c x); [congruence|]. cbn [andb]. now rewrite IH.
Qed.

Lemma hashtags_pieces q qs :
  35 :: join (lit " #") (q :: qs)
  = concat (map (cons 35) (spaced_pieces (q :: qs))).
Proof.
  revert q. induction qs as [|q' qs IH]; intros q.
  - simpl. now rewrite app_nil_r.
  - rewrite join_cons. change (spaced_pieces (q :: q' :: qs))
      with ((q ++ [32]) :: spaced_pieces (q' :: qs)).
    cbn [map concat]. rewrite <- IH. change (lit " #") with [32; 35].
    simpl. now rewrite <- app_assoc.
Qed.

Lemma strip_gap q c : trimmed q -> is_space c = true -> strip (q ++ [c]) = q.
Proof.
  intros [Hl Hr] Hc. destruct q as [|x q].
  - unfold strip. simpl. now rewrite Hc.
  - unfold strip. rewrite (ltrimmed_app (x :: q) [c]) by done.
    unfold rstrip. rewrite rev_app_distr. cbn [rev app lstrip]. rewrite Hc.
    cbn [rev] in Hr. rewrite Hr. now rewrite <- (rev_involutive (x :: q)).
Qed.

Lemma strip_spaced_pieces qs :
  Forall trimmed qs -> map strip (spaced_pieces qs) = qs.
Proof.
  induction 1 as [|q qs Hq Hqs IH]; [done|].
  destruct qs as [|q' qs'].
  - simpl. now rewrite trimmed_strip_id.
  - change (spaced_pieces (q :: q' :: qs'))
      with ((q ++ [32]) :: spaced_pieces (q' :: qs')).
    cbn [map]. rewrite IH, strip_gap; done.
Qed.

Lemma spaced_pieces_keep (P : N -> Prop) qs :
  P 32 -> Forall (Forall P) qs -> Forall (Forall P) (spaced_pieces qs).
Proof.
  intros P32. induction 1 as [|q qs Hq Hqs IH]; [constructor|].
  destruct qs as [|q' qs']; [now repeat constructor|].
  change (spaced_pieces (q :: q' :: qs'))
    with ((q ++ [32]) :: spaced_pieces (q' :: qs')).
  constructor; [|done]. apply Forall_app. split; [done | now repeat constructor].
Qed.

Lemma hashtags_rtrimmed qs :
  Forall trimmed qs -> ltrimmed (rev (35 :: join (lit " #") qs)).
Proof.
  induction 1 as [|q qs [_ Hq] Hqs IH]; [done|].
  destruct qs as [|q' qs'].
  - cbn [join rev]. destruct (rev q) eqn:E; [reflexivity|].
    apply ltrimmed_app; done.
  - rewrite join_cons. change (lit " #") with [32; 35] in *.
    replace (35 :: q ++ [32; 35] ++ join [32; 35] (q' :: qs'))
      with ((35 :: q ++ [32]) ++ 35 :: join [32; 35] (q' :: qs'))
      by (simpl; now rewrite <- app_assoc).
    rewrite rev_app_distr. apply ltrimmed_app; [|done].
    cbn [rev]. now destruct (rev (join [32; 35] (q' :: qs'))).
Qed.

(** With a [#] in the text, the hashtag step gives the text before the
    first [#], trimmed and followed by a line feed unless it is empty, and
    then the pieces after each [#], trimmed and put on one line. *)
Lemma hashtag_fix_hashed T main h hs :
  split hash T = (main, h :: hs) ->
  hashtag_fix T
  = (match strip main with [] => [] | _ :: _ => strip main ++ [10] end)
      ++ 35 :: join (lit " #") (map strip (h :: hs)).
Proof.
  intros Es.
  assert (contains hash T = true) as Ec.
  { rewrite (split_char _ _ _ _ Es). cbn [map concat app].
    apply contains_char_true. }
  unfold hashtag_fix. rewrite Ec, Es.
  set (J := join (lit " #") (map strip (h :: hs))).
  assert (ltrimmed (rev (35 :: J))) as HJ.
  { apply hashtags_rtrimmed, Forall_fmap, Forall_forall.
    intros ? _. apply strip_trimmed. }
  change (strip main ++ nl ++ hash ++ J) with (strip main ++ 10 :: 35 :: J).
  destruct (strip main) as [|c m] eqn:Em.
  - cbn [app]. unfold strip. change (lstrip (10 :: 35 :: J)) with (35 :: J).
    unfold rstrip. rewrite HJ.
    apply rev_involutive.
  - rewrite <- app_assoc. change ([10] ++ 35 :: J) with (10 :: 35 :: J).
    apply trimmed_strip_id. pose proof (strip_trimmed main) as [Hl _].
    rewrite Em in Hl. split.
    + now apply ltrimmed_app.
    + replace ((c :: m) ++ 10 :: 35 :: J) with (((c :: m) ++ [10]) ++ 35 :: J)
        by now rewrite <- app_assoc.
      rewrite rev_app_distr. apply ltrimmed_app; [|done].
      cbn [rev]. now destruct (rev J).
Qed.

(** The hashtag step changes nothing when it is applied again. *)
Lemma hashtag_fix_idem T : hashtag_fix (hashtag_fix T) = hashtag_fix T.
Proof.
  destruct (contains hash T) eqn:Ec.
  2:{ assert (hashtag_fix T = strip T) as ->
        by (unfold hashtag_fix; now rewrite Ec).
      unfold hashtag_fix, hash in *. rewrite contains_char_false.
      - apply trimmed_strip_id, strip_trimmed.
      - apply strip_keep. now apply contains_char_none. }
  destruct (split hash T) as [main hs] eqn:Es.
  pose proof (split_char_head _ _ _ _ Es) as Hmain.
  pose proof (split_char_tail _ _ _ _ Es) as Hhs.
  destruct hs as [|h hs].
  { apply split_char in Es. simpl in Es. rewrite app_nil_r in Es. subst T.
    unfold hash in Ec. now rewrite contains_char_false in Ec. }
  rewrite (hashtag_fix_hashed T main h hs Es).
  set (qs := map strip (h :: hs)).
  set (F := match strip main with [] => [] | _ :: _ => strip main ++ [10] end).
  assert (Forall trimmed qs) as Hqs
    by (apply Forall_fmap, Forall_forall; intros ? _; apply strip_trimmed).
  assert (strip F = strip main) as HF.
  { subst F. destruct (strip main) as [|c m] eqn:Em; [done|].
    rewrite <- Em. apply strip_gap; [apply strip_trimmed | done]. }
  assert (exists p ps, spaced_pieces qs = p :: ps) as (p & ps & Hp).
  { subst qs. cbn [map]. destruct (map strip hs); simpl; eauto. }
  assert (split hash (F ++ 35 :: join (lit " #") qs) = (F, p :: ps)) as Es'.
  { subst qs. cbn [map] in *. rewrite hashtags_pieces, <- Hp.
    apply split_unique.
    - subst F. destruct (strip main) eqn:Em; [constructor|]. rewrite <- Em.
      apply Forall_app. split; [now apply strip_keep | now repeat constructor].
    - apply spaced_pieces_keep; [done|].
      change (strip h :: map strip hs) with (map strip (h :: hs)).
      apply Forall_fmap. eapply Forall_impl; [exact Hhs|].
      intros x Hx. now apply strip_keep. }
  rewrite (hashtag_fix_hashed _ F p ps Es'), <- Hp, HF.
  now rewrite strip_spaced_pieces.
Qed.

(** *** The output of the formatter *)

Lemma format_post_laid_out U content : laid_out (format_post U content).
Proof.
  rewrite format_post_retained. apply laid_out_hashtag_fix, laid_out_join.
  eapply Forall_impl; [apply retained_lines_tidy|]. now intros l [? _].
Qed.

(** X2: every line of the output is non-empty and trimmed, and the output is
    its lines joined by single line feeds: there is no blank line, no
    white space at the end of a line, and no other line boundary. *)
Theorem format_post_lines_tidy (U : UnicodeCase) (content : str) :
  Forall tidy (splitlines (format_post U content))
  /\ join nl (splitlines (format_post U content)) = format_post U content.
Proof.
  pose proof (format_post_laid_out U content) as H.
  now apply laid_out_lines in H.
Qed.

Lemma format_post_lines_kept U content :
  Forall keeps (splitlines (format_post U content)).
Proof.
  rewrite format_post_retained.
  pose proof (retained_lines_tidy content) as H.
  destruct (join_kept (retained_lines content)) as (H1 & H2 & H3).
  - eapply Forall_impl; [exact H|]. now intros l [? _].
  - eapply Forall_impl; [exact H|]. now intros l [_ ?].
  - destruct (hashtag_fix_keeps _ H1 H2 H3) as [K1 K2].
    now apply splitlines_keeps.
Qed.

(** The formatter reads its own output as it is: the retained lines of the
    output are its lines. *)
Lemma retained_lines_output U content :
  retained_lines (format_post U content) = splitlines (format_post U content).
Proof.
  unfold retained_lines.
  rewrite replace_absent by apply starless_chained, format_post_starless.
  unfold clean_lines.
  rewrite clean_tidy_lines by apply laid_out_lines, format_post_laid_out.
  apply filter_all, format_post_lines_kept.
Qed.

(** X1: formatting a formatted text changes nothing. *)
Theorem format_post_idempotent (U : UnicodeCase) (content : str) :
  format_post U (format_post U content) = format_post U content.
Proof.
  rewrite (format_post_retained U (format_post U content)).
  rewrite retained_lines_output.
  rewrite (proj2 (laid_out_lines _ (format_post_laid_out U content))).
  rewrite format_post_retained. apply hashtag_fix_idem.
Qed.

(** *** When the output is empty *)

Lemma retained_none lines :
  filter keeps
    (map strip (filter (fun line => truthy (strip line) = true) lines)) = []
  <-> Forall dropped lines.
Proof.
  induction lines as [|l ls IH]; [done|].
  rewrite filter_cons. unfold dropped in *.
  destruct (decide (truthy (strip l) = true)) as [Ht|Ht].
  - cbn [map]. rewrite filter_cons. unfold keeps at 1.
    destruct (decide (startswith dashes (strip l) = false)) as [Hk|Hk].
    + split; [done|]. intros H. inversion H as [|? ? [Hl|Hl] _]; subst.
      * rewrite Hl in Ht. done.
      * congruence.
    + rewrite IH. split.
      * intros H. constructor; [|done]. right.
        now destruct (startswith dashes (strip l)).
      * intros H. now inversion H.
  - rewrite IH. split.
    + intros H. constructor; [|done]. left.
      destruct (strip l); [done|]. now destruct Ht.
    + intros H. now inversion H.
Qed.

Lemma hashtag_fix_empty T : trimmed T -> hashtag_fix T = [] -> T = [].
Proof.
  intros HT. destruct (contains hash T) eqn:Ec.
  - destruct (split hash T) as [main hs] eqn:Es.
    destruct hs as [|h hs].
    { pose proof (split_char_head _ _ _ _ Es) as Hm.
      apply split_char in Es. simpl in Es. rewrite app_nil_r in Es. subst T.
      unfold hash in Ec. now rewrite contains_char_false in Ec. }
    rewrite (hashtag_fix_hashed T main h hs Es).
    intros H. now apply app_eq_nil in H as [_ H].
  - unfold hashtag_fix. rewrite Ec. now rewrite trimmed_strip_id.
Qed.

(** X4: the output is empty exactly when every line of the input, once the
    pairs of asterisks are removed, is blank or starts with three dashes. *)
Theorem format_post_empty (U : UnicodeCase) (content : str) :
  format_post U content = []
  <-> Forall dropped (splitlines (replace stars [] content)).
Proof.
  rewrite <- retained_none. fold (clean_lines (replace stars [] content)).
  fold (retained_lines content). rewrite format_post_retained. split.
  - intros H. apply hashtag_fix_empty in H.
    + destruct (retained_lines content) as [|l R] eqn:E; [done|].
      assert (solid (join nl (l :: R))) as [Hne _]; [|done].
      apply join_solid; [done|]. rewrite <- E.
      eapply Forall_impl; [apply retained_lines_tidy|]. now intros ? [? _].
    + apply laid_out_join.
      eapply Forall_impl; [apply retained_lines_tidy|]. now intros ? [? _].
  - now intros ->.
Qed.

(** *** Lines that start with a hash sign *)

Lemma splitlines_nil s : splitlines s = [] -> s = [].
Proof.
  destruct s as [|c s]; [done|]. simpl. destruct (is_linebreak c).
  - destruct (c =? 13); [|done]. destruct s as [|c' s']; [done|].
    destruct c' as [|p]; [done|]. do 4 (destruct p as [p|p|]; try done).
  - now destruct (splitlines s).
Qed.

Lemma splitlines_feed s : splitlines (10 :: s) = [] :: splitlines s.
Proof. done. Qed.

Lemma splitlines_app_feed M rest :
  only_feeds M -> M <> [] -> ltrimmed (rev M) ->
  splitlines (M ++ 10 :: rest) = splitlines M ++ splitlines rest.
Proof.
  induction 1 as [|c M Hc HM IH]; intros Hne Hr; [done|].
  assert (M <> [] -> ltrimmed (rev M)) as HrM.
  { intros Hs. simpl in Hr. apply (ltrimmed_prefix _ [c]); [done|].
    intros H. apply (f_equal (@rev N)) in H. now rewrite rev_involutive in H. }
  destruct (is_linebreak c) eqn:Ec.
  - rewrite (Hc eq_refl) in *. destruct M as [|x M]; [done|].
    cbn [app]. rewrite !splitlines_feed.
    change (x :: M ++ 10 :: rest) with ((x :: M) ++ 10 :: rest).
    rewrite IH by auto. done.
  - cbn [app]. rewrite !(splitlines_other _ _ Ec).
    destruct M as [|x M]; [done|].
    rewrite IH by auto.
    destruct (splitlines (x :: M)) as [|l ls] eqn:E; [|done].
    now apply splitlines_nil in E.
Qed.

Lemma hash_free_lines s :
  Forall (fun x => x <> 35) s -> hash_lines s = [].
Proof.
  intros H. apply (splitlines_keep (fun x => x <> 35)) in H.
  unfold hash_lines. induction H as [|l ls Hl Hls IH]; [done|].
  rewrite filter_cons, IH.
  destruct (decide (startswith hash l = true)) as [E|_]; [|done].
  destruct l as [|x l]; [done|]. inversion Hl; subst.
  unfold hash in E. cbn [startswith] in E.
  apply andb_prop in E as [E%N.eqb_eq _]. congruence.
Qed.

Lemma chained_hash_free s : forall x,
  Forall (fun y => y <> 35) s -> chained hash_after_space (x :: s) = true.
Proof.
  induction s as [|b s IH]; intros x H; [done|].
  inversion H; subst. apply chained_cons; [|now apply IH].
  intros b' t [= <- <-]. unfold hash_after_space.
  now destruct (N.eqb_spec b 35).
Qed.

Lemma chained_hash_join qs :
  Forall (Forall (fun y => y <> 35)) qs ->
  chained hash_after_space (35 :: join (lit " #") qs) = true.
Proof.
  induction 1 as [|q qs Hq Hqs IH]; [done|].
  destruct qs as [|q' qs']; [now apply chained_hash_free|].
  rewrite join_cons. change (lit " #") with [32; 35] in *.
  change (35 :: q ++ [32; 35] ++ join [32; 35] (q' :: qs'))
    with ((35 :: q) ++ 32 :: 35 :: join [32; 35] (q' :: qs')).
  rewrite chained_glue.
  change (chained hash_after_space (32 :: 35 :: join [32; 35] (q' :: qs')))
    with (hash_after_space 32 35
          && chained hash_after_space (35 :: join [32; 35] (q' :: qs'))).
  rewrite IH. change (hash_after_space 32 35 && true) with true.
  rewrite andb_true_r. change ((35 :: q) ++ [32]) with (35 :: (q ++ [32])).
  apply chained_hash_free. apply Forall_app. split; [done|].
  now repeat constructor.
Qed.

(** Where every [#] comes after a space, no line after the first starts
    with a [#]. *)
Lemma hash_lines_later s :
  only_feeds s -> chained hash_after_space s = true ->
  Forall (fun l => startswith hash l = false) (tail (splitlines s)).
Proof.
  induction 1 as [|c s Hc Hs IH]; intros H; [constructor|].
  assert (chained hash_after_space s = true) as Hcs
    by (change (c :: s) with ([c] ++ s) in H; now apply chained_app_inv in H).
  destruct (is_linebreak c) eqn:Ec.
  - rewrite (Hc eq_refl) in *. rewrite splitlines_feed. cbn [tail].
    pose proof (IH Hcs) as Hrest.
    destruct (splitlines s) as [|l ls] eqn:E; [constructor|].
    constructor; [|exact Hrest].
    destruct (startswith hash l) eqn:El; [|done].
    pose proof (splitlines_first _ _ _ _ E El) as Hh.
    destruct s as [|x s']; [done|]. unfold hash in Hh. cbn [startswith] in Hh.
    apply andb_prop in Hh as [Hx%N.eqb_eq _]. subst x. done.
  - rewrite (splitlines_other _ _ Ec). pose proof (IH Hcs) as Hrest.
    destruct (splitlines s) as [|l ls]; [constructor | exact Hrest].
Qed.

Lemma hash_lines_first s :
  only_feeds s -> chained hash_after_space s = true ->
  (length (hash_lines s) <= 1)%nat.
Proof.
  intros Hf Hc. pose proof (hash_lines_later s Hf Hc) as H.
  unfold hash_lines. destruct (splitlines s) as [|l ls]; [simpl; lia|].
  cbn [tail] in H. rewrite filter_cons.
  assert (filter (fun l => startswith hash l = true) ls = []) as ->.
  { induction H as [|x xs Hx Hxs IH]; [done|].
    rewrite filter_cons, IH. destruct (decide (startswith hash x = true)); congruence. }
  destruct (decide (startswith hash l = true)); simpl; lia.
Qed.

(** X5: at most one line of the output starts with a [#]. *)
Theorem format_post_one_hash_line (U : UnicodeCase) (content : str) :
  (length (hash_lines (format_post U content)) <= 1)%nat.
Proof.
  pose proof (format_post_laid_out U content) as (_ & _ & Hf).
  rewrite format_post_retained in *.
  set (T := join nl (retained_lines content)) in *.
  destruct (contains hash T) eqn:Ec.
  2:{ rewrite hash_free_lines; [simpl; lia|]. unfold hashtag_fix. rewrite Ec.
      apply strip_keep. now apply contains_char_none. }
  destruct (split hash T) as [main hs] eqn:Es.
  pose proof (split_char_head _ _ _ _ Es) as Hmain.
  pose proof (split_char_tail _ _ _ _ Es) as Hhs.
  destruct hs as [|h hs].
  { apply split_char in Es. simpl in Es. rewrite app_nil_r in Es.
    rewrite Es in Ec. unfold hash in Ec. now rewrite contains_char_false in Ec. }
  rewrite (hashtag_fix_hashed T main h hs Es) in *.
  set (J := join (lit " #") (map strip (h :: hs))) in *.
  assert (chained hash_after_space (35 :: J) = true) as HJ.
  { apply chained_hash_join, Forall_fmap. eapply Forall_impl; [exact Hhs|].
    intros x Hx. now apply strip_keep. }
  pose proof (strip_trimmed main) as [_ Hr].
  pose proof (strip_keep (fun x => x <> 35) main Hmain) as Hm.
  destruct (strip main) as [|c m].
  - cbn [app] in *. now apply hash_lines_first.
  - unfold only_feeds in Hf. apply Forall_app in Hf as [Hf1 Hf2].
    apply Forall_app in Hf1 as [Hf1 _].
    rewrite <- app_assoc. change ([10] ++ 35 :: J) with (10 :: 35 :: J).
    unfold hash_lines. rewrite splitlines_app_feed by done.
    rewrite filter_app, length_app.
    fold (hash_lines (c :: m)). fold (hash_lines (35 :: J)).
    rewrite (hash_free_lines (c :: m) Hm).
    now apply hash_lines_first.
Qed.

End LayoutFacts.

(** ** Facts about the sections *)

Module SectionFacts.
Import PyStr Formatter Properties Scenarios Layout FormatterFacts.

Section WithCase.
Context (U : UnicodeCase).

(** *** The sections hold the retained lines *)

(** X6: no section is empty, and the lines of the sections, in order, are the
    retained lines of the input: every retained line is in exactly one
    section. *)
Theorem sections_partition (content : str) :
  let secs := sections U (clean_lines (replace stars [] content)) in
  Forall (fun sec => sec <> []) secs
  /\ concat (map splitlines secs) = retained_lines content.
Proof.
  cbn zeta.
  destruct (sections_groups U (clean_lines (replace stars [] content))
              (clean_lines_tidy _)) as (groups & -> & Hg & Hc).
  unfold retained_lines. rewrite <- Hc. clear Hc. split.
  - apply Forall_fmap. eapply Forall_impl; [exact Hg|].
    intros g [Hne Ht]. now apply join_solid.
  - induction Hg as [|g gs [Hne Ht] Hgs IH]; [done|].
    cbn [map concat]. rewrite IH. f_equal.
    apply splitlines_join. eapply Forall_impl; [exact Ht|].
    now intros l (? & _ & ?).
Qed.

(** *** Header and hashtag lines are sections of their own *)

Lemma flush_mono x st : x ∈ fst st -> x ∈ fst (flush st).
Proof.
  destruct st as [f cur]. destruct cur; [done|]. simpl. set_solver.
Qed.

Lemma classify_step_mono x i line st :
  x ∈ fst st -> x ∈ fst (classify_step U i line st).
Proof.
  intros H. unfold classify_step.
  destruct (startswith dashes line); [done|].
  destruct (is_header U i line).
  { apply (flush_mono x) in H. destruct (flush st). simpl in *. set_solver. }
  destruct (is_bullet line).
  { destruct (last (snd st)) as [prev|]; [|now destruct st].
    destruct (negb (is_bullet prev)); [|now destruct st].
    apply (flush_mono x) in H. now destruct (flush st). }
  destruct (startswith hash line); [|done].
  apply (flush_mono x) in H. destruct (flush st). simpl in *. set_solver.
Qed.

Lemma classify_loop_mono x lines : forall i st,
  x ∈ fst st -> x ∈ fst (classify_loop U i lines st).
Proof.
  induction lines as [|l ls IH]; intros i st H; [done|].
  apply IH. now apply classify_step_mono.
Qed.

Lemma classify_step_own i line st :
  keeps line -> classify U i line = Header \/ classify U i line = Hashtag ->
  line ∈ fst (classify_step U i line st).
Proof.
  unfold keeps, classify, classify_step. intros -> H.
  destruct (is_header U i line).
  { clear H. destruct (flush st). simpl. set_solver. }
  destruct (is_bullet line); [destruct H as [H1|H2]; discriminate|].
  destruct (startswith hash line); [|destruct H as [H1|H2]; discriminate].
  clear H. destruct (flush st). simpl. set_solver.
Qed.

Lemma classify_loop_own lines : forall i st k line,
  lines !! k = Some line -> keeps line ->
  classify U (i + k) line = Header \/ classify U (i + k) line = Hashtag ->
  line ∈ fst (classify_loop U i lines st).
Proof.
  induction lines as [|l ls IH]; intros i st k line Hk Hkeep Hc; [done|].
  destruct k as [|k].
  - injection Hk as ->. rewrite Nat.add_0_r in Hc.
    cbn [classify_loop]. apply classify_loop_mono. now apply classify_step_own.
  - cbn [classify_loop]. apply (IH (S i) _ k); [done | done|].
    now rewrite Nat.add_succ_r in Hc.
Qed.

(** X7: a line that the loop takes for a header, or for a hashtag line, is a
    section by itself. *)
Theorem sections_own_line (lines : list str) (i : nat) (line : str) :
  lines !! i = Some line -> keeps line ->
  classify U i line = Header \/ classify U i line = Hashtag ->
  line ∈ sections U lines.
Proof.
  intros Hi Hk Hc. unfold sections. apply flush_mono.
  now apply (classify_loop_own lines 0 _ i).
Qed.

(** *** Bullets and text *)

Lemma classify_loop_app a : forall b i st,
  classify_loop U i (a ++ b) st
  = classify_loop U (i + length a) b (classify_loop U i a st).
Proof.
  induction a as [|l a IH]; intros b i st.
  - simpl. now rewrite Nat.add_0_r.
  - cbn [app classify_loop length]. rewrite IH. f_equal. lia.
Qed.

Lemma unmarked_from_app a : forall b i,
  unmarked_from U i (a ++ b)
  = unmarked_from U i a && unmarked_from U (i + length a) b.
Proof.
  induction a as [|l a IH]; intros b i.
  - simpl. now rewrite Nat.add_0_r.
  - cbn [app unmarked_from length]. rewrite IH, Nat.add_succ_r.
    now rewrite andb_assoc.
Qed.

(** Bullets after bullets, or at the start, stay in the open section. *)
Lemma classify_loop_bullets bs : forall i f cur,
  unmarked_from U i bs = true ->
  Forall (fun l => is_bullet l = true) bs ->
  Forall (fun l => is_bullet l = true) cur ->
  classify_loop U i bs (f, cur) = (f, cur ++ bs).
Proof.
  induction bs as [|b bs IH]; intros i f cur Hu Hb Hcur.
  - simpl. now rewrite app_nil_r.
  - cbn [unmarked_from] in Hu.
    apply andb_prop in Hu as [[Hd%negb_true_iff Hh%negb_true_iff]%andb_prop Hu].
    inversion Hb as [|? ? Hb1 Hb2]; subst.
    cbn [classify_loop]. unfold classify_step. rewrite Hd, Hh, Hb1.
    cbn [snd].
    destruct (last cur) as [prev|] eqn:El.
    + apply last_Some in El as [cur' ->].
      pose proof Hcur as Hcur'.
      apply Forall_app in Hcur' as [_ Hp]. inversion Hp as [|? ? Hprev _]; subst.
      rewrite Hprev. cbn [negb].
      rewrite IH; [now rewrite <- app_assoc | done | done |].
      apply Forall_app. split; [done | now repeat constructor].
    + apply last_None in El as ->.
      rewrite IH; [done | done | done | now repeat constructor].
Qed.

(** Text that is neither bullet nor hashtag line stays in the open
    section, whatever that holds. *)
Lemma classify_loop_plain ps : forall i f cur,
  unmarked_from U i ps = true ->
  Forall (fun l => is_plain l = true) ps ->
  classify_loop U i ps (f, cur) = (f, cur ++ ps).
Proof.
  induction ps as [|p ps IH]; intros i f cur Hu Hp.
  - simpl. now rewrite app_nil_r.
  - cbn [unmarked_from] in Hu.
    apply andb_prop in Hu as [[Hd%negb_true_iff Hh%negb_true_iff]%andb_prop Hu].
    inversion Hp as [|? ? Hp1 Hp2]; subst. unfold is_plain in Hp1.
    apply andb_prop in Hp1 as [Hb%negb_true_iff Hs%negb_true_iff].
    cbn [classify_loop]. unfold classify_step. rewrite Hd, Hh, Hb, Hs.
    cbn [fst snd]. rewrite IH by done. now rewrite <- app_assoc.
Qed.

(** X8: text after bullets stays in the section of the bullets: with no header
    and no hashtag line, bullets followed by text are one section. *)
Theorem sections_bullets_then_text (bs ps : list str) :
  unmarked_from U 0 (bs ++ ps) = true ->
  Forall (fun l => is_bullet l = true) bs ->
  Forall (fun l => is_plain l = true) ps ->
  bs ++ ps <> [] ->
  sections U (bs ++ ps) = [join nl (bs ++ ps)].
Proof.
  intros Hu Hb Hp Hne. unfold sections.
  rewrite unmarked_from_app in Hu. apply andb_prop in Hu as [Hu1 Hu2].
  rewrite classify_loop_app, classify_loop_bullets by done.
  rewrite classify_loop_plain by done. cbn [app].
  unfold flush. now destruct (bs ++ ps).
Qed.

(** X9: a bullet after text closes the section of the text: text followed by
    bullets are two sections. *)
Theorem sections_text_then_bullets (ps bs : list str) :
  unmarked_from U 0 (ps ++ bs) = true ->
  Forall (fun l => is_plain l = true) ps ->
  Forall (fun l => is_bullet l = true) bs ->
  ps <> [] -> bs <> [] ->
  sections U (ps ++ bs) = [join nl ps; join nl bs].
Proof.
  intros Hu Hp Hb Hps Hbs. unfold sections.
  rewrite unmarked_from_app in Hu. apply andb_prop in Hu as [Hu1 Hu2].
  rewrite classify_loop_app, classify_loop_plain by done. cbn [app].
  destruct bs as [|b bs]; [done|].
  inversion Hb as [|? ? Hb1 Hb2]; subst.
  cbn [unmarked_from] in Hu2.
  apply andb_prop in Hu2 as [[Hd%negb_true_iff Hh%negb_true_iff]%andb_prop Hu2].
  cbn [classify_loop]. unfold classify_step. rewrite Hd, Hh, Hb1.
  cbn [snd].
  destruct (exists_last Hps) as (ps' & prev & ->).
  rewrite last_snoc.
  apply Forall_app in Hp as [_ Hprev]. inversion Hprev as [|? ? Hprev' _]; subst.
  unfold is_plain in Hprev'. apply andb_prop in Hprev' as [-> _].
  assert (flush ([], ps' ++ [prev]) = ([join nl (ps' ++ [prev])], [])) as ->
    by now destruct ps'.
  cbn [app].
  rewrite (classify_loop_bullets bs _ _ [b]); [|done|done|now repeat constructor].
  reflexivity.
Qed.

End WithCase.

Lemma sections_own_line_witness :
  [lit "Intro"; lit "KEY POINTS"; lit "#ai"] !! 1%nat = Some (lit "KEY POINTS")
  /\ lit "KEY POINTS"
     ∈ sections ascii_case [lit "Intro"; lit "KEY POINTS"; lit "#ai"].
Proof.
  split; [reflexivity|].
  apply (sections_own_line ascii_case _ 1);
    [reflexivity | reflexivity | left; reflexivity].
Defined.

Lemma sections_bullets_then_text_witness :
  unmarked_from ascii_case 0 ([lit "- one"; lit "- two"] ++ [lit "and more"])
  = true
  /\ sections ascii_case ([lit "- one"; lit "- two"] ++ [lit "and more"])
     = [text "- one\n- two\nand more"].
Proof.
  split; [reflexivity|].
  apply (sections_bullets_then_text ascii_case
           [lit "- one"; lit "- two"] [lit "and more"]);
    [reflexivity | repeat constructor | repeat constructor | discriminate].
Defined.

Lemma sections_text_then_bullets_witness :
  unmarked_from ascii_case 0 ([lit "and more"] ++ [lit "- one"; lit "- two"])
  = true
  /\ sections ascii_case ([lit "and more"] ++ [lit "- one"; lit "- two"])
     = [lit "and more"; text "- one\n- two"].
Proof.
  split; [reflexivity|].
  apply (sections_text_then_bullets ascii_case
           [lit "and more"] [lit "- one"; lit "- two"]);
    [reflexivity | repeat constructor | repeat constructor
    | discriminate | discriminate].
Defined.

End SectionFacts.

(** ** Facts about the classified lines of input and output *)

Module RoundTripFacts.
Import PyStr Formatter Properties Scenarios Layout LayoutScenarios.
Import FormatterFacts LayoutFacts.

Section WithCase.
Context (U : UnicodeCase).

(** *** The index of a line matters only at the first line *)

Lemma classify_later i j line :
  (0 < i)%nat -> (0 < j)%nat -> classify U i line = classify U j line.
Proof.
  intros Hi Hj. unfold classify, is_header.
  apply Nat.ltb_lt in Hi, Hj. now rewrite Hi, Hj.
Qed.

Lemma classified_filter lines : forall i j,
  (0 < i)%nat -> (0 < j)%nat ->
  classified_from U i (filter keeps lines) = classified_from U j lines.
Proof.
  induction lines as [|line rest IH]; intros i j Hi Hj; [done|].
  rewrite filter_cons. cbn [classified_from].
  destruct (decide (keeps line)) as [Hk|Hk]; unfold keeps in Hk.
  - cbn [classified_from]. rewrite Hk, (classify_later i j) by done.
    rewrite (IH (S i) (S j)) by lia. done.
  - apply not_false_is_true in Hk. rewrite Hk. apply IH; lia.
Qed.

Lemma classified_retained content :
  leading_kept content = true ->
  classified_from U 0 (retained_lines content) = classified_lines U content.
Proof.
  unfold leading_kept, retained_lines, classified_lines.
  destruct (clean_lines (replace stars [] content)) as [|line rest]; [done|].
  intros Hk%negb_true_iff. rewrite filter_cons.
  destruct (decide (keeps line)) as [_|Hn]; [|done].
  cbn [classified_from]. rewrite Hk.
  now rewrite (classified_filter rest 1 1) by lia.
Qed.

Lemma classified_app a : forall b i,
  classified_from U i (a ++ b)
  = classified_from U i a ++ classified_from U (i + length a) b.
Proof.
  induction a as [|line a IH]; intros b i.
  - cbn [app classified_from length]. now rewrite Nat.add_0_r.
  - cbn [app classified_from length]. rewrite IH.
    replace (S i + length a)%nat with (i + S (length a))%nat by lia.
    destruct (startswith dashes line); [done|].
    now destruct (classify U i line).
Qed.

Lemma classified_hash_line i h :
  startswith hash h = true -> classified_from U i [h] = [h].
Proof.
  intros Hh. cbn [classified_from].
  assert (startswith dashes h = false) as ->.
  { destruct h as [|c h]; [done|]. unfold hash in Hh. cbn [startswith] in Hh.
    apply andb_prop in Hh as [Hc _]. apply N.eqb_eq in Hc. subst c. done. }
  unfold classify. rewrite Hh.
  destruct (is_header U i h); [done|]. now destruct (is_bullet h).
Qed.

(** The formatter classifies the lines of its output as they are. *)
Lemma classified_output content :
  classified_lines U (format_post U content)
  = classified_from U 0 (splitlines (format_post U content)).
Proof.
  unfold classified_lines.
  rewrite replace_absent by apply starless_chained, format_post_starless.
  unfold clean_lines.
  now rewrite clean_tidy_lines by apply laid_out_lines, format_post_laid_out.
Qed.

End WithCase.

(** *** The lines of the output *)

Lemma tidy_lines_join R : Forall tidy R -> splitlines (join nl R) = R.
Proof.
  intros H. apply splitlines_join. eapply Forall_impl; [exact H|].
  now intros l (Hne & _ & Hu).
Qed.

(** Without a [#], the lines of the output are the retained lines. *)
Lemma lines_plain R :
  Forall tidy R -> Forall (Forall (fun c => c <> 35)) R ->
  splitlines (hashtag_fix (join nl R)) = R.
Proof.
  intros HR Hno. unfold hashtag_fix. rewrite (contains_char_false 35).
  2:{ apply join_keep; [|done]. repeat constructor. done. }
  assert (strip (join nl R) = join nl R) as ->.
  { destruct R as [|l R'] eqn:E; [done|]. apply trimmed_strip_id.
    now apply join_solid. }
  now apply tidy_lines_join.
Qed.

Lemma join_snoc R h : R <> [] -> join nl (R ++ [h]) = join nl R ++ 10 :: h.
Proof.
  induction R as [|l R IH]; [done|]. intros _.
  destruct R as [|l' R']; [done|].
  change ((l :: l' :: R') ++ [h]) with (l :: (l' :: R') ++ [h]).
  change ((l' :: R') ++ [h]) with (l' :: (R' ++ [h])) at 1.
  rewrite join_cons. change (l' :: R' ++ [h]) with ((l' :: R') ++ [h]).
  rewrite IH by done. rewrite join_cons. now rewrite <- !app_assoc.
Qed.

(** With a last line that starts with [#], and no [#] before it, the lines
    of the output are the lines before it and then that line with its
    white space around each [#] changed. *)
Lemma lines_tagged R h :
  Forall tidy R -> Forall (Forall (fun c => c <> 35)) R ->
  tidy h -> startswith hash h = true ->
  exists h',
    splitlines (hashtag_fix (join nl (R ++ [h]))) = R ++ [h']
    /\ startswith hash h' = true
    /\ squeeze h' = squeeze h.
Proof.
  intros HR Hno (_ & _ & Hu) Hh.
  destruct h as [|c tl]; [done|]. unfold hash in Hh. cbn [startswith] in Hh.
  apply andb_prop in Hh as [Hc _]. apply N.eqb_eq in Hc. subst c.
  inversion Hu as [|? ? _ Htl]; subst.
  destruct (split hash tl) as [p ps] eqn:Es.
  pose proof (split_char_head _ _ _ _ Es) as Hp.
  pose proof (split_char_tail _ _ _ _ Es) as Hps.
  apply split_char in Es.
  set (M := match R with [] => [] | _ :: _ => join nl R ++ [10] end).
  match goal with |- context [hashtag_fix ?t] => set (T := t) end.
  assert (T = M ++ 35 :: tl) as HT.
  { subst T M. destruct R as [|l R']; [done|].
    rewrite join_snoc by done. now rewrite <- app_assoc. }
  assert (Forall (fun x => x <> 35) M) as HM.
  { subst M. destruct R as [|l R']; [constructor|].
    apply Forall_app. split; [|now repeat constructor].
    apply join_keep; [now repeat constructor | done]. }
  assert (split hash T = (M, p :: ps)) as Esplit.
  { rewrite HT, Es. apply (split_unique 35 (p :: ps) M); [done|].
    now constructor. }
  pose proof (squeeze_hashtag_fix T) as Hsq.
  rewrite (hashtag_fix_hashed _ M p ps Esplit) in Hsq.
  rewrite (hashtag_fix_hashed _ M p ps Esplit).
  set (J := join (lit " #") (map strip (p :: ps))) in *.
  assert (unbroken (35 :: J)) as HJ.
  { rewrite Es in Htl. apply pieces_keep in Htl as [Hup Hups].
    constructor; [done|]. apply join_keep; [now repeat constructor|].
    apply Forall_fmap. constructor; [now apply strip_keep|].
    eapply Forall_impl; [exact Hups|]. intros x Hx. now apply strip_keep. }
  assert (strip M = join nl R) as HsM.
  { subst M. destruct R as [|l R']; [done|].
    apply strip_gap; [|done]. now apply join_solid. }
  exists (35 :: J). split; [|split; [done|]].
  - rewrite HsM. destruct R as [|l R'].
    + cbn [join app]. now apply splitlines_single.
    + destruct (join_solid (l :: R') ltac:(done) HR) as [Hne [_ Hr]].
      destruct (laid_out_join (l :: R') HR) as (_ & _ & Hf).
      destruct (join nl (l :: R')) as [|x m] eqn:Ej; [done|].
      rewrite <- app_assoc. change ([10] ++ 35 :: J) with (10 :: 35 :: J).
      rewrite splitlines_app_feed by done.
      rewrite <- Ej, tidy_lines_join by done.
      now rewrite splitlines_single.
  - rewrite HT, !squeeze_app in Hsq.
    match type of Hsq with
    | squeeze ?X ++ _ = _ => assert (squeeze X = squeeze M) as HX
    end.
    { rewrite <- (squeeze_strip M). destruct (strip M) as [|x m]; [done|].
      rewrite squeeze_app. cbn. now rewrite app_nil_r. }
    rewrite HX in Hsq. now apply app_inv_head in Hsq.
Qed.

(** The cases of [hash_at_end]. *)
Lemma hash_at_end_cases L :
  hash_at_end L = true ->
  Forall (Forall (fun c => c <> 35)) L
  \/ exists R h,
       L = R ++ [h] /\ Forall (Forall (fun c => c <> 35)) R
       /\ startswith hash h = true.
Proof.
  induction L as [|l L IH]; [now left|].
  destruct L as [|l' L'].
  - cbn [hash_at_end]. intros [H|H]%orb_prop.
    + left. constructor; [|done]. apply contains_char_none.
      now apply negb_true_iff in H.
    + right. exists [], l. done.
  - change (hash_at_end (l :: l' :: L'))
      with (negb (contains hash l) && hash_at_end (l' :: L')).
    intros [Hl HL]%andb_prop. apply negb_true_iff, contains_char_none in Hl.
    destruct (IH HL) as [Hall|(R & h & E & HR & Hh)].
    + left. now constructor.
    + right. exists (l :: R), h. rewrite E. split; [done|].
      split; [now constructor | done].
Qed.

(** *** The round trip *)

(** C9 (as amended): for every input text, the output and the retained
    lines of the input (markup removed, trimmed, non-empty, not starting
    with three dashes) have the same characters in the same order, white
    space apart; for every input text without the character [#], the lines
    of the output are exactly the retained lines, in the same order; and
    for every input text whose first non-blank line does not start with
    three dashes and in which no retained line but the last contains a
    [#], the last one only if it starts with one, the header, bullet and
    hashtag lines of the output are, in the same order and white space
    apart, the header, bullet and hashtag lines of the input, so that the
    two sets of lines are equal up to white space. *)
Theorem format_post_round_trip (U : UnicodeCase) (content : str) :
  squeeze (format_post U content) = concat (map squeeze (retained_lines content))
  /\ (Forall (fun c => c <> 35) content ->
      splitlines (format_post U content) = retained_lines content)
  /\ (leading_kept content = true ->
      hash_at_end (retained_lines content) = true ->
      map squeeze (classified_lines U (format_post U content))
      = map squeeze (classified_lines U content)
      /\ same_classified_lines U content).
Proof.
  pose proof (retained_lines_tidy content) as HR.
  assert (Forall tidy (retained_lines content)) as Ht
    by (eapply Forall_impl; [exact HR|]; now intros l [? _]).
  split; [|split].
  - rewrite format_post_retained. now rewrite squeeze_hashtag_fix, squeeze_lines.
  - intros H. rewrite format_post_retained. apply lines_plain; [done|].
    unfold retained_lines. apply Forall_filter_with.
    eapply Forall_impl; [apply clean_lines_keep, replace_from_keep, H|]. done.
  - intros Hlead Hend.
    enough (map squeeze (classified_lines U (format_post U content))
            = map squeeze (classified_lines U content)) as Heq.
    { split; [exact Heq|]. intros l. now rewrite Heq. }
    rewrite classified_output, <- (classified_retained U content Hlead).
    rewrite format_post_retained.
    destruct (hash_at_end_cases _ Hend) as [Hall|(R & h & E & Hfree & Hh)].
    + now rewrite lines_plain.
    + rewrite E in Ht |- *. apply Forall_app in Ht as [HtR Hth].
      inversion Hth as [|? ? Hth' _]; subst.
      destruct (lines_tagged R h HtR Hfree Hth' Hh) as (h' & -> & Hh' & Hsq).
      rewrite !classified_app, !classified_hash_line by done.
      rewrite !map_app. cbn [map]. now rewrite Hsq.
Qed.

Lemma format_post_round_trip_witness :
  Forall (fun c => c <> 35) outline
  /\ splitlines (format_post ascii_case outline) = retained_lines outline
  /\ leading_kept tagged = true
  /\ hash_at_end (retained_lines tagged) = true
  /\ map squeeze (classified_lines ascii_case (format_post ascii_case tagged))
     = map squeeze (classified_lines ascii_case tagged)
  /\ same_classified_lines ascii_case tagged.
Proof.
  assert (Forall (fun c => c <> 35) outline) as H
    by (refine (bool_decide_unpack _ _); vm_compute; exact I).
  split; [exact H|].
  split; [exact (proj1 (proj2 (format_post_round_trip ascii_case outline)) H)|].
  split; [reflexivity|]. split; [reflexivity|].
  exact (proj2 (proj2 (format_post_round_trip ascii_case tagged))
           eq_refl eq_refl).
Defined.

(** The lines of the example with hashtags: the header line and the line
    of hashtags are classified in input and output, and the line of
    hashtags has lost white space. *)
Example format_post_tagged :
  classified_lines ascii_case tagged = [lit "Read on:"; lit "#A   # B  #C"]
  /\ classified_lines ascii_case (format_post ascii_case tagged)
     = [lit "Read on:"; lit "#A #B #C"].
Proof. split; vm_compute; reflexivity. Qed.

(** C9, counterexample: the claim fails in three ways. The header line
    "Note: C# rocks" is cut at its [#]: the output has the header line
    "Note: C" and the hashtag line "#rocks". After a marker line at the
    start, the line "ABC" is a header line of the input, by its capitals
    at an index after the first, and no header line of the output, where
    it is the first line. And the two hashtag lines "#a" and "#b" are one
    line "#a #b" of the output. In each case the lines of input and output
    differ even without their white space. *)
Lemma format_post_changes_classified_lines :
  (classified_lines ascii_case sharp_header = [lit "Note: C# rocks"]
   /\ classified_lines ascii_case (format_post ascii_case sharp_header)
      = [lit "Note: C"; lit "#rocks"]
   /\ ~ same_classified_lines ascii_case sharp_header)
  /\ (classified_lines ascii_case marker_first = [lit "ABC"]
      /\ classified_lines ascii_case (format_post ascii_case marker_first) = []
      /\ ~ same_classified_lines ascii_case marker_first)
  /\ (classified_lines ascii_case tag_lines = [lit "#a"; lit "#b"]
      /\ classified_lines ascii_case (format_post ascii_case tag_lines)
         = [lit "#a #b"]
      /\ ~ same_classified_lines ascii_case tag_lines).
Proof.
  assert (forall content l,
            l ∈ map squeeze (classified_lines ascii_case content) ->
            l ∉ map squeeze
                  (classified_lines ascii_case (format_post ascii_case content)) ->
            ~ same_classified_lines ascii_case content) as Hdiff.
  { intros content l Hin Hout H. apply Hout, H, Hin. }
  split; [|split]; (split; [vm_compute; reflexivity|]);
    (split; [vm_compute; reflexivity|]).
  - apply (Hdiff _ (lit "Note:C#rocks")); [vm_compute; left|].
    vm_compute. intros H. apply list_elem_of_In in H. simpl in H.
    intuition discriminate.
  - apply (Hdiff _ (lit "ABC")); [vm_compute; left|].
    vm_compute. intros H. apply list_elem_of_In in H. simpl in H.
    intuition discriminate.
  - apply (Hdiff _ (lit "#a")); [vm_compute; left|].
    vm_compute. intros H. apply list_elem_of_In in H. simpl in H.
    intuition discriminate.
Qed.

End RoundTripFacts.

(** ** Facts about the latest post *)

Module LatestPostFacts.
Import PyStr Formatter Properties Layout LatestPost PostProperties PostScenarios.
Import FormatterFacts LayoutFacts.
Local Open Scope string_scope.
Local Open Scope list_scope.

(** *** Cutting at a marker *)

Lemma split_from_skip sep s : forall k,
  split_from sep k s = split_from sep 0 (drop k s).
Proof.
  induction s as [|c s IH]; intros k.
  - now destruct k.
  - destruct k as [|k]; [done|]. cbn [split_from drop]. apply IH.
Qed.

Lemma startswith_drop m s :
  startswith m s = true -> s = m ++ drop (length m) s.
Proof.
  revert s. induction m as [|x m IH]; intros s H; [done|].
  destruct s as [|c s]; [done|]. cbn [startswith] in H.
  apply andb_prop in H as [->%N.eqb_eq H]. cbn [length drop app].
  f_equal. now apply IH.
Qed.

Lemma startswith_self m s : startswith m (m ++ s) = true.
Proof.
  induction m as [|x m IH]; [done|]. cbn [app startswith].
  now rewrite N.eqb_refl, IH.
Qed.

Lemma startswith_app_long m x y :
  (length m <= length x)%nat -> startswith m (x ++ y) = startswith m x.
Proof.
  revert x. induction m as [|c m IH]; intros x H; [done|].
  destruct x as [|d x]; [simpl in H; lia|].
  cbn [app startswith]. rewrite IH; [done|]. simpl in H. lia.
Qed.

(** At an occurrence of the separator, [split] closes the piece and goes
    on behind the separator. *)
Lemma split_at_sep sep s :
  sep <> [] ->
  split sep (sep ++ s) = ([], let '(p, ps) := split sep s in p :: ps).
Proof.
  intros Hne. destruct sep as [|x sep]; [done|].
  unfold split. cbn [app split_from].
  change (x :: sep ++ s) with ((x :: sep) ++ s). rewrite startswith_self.
  rewrite split_from_skip. cbn [length pred].
  rewrite drop_app_length. now destruct (split_from (x :: sep) 0 s).
Qed.

(** Where no occurrence begins, [split] takes the text into the piece. *)
Lemma split_clear sep a rest :
  none_begins sep a rest = true ->
  split sep (a ++ rest) = (a ++ fst (split sep rest), snd (split sep rest)).
Proof.
  unfold split. induction a as [|c a IH]; intros H.
  - cbn [app]. now destruct (split_from sep 0 rest).
  - cbn [none_begins] in H. apply andb_prop in H as [H1%negb_true_iff H2].
    cbn [app split_from]. change (c :: a ++ rest) with ((c :: a) ++ rest).
    rewrite H1, (IH H2). done.
Qed.

Lemma none_begins_longer m a b c :
  (length m <= length b)%nat ->
  none_begins m a (b ++ c) = none_begins m a b.
Proof.
  intros H. induction a as [|x a IH]; [done|].
  cbn [none_begins]. rewrite IH. f_equal. f_equal.
  rewrite (app_assoc (x :: a) b c). apply startswith_app_long.
  rewrite length_app. lia.
Qed.

Lemma contains_app_r m a b : contains m b = true -> contains m (a ++ b) = true.
Proof.
  intros H. induction a as [|x a IH]; [done|].
  cbn [app contains]. rewrite IH. apply orb_true_r.
Qed.

Lemma contains_marker m a b : contains m (a ++ m ++ b) = true.
Proof.
  apply contains_app_r. destruct (m ++ b) eqn:E.
  - apply app_eq_nil in E as [-> ->]. done.
  - rewrite <- E. cbn [contains]. destruct (m ++ b) eqn:E'; [done|].
    rewrite <- E'. unfold contains. rewrite E'. cbn. rewrite <- E'.
    now rewrite startswith_self.
Qed.

(** With the separator in the text, [split] gives a second piece. *)
Lemma split_second sep s :
  sep <> [] -> contains sep s = true -> snd (split sep s) <> [].
Proof.
  intros Hne. unfold split. induction s as [|c s IH].
  - destruct sep; done.
  - cbn [contains split_from]. destruct (startswith sep (c :: s)).
    + intros _. now destruct (split_from sep (pred (length sep)) s).
    + cbn [orb]. intros H. specialize (IH H).
      now destruct (split_from sep 0 s).
Qed.

(** *** The text between the markers *)

Lemma between_framed before body rest content :
  framed before body rest content ->
  between post_start post_end content = Returns body.
Proof.
  intros (-> & H1 & H2 & H3). unfold between.
  rewrite split_clear
    by (rewrite none_begins_longer; [done | lia]).
  rewrite split_at_sep by done. cbn [snd].
  rewrite (app_assoc body post_end rest), (split_clear _ _ _ H2).
  cbn [snd fst]. rewrite <- app_assoc.
  rewrite split_clear
    by (rewrite none_begins_longer; [done | lia]).
  now rewrite split_at_sep, app_nil_r.
Qed.

Lemma choose_framed before body rest content :
  framed before body rest content -> choose content = Returns body.
Proof.
  intros H. pose proof H as (-> & _). unfold choose.
  rewrite contains_marker.
  rewrite (app_assoc before), (app_assoc (before ++ post_start)),
    contains_marker.
  rewrite <- !app_assoc. cbn [andb]. now apply (between_framed before body rest).
Qed.

(** X13: between exact markers, [get_latest_post] takes the body, and [main.py]
    saves the trimmed body as the component [POST]: the post is the
    clean-up of that component. *)
Theorem extract_framed (before body rest content : str) :
  framed before body rest content ->
  extract content = clean_up body
  /\ component "POST" content = Returns (Some (strip body))
  /\ clean_up (strip body) = clean_up body.
Proof.
  intros H. split; [|split].
  - unfold extract. now rewrite (choose_framed _ _ _ _ H).
  - pose proof H as (E & _). unfold component.
    change (start_marker "POST") with post_start.
    change (end_marker "POST") with post_end.
    rewrite (between_framed _ _ _ _ H). rewrite E.
    rewrite contains_marker.
    rewrite (app_assoc before), (app_assoc (before ++ post_start)),
      contains_marker. done.
  - unfold clean_up. now rewrite (trimmed_strip_id _ (strip_trimmed body)).
Qed.

(** *** What the function returns *)

Lemma clean_up_ok pc post :
  clean_up pc = Returns post ->
  post <> [] /\ trimmed post /\ contains stars post = false.
Proof.
  unfold clean_up. set (r := replace stars [] (strip pc)).
  destruct (truthy (strip r)) eqn:E; [|done].
  intros [= <-]. split; [now apply truthy_nonempty|].
  split; [apply strip_trimmed|].
  apply starless_chained, chained_strip, replace_from_starless.
Qed.

Lemma extract_ok content post :
  extract content = Returns post ->
  post <> [] /\ trimmed post /\ contains stars post = false.
Proof.
  unfold extract. destruct (choose content); [apply clean_up_ok | done].
Qed.

(** X10: a post that [get_latest_post] returns is not empty, is trimmed, and
    holds no pair of asterisks. *)
Theorem get_latest_post_ok (posts : posts_dir) (post : str) :
  snd (get_latest_post posts) = Returns post ->
  post <> [] /\ trimmed post /\ contains stars post = false.
Proof.
  destruct posts as [|entries|e]; [done| |done]. cbn [get_latest_post].
  destruct (directories entries) as [|d ds]; [done|].
  destruct (at_full_output entries (max_from d ds)) as [[content|e]|]; [|done|done].
  cbn zeta. destruct (extract content) as [p|e] eqn:E; [|done].
  intros [= <-]. now apply (extract_ok content).
Qed.

(** *** What the function raises *)

Lemma choose_error content e :
  choose content = Raises e ->
  e = Exception "Could not find valid post content".
Proof.
  unfold choose.
  destruct (contains post_start content) eqn:E1; cbn [andb].
  - destruct (contains post_end content); cbn [andb].
    + unfold between. pose proof (split_second post_start content) as H.
      destruct (snd (split post_start content)); [|done].
      now destruct H.
    + destruct (contains fire content && contains hash content
                && contains call_to_action content); [done|].
      destruct (re_search content); [done | now intros [= <-]].
  - destruct (contains fire content && contains hash content
              && contains call_to_action content); [done|].
    destruct (re_search content); [done | now intros [= <-]].
Qed.

Lemma extract_error content e :
  extract content = Raises e ->
  e = Exception "Could not find valid post content"
  \/ e = Exception "Found POST section but it was empty".
Proof.
  unfold extract. destruct (choose content) as [pc|e'] eqn:E.
  - unfold clean_up.
    destruct (negb (truthy (strip (replace stars [] (strip pc))))); [|done].
    intros [= <-]. now right.
  - intros [= <-]. left. now apply (choose_error content).
Qed.

(** X11: the function ends with one of its own four messages, or with the
    error of listing the directory or of reading the file; what goes
    wrong inside the [try] block is printed, and it is one of the two
    messages of the block: the index [1] is always there. *)
Theorem get_latest_post_errors (posts : posts_dir) (e : error) :
  snd (get_latest_post posts) = Raises e ->
  (e ∈ own_errors
   \/ posts = Unlistable e
   \/ exists entries d, posts = Listing entries
                        /\ at_full_output entries d = Some (Unreadable e))
  /\ forall e', [Lit "Error extracting post content: "; Err e']
                ∈ fst (get_latest_post posts) ->
       e' = Exception "Could not find valid post content"
       \/ e' = Exception "Found POST section but it was empty".
Proof.
  unfold own_errors.
  destruct posts as [|entries|e0]; cbn [get_latest_post].
  - intros [= <-]. split; [left; set_solver | intros e' H; inversion H].
  - destruct (directories entries) as [|d ds].
    { intros [= <-]. split; [left; set_solver | intros e' H; inversion H]. }
    destruct (at_full_output entries (max_from d ds)) as [[content|e0]|] eqn:Ef.
    + cbn zeta. destruct (extract content) as [p|e0] eqn:E; [done|].
      intros [= <-]. split; [left; set_solver|].
      intros e' H. cbn [fst] in H.
      apply elem_of_cons in H as [H|H]; [done|].
      apply elem_of_cons in H as [H|H].
      * injection H as <-. now apply (extract_error content).
      * apply list_elem_of_singleton in H. done.
    + intros [= <-]. split; [right; right; eauto | intros e' H; inversion H].
    + intros [= <-]. split; [left; set_solver | intros e' H; inversion H].
  - intros [= <-]. split; [now right; left | intros e' H; inversion H].
Qed.

(** X14: [main.py] never fails on the index either: a component is written, or
    the warning is printed. *)
Theorem component_total (content_type : string) (result_str : str) :
  exists written, component content_type result_str = Returns written.
Proof.
  unfold component.
  destruct (contains (start_marker content_type) result_str) eqn:E;
    cbn [andb]; [|eauto].
  destruct (contains (end_marker content_type) result_str); [|eauto].
  unfold between.
  pose proof (split_second (start_marker content_type) result_str) as H.
  destruct (snd (split (start_marker content_type) result_str)); [|eauto].
  destruct H; [|done|done].
  unfold start_marker. cbv [String.append]. done.
Qed.

(** *** The latest directory *)

Lemma str_lt_irrefl a : str_lt a a = false.
Proof.
  induction a as [|x a IH]; [done|]. cbn [str_lt].
  now rewrite N.ltb_irrefl, N.eqb_refl, IH.
Qed.

Lemma str_lt_trans a : forall b c,
  str_lt a b = true -> str_lt b c = true -> str_lt a c = true.
Proof.
  induction a as [|x a IH]; intros b c Hab Hbc.
  - destruct b; [done|]. now destruct c.
  - destruct b as [|y b]; [done|]. destruct c as [|z c]; [done|].
    cbn [str_lt] in *.
    apply orb_true_iff in Hab as [Hxy|[Hxy Hab]%andb_prop];
      apply orb_true_iff in Hbc as [Hyz|[Hyz Hbc]%andb_prop];
      apply orb_true_iff.
    + left. apply N.ltb_lt in Hxy, Hyz. apply N.ltb_lt. lia.
    + left. apply N.eqb_eq in Hyz. now subst.
    + left. apply N.eqb_eq in Hxy. now subst.
    + right. apply N.eqb_eq in Hxy, Hyz. subst. rewrite N.eqb_refl.
      now apply (IH b c).
Qed.

Lemma str_lt_total a : forall b,
  str_lt a b = false -> str_lt b a = false -> a = b.
Proof.
  induction a as [|x a IH]; intros b Hab Hba.
  - now destruct b.
  - destruct b as [|y b]; [done|]. cbn [str_lt] in *.
    apply orb_false_elim in Hab as [Hxy Hab], Hba as [Hyx Hba].
    apply N.ltb_ge in Hxy, Hyx. assert (x = y) as -> by lia.
    rewrite N.eqb_refl in Hab, Hba. f_equal. now apply IH.
Qed.

(** [max] gives an item of the list that none of the list exceeds. *)
Lemma max_from_greatest rest : forall best,
  max_from best rest ∈ best :: rest
  /\ Forall (fun x => str_lt (max_from best rest) x = false) (best :: rest).
Proof.
  induction rest as [|x rest IH]; intros best.
  - cbn [max_from]. split; [apply list_elem_of_here|].
    constructor; [apply str_lt_irrefl | constructor].
  - cbn [max_from]. destruct (str_lt best x) eqn:E.
    + destruct (IH x) as [Hin Hall].
      split; [now apply list_elem_of_further|].
      inversion Hall as [|? ? Hx Hrest]; subst.
      constructor; [|now constructor].
      destruct (str_lt (max_from x rest) best) eqn:E'; [|done].
      now rewrite (str_lt_trans _ _ _ E' E) in Hx.
    + destruct (IH best) as [Hin Hall]. split.
      { apply elem_of_cons in Hin as [Hin|Hin];
          [rewrite Hin; apply list_elem_of_here
          | do 2 apply list_elem_of_further; exact Hin]. }
      inversion Hall as [|? ? Hb Hrest]; subst.
      constructor; [done|]. constructor; [|done].
      destruct (str_lt (max_from best rest) x) eqn:E'; [|done].
      destruct (str_lt best (max_from best rest)) eqn:E''.
      * now rewrite (str_lt_trans _ _ _ E'' E') in E.
      * rewrite (str_lt_total _ _ Hb E'') in E'. congruence.
Qed.

Lemma at_full_output_unique entries e :
  NoDup (map name entries) -> e ∈ entries ->
  at_full_output entries (name e) = full_output e.
Proof.
  unfold at_full_output. induction entries as [|x xs IH]; intros Hnd Hin.
  - inversion Hin.
  - cbn [map] in Hnd. apply NoDup_cons in Hnd as [Hx Hnd].
    rewrite filter_cons. destruct (decide (name x = name e)) as [Heq|Hne].
    + apply elem_of_cons in Hin as [->|Hin]; [done|].
      destruct Hx. rewrite Heq. change (name e ∈ name <$> xs).
      apply list_elem_of_fmap. now exists e.
    + apply elem_of_cons in Hin as [->|Hin]; [done|]. now apply IH.
Qed.

Lemma latest_dir_greatest entries e d ds :
  greatest_dir e entries -> directories entries = d :: ds ->
  max_from d ds = name e.
Proof.
  intros (Hin & Hdir & Hmax) Hd.
  destruct (max_from_greatest ds d) as [Hm Hall]. rewrite <- Hd in Hm, Hall.
  unfold directories in Hm, Hall.
  change (map name ?l) with (name <$> l) in Hm, Hall.
  apply list_elem_of_fmap in Hm as (e' & He' & Hin').
  apply list_elem_of_filter in Hin' as [Hdir' Hin'].
  apply str_lt_total.
  - rewrite Forall_forall in Hall. apply Hall.
    apply list_elem_of_fmap. exists e. split; [done|].
    now apply list_elem_of_filter.
  - rewrite He'. now apply Hmax.
Qed.

(** X12: the post is read from the directory with the greatest name; files and
    the other directories play no part: the function prints and returns
    what it does when that directory is the only entry. *)
Theorem get_latest_post_greatest (entries : list entry) (e : entry) :
  NoDup (map name entries) -> greatest_dir e entries ->
  get_latest_post (Listing entries) = get_latest_post (Listing [e]).
Proof.
  intros Hnd Hg. pose proof Hg as (Hin & Hdir & _).
  cbn [get_latest_post].
  assert (directories [e] = [name e]) as ->.
  { unfold directories. rewrite filter_cons.
    destruct (decide (is_dir e = true)); done. }
  cbn [max_from].
  assert (at_full_output [e] (name e) = full_output e) as ->.
  { apply at_full_output_unique; [|set_solver].
    cbn [map]. apply NoDup_singleton. }
  destruct (directories entries) as [|d ds] eqn:Hd.
  { exfalso. assert (name e ∈ directories entries) as H.
    { unfold directories. change (map name ?l) with (name <$> l).
      apply list_elem_of_fmap. exists e. split; [done|].
      now apply list_elem_of_filter. }
    rewrite Hd in H. inversion H. }
  rewrite (latest_dir_greatest entries e d ds Hg Hd).
  now rewrite (at_full_output_unique entries e Hnd Hin).
Qed.

(** *** Instances *)

Lemma extract_framed_witness :
  framed (text "---STORY START---\nA story.\n---STORY END---\n")
         (text "\n**Big** news #ai\n") (text "\n") crew_output
  /\ extract crew_output = Returns (lit "Big news #ai")
  /\ component "POST" crew_output = Returns (Some (lit "**Big** news #ai")).
Proof.
  assert (framed (text "---STORY START---\nA story.\n---STORY END---\n")
            (text "\n**Big** news #ai\n") (text "\n") crew_output) as H
    by (repeat split; vm_compute; reflexivity).
  split; [exact H|].
  destruct (extract_framed _ _ _ _ H) as (H1 & H2 & _).
  split; [rewrite H1 | rewrite H2]; vm_compute; reflexivity.
Defined.

Lemma get_latest_post_ok_witness :
  snd (get_latest_post (Listing two_runs)) = Returns (lit "Big news #ai")
  /\ lit "Big news #ai" <> []
  /\ trimmed (lit "Big news #ai")
  /\ contains stars (lit "Big news #ai") = false.
Proof.
  assert (snd (get_latest_post (Listing two_runs)) = Returns (lit "Big news #ai"))
    as H by (vm_compute; reflexivity).
  split; [exact H | exact (get_latest_post_ok _ _ H)].
Defined.

Lemma get_latest_post_errors_witness :
  let posts := Listing [run "20240101_120000" (lit "no markers")] in
  let e := Exception "Could not extract valid post content from the output file" in
  snd (get_latest_post posts) = Raises e
  /\ (e ∈ own_errors
      \/ posts = Unlistable e
      \/ exists entries d, posts = Listing entries
                           /\ at_full_output entries d = Some (Unreadable e))
  /\ forall e', [Lit "Error extracting post content: "; Err e']
                ∈ fst (get_latest_post posts) ->
       e' = Exception "Could not find valid post content"
       \/ e' = Exception "Found POST section but it was empty".
Proof.
  cbn zeta.
  assert (snd (get_latest_post (Listing [run "20240101_120000" (lit "no markers")]))
          = Raises (Exception
                     "Could not extract valid post content from the output file"))
    as H by (vm_compute; reflexivity).
  split; [exact H | exact (get_latest_post_errors _ _ H)].
Defined.

Lemma get_latest_post_greatest_witness :
  NoDup (map name two_runs)
  /\ greatest_dir (run "20240102_090000" crew_output) two_runs
  /\ get_latest_post (Listing two_runs)
     = get_latest_post (Listing [run "20240102_090000" crew_output]).
Proof.
  assert (NoDup (map name two_runs)) as H1.
  { refine (bool_decide_unpack _ _). vm_compute. exact I. }
  assert (greatest_dir (run "20240102_090000" crew_output) two_runs) as H2.
  { split; [set_solver|]. split; [done|].
    intros e' He' Hd. unfold two_runs in He'.
    repeat (apply elem_of_cons in He' as [->|He'];
            [first [vm_compute; reflexivity | cbn in Hd; discriminate Hd]|]).
    inversion He'. }
  split; [exact H1|]. split; [exact H2|].
  exact (get_latest_post_greatest _ _ H1 H2).
Defined.

End LatestPostFacts.

(** ** Facts about the conduct of the workflow *)

Module ConductFacts.
Import PyStr Formatter Browser Poster Properties Scenarios Layout Conduct.
Import ConductScenarios.
Import FormatterFacts BrowserFacts PosterFacts StoreFacts PublishFacts LayoutFacts.
Import LatestPostFacts.
Local Open Scope N_scope.
Local Open Scope string_scope.
Local Open Scope list_scope.

(** *** Exceptions *)

Lemma never_raises_ret {A} (a : A) : never_raises (ret a).
Proof. intros w s. now exists a. Qed.

Lemma never_raises_print m : never_raises (print m).
Proof. intros w s. now exists tt. Qed.

Lemma never_raises_sleep q : never_raises (sleep q).
Proof. intros w s. now exists tt. Qed.

Lemma never_raises_bind {A B} (m : M A) (k : A -> M B) :
  never_raises m -> (forall a, never_raises (k a)) -> never_raises (bind m k).
Proof.
  intros Hm Hk w s. unfold bind. destruct (Hm w s) as [a Ha].
  destruct (m w s) as [[a'|e] s']; [|done]. apply Hk.
Qed.

(** A handler that does not raise makes the whole [try] statement safe. *)
Lemma never_raises_try_except {A} (m : M A) (h : exn -> M A) :
  (forall e, never_raises (h e)) -> never_raises (try_except m h).
Proof.
  intros Hh w s. unfold try_except.
  destruct (m w s) as [[a|e] s']; [now exists a | apply Hh].
Qed.

Ltac safe_step :=
  match goal with
  | |- never_raises (bind _ _) => apply never_raises_bind; [|intros ?]
  | |- never_raises (try_except _ _) => apply never_raises_try_except; intros ?
  | |- never_raises (ret _) => apply never_raises_ret
  | |- never_raises (print _) => apply never_raises_print
  | |- never_raises (sleep _) => apply never_raises_sleep
  | |- never_raises (if ?b then _ else _) => destruct b
  end.

Ltac safe := repeat safe_step; eauto.

Lemma probe_success_safe d indicators : never_raises (probe_success d indicators).
Proof. induction indicators as [|x xs IH]; cbn [probe_success]; safe. Qed.

Lemma verify_post_true d w s : exists s', verify_post d w s = (Ok true, s').
Proof.
  unfold verify_post, bind. exec.
  destruct (probe_success_safe d success_indicators w (log (Slept 10) s)) as [b Hb].
  destruct (probe_success d success_indicators w (log (Slept 10) s)) as [r s1].
  simpl in Hb. subst r. destruct b; exec; eauto.
Qed.

(** X15: [save_cookies], [load_cookies] and [check_login_status] raise nothing:
    whatever goes wrong inside them ends as [False]. *)
Theorem store_and_check_never_raise (d : driver) :
  never_raises (save_cookies d)
  /\ never_raises (load_cookies d)
  /\ never_raises (check_login_status d).
Proof.
  split; [|split].
  - unfold save_cookies. safe.
  - unfold load_cookies. safe.
  - unfold check_login_status. safe.
Qed.

Lemma session_body_safe cred U content :
  never_raises
    (try_except
       ('(d, formatted_content) ← open_session U content;
        use_session cred d formatted_content)
       (fun e => print [Text "Error posting to LinkedIn: "; ShowExn e];; ret false))%io.
Proof. safe. Qed.

(** X16: [post_to_linkedin] raises only when [driver.quit()] fails, and then
    it raises the exception of that call. *)
Theorem post_to_linkedin_raises_on_quit
    (cred : credentials) (U : UnicodeCase) (content : option str)
    (w : world) (s : state) (e : exn) :
  (post_to_linkedin cred U content w s).1 = Raise e ->
  quit_failed w (post_to_linkedin cred U content w s).2 e.
Proof.
  unfold post_to_linkedin.
  pose proof (session_body_safe cred U content w (set_driver_var None s))
    as [b Hb]. revert Hb.
  set (body := try_except _ _).
  unfold bind, put_driver_var, try_finally.
  destruct (body w (set_driver_var None s)) as [r s1].
  cbn [fst]. intros ->. unfold close_session, bind. exec.
  destruct (driver_var s1) as [d|]; [|exec; discriminate].
  unfold call. destruct (answer w (trace s1) (Quit d)) as [u|msg] eqn:E;
    [cbn [fst]; discriminate|].
  cbn [fst snd]. intros [= <-]. exists d, msg, (trace s1). done.
Qed.

(** *** Publishing *)

(** X17: the verification cannot fail a post: [create_post] returns [True]
    exactly when nothing is raised up to the click on the submit button. *)
Theorem create_post_true_iff (d : driver) (content : str) (w : world) (s : state) :
  (create_post d content w s).1 = Ok true
  <-> exists s1, submit_post d content w s = (Ok tt, s1).
Proof.
  unfold create_post, try_except, bind.
  destruct (submit_post d content w s) as [[[]|e] s1].
  - destruct (verify_post_true d w s1) as [s2 ->]. split; eauto.
  - destruct (post_failed_run d e w s1) as (r & s2 & evs & -> & Hr & _).
    split.
    + cbn [fst]. intros ->. destruct Hr as [?|[? ?]]; done.
    + intros [? ?]. done.
Qed.

(** *** Files *)

Section ChangesOnly.
Context (P : string -> Prop).

Lemma changes_only_ret {A} (a : A) : changes_only P (ret a).
Proof. now intros w s k _. Qed.

Lemma changes_only_raise {A} e : changes_only P (@raise A e).
Proof. now intros w s k _. Qed.

Lemma changes_only_lift {A} (r : result A) : changes_only P (lift r).
Proof. now intros w s k _. Qed.

Lemma changes_only_bind {A B} (m : M A) (k : A -> M B) :
  changes_only P m -> (forall a, changes_only P (k a)) ->
  changes_only P (bind m k).
Proof.
  intros Hm Hk w s x Hx. unfold bind. specialize (Hm w s x Hx).
  destruct (m w s) as [[a|e] s']; [|exact Hm].
  now rewrite (Hk a w s' x Hx).
Qed.

Lemma changes_only_try_except {A} (m : M A) (h : exn -> M A) :
  changes_only P m -> (forall e, changes_only P (h e)) ->
  changes_only P (try_except m h).
Proof.
  intros Hm Hh w s x Hx. unfold try_except. specialize (Hm w s x Hx).
  destruct (m w s) as [[a|e] s']; [exact Hm|].
  now rewrite (Hh e w s' x Hx).
Qed.

Lemma changes_only_try_finally {A} (m : M A) (f : M unit) :
  changes_only P m -> changes_only P f -> changes_only P (try_finally m f).
Proof.
  intros Hm Hf w s x Hx. unfold try_finally. specialize (Hm w s x Hx).
  destruct (m w s) as [r s']. specialize (Hf w s' x Hx).
  destruct (f w s') as [[u|e] s'']; cbn [snd] in *; congruence.
Qed.

Lemma fs_effect_other r v f k :
  touched r <> Some k -> fs_effect r v f !! k = f !! k.
Proof.
  intros H. destruct r; try done; cbn [touched] in H; cbn [fs_effect].
  - destruct v; [|done]. apply lookup_insert_ne. congruence.
  - apply lookup_insert_ne. congruence.
  - apply lookup_insert_ne. congruence.
  - destruct (f !! path) as [[]|]; apply lookup_insert_ne; congruence.
  - apply lookup_delete_ne. congruence.
  - apply lookup_insert_ne. congruence.
Qed.

Lemma changes_only_call r :
  (forall k, touched r = Some k -> P k) -> changes_only P (call r).
Proof.
  intros H w s k Hk. unfold call.
  destruct (answer w (trace s) r) as [v|msg]; [|done].
  cbn [snd fs set_fs]. rewrite fs_effect_other; [done|].
  intros Ht. now apply Hk, H.
Qed.

Lemma changes_only_sleep q : changes_only P (sleep q).
Proof. now intros w s k _. Qed.

Lemma changes_only_print m : changes_only P (print m).
Proof. now intros w s k _. Qed.

Lemma changes_only_now_timestamp : changes_only P now_timestamp.
Proof. now intros w s k _. Qed.

Lemma changes_only_now_strftime : changes_only P now_strftime.
Proof. now intros w s k _. Qed.

Lemma changes_only_path_exists p : changes_only P (path_exists p).
Proof. now intros w s k _. Qed.

Lemma changes_only_pickle_load p : changes_only P (pickle_load p).
Proof. intros w s k _. unfold pickle_load. now destruct (fs s !! p) as [[]|]. Qed.

Lemma changes_only_get_options : changes_only P get_options.
Proof. now intros w s k _. Qed.

Lemma changes_only_put_options o : changes_only P (put_options o).
Proof. now intros w s k _. Qed.

Lemma changes_only_get_driver_var : changes_only P get_driver_var.
Proof. now intros w s k _. Qed.

Lemma changes_only_put_driver_var d : changes_only P (put_driver_var d).
Proof. now intros w s k _. Qed.

End ChangesOnly.

Lemma changes_only_mono (P P' : string -> Prop) {A} (m : M A) :
  (forall k, P k -> P' k) -> changes_only P m -> changes_only P' m.
Proof. intros H Hm w s k Hk. apply Hm. intros HP. now apply Hk, H. Qed.

Lemma changes_nothing {A} (m : M A) :
  changes_only no_file m -> forall w s, fs (m w s).2 = fs s.
Proof. intros H w s. apply map_eq. intros k. apply H. now intros []. Qed.

(** The file a call touches is one that may change. *)
Ltac touched_file :=
  let k := fresh "k" in
  let H := fresh "H" in
  intros k H; cbn [touched] in H;
  first
    [ discriminate H
    | injection H as <-;
      unfold workflow_file, is_cookie_store, is_screenshot, is_log, log_file,
        pre_post_shot;
      eauto 8 ].

Ltac frame_step :=
  match goal with
  | |- changes_only _ (bind _ _) => apply changes_only_bind; [|intros ?]
  | |- changes_only _ (try_except _ _) => apply changes_only_try_except; [|intros ?]
  | |- changes_only _ (try_finally _ _) => apply changes_only_try_finally
  | |- changes_only ?P (call ?r) => apply (changes_only_call P r); touched_file
  | |- changes_only _ (sleep _) => apply changes_only_sleep
  | |- changes_only _ (print _) => apply changes_only_print
  | |- changes_only _ (ret _) => apply changes_only_ret
  | |- changes_only _ (raise _) => apply changes_only_raise
  | |- changes_only _ (lift _) => apply changes_only_lift
  | |- changes_only _ now_timestamp => apply changes_only_now_timestamp
  | |- changes_only _ now_strftime => apply changes_only_now_strftime
  | |- changes_only _ (path_exists _) => apply changes_only_path_exists
  | |- changes_only _ (pickle_load _) => apply changes_only_pickle_load
  | |- changes_only _ get_options => apply changes_only_get_options
  | |- changes_only _ (put_options _) => apply changes_only_put_options
  | |- changes_only _ get_driver_var => apply changes_only_get_driver_var
  | |- changes_only _ (put_driver_var _) => apply changes_only_put_driver_var
  | |- changes_only _ (if ?b then _ else _) => destruct b
  | |- changes_only _ (match ?x with _ => _ end) => destruct x
  end.

Ltac frame := repeat frame_step; eauto.

Section Frames.
Context (cred : credentials) (d : driver).

Lemma add_cookies_files valid : changes_only no_file (add_cookies d valid).
Proof. induction valid as [|c valid IH]; cbn [add_cookies]; frame. Qed.

Lemma load_cookies_files : changes_only no_file (load_cookies d).
Proof. unfold load_cookies. frame. apply add_cookies_files. Qed.

Lemma probe_login_files selectors : changes_only no_file (probe_login d selectors).
Proof. induction selectors as [|x xs IH]; cbn [probe_login]; frame. Qed.

Lemma check_login_status_files : changes_only no_file (check_login_status d).
Proof. unfold check_login_status. frame. apply probe_login_files. Qed.

Lemma save_cookies_files : changes_only is_cookie_store (save_cookies d).
Proof. unfold save_cookies. frame. Qed.

Lemma login_to_linkedin_files :
  changes_only is_cookie_store (login_to_linkedin cred d).
Proof.
  assert (changes_only is_cookie_store (load_cookies d))
    by (eapply changes_only_mono; [|apply load_cookies_files]; now intros ? []).
  assert (changes_only is_cookie_store (check_login_status d))
    by (eapply changes_only_mono; [|apply check_login_status_files]; now intros ? []).
  pose proof save_cookies_files.
  unfold login_to_linkedin, cookie_login, manual_login, enter_credentials,
    login_failed.
  frame.
Qed.

Lemma enter_paragraphs_files e ps : changes_only no_file (enter_paragraphs d e ps).
Proof. induction ps as [|p ps IH]; cbn [enter_paragraphs]; frame. Qed.

Lemma probe_success_files indicators :
  changes_only no_file (probe_success d indicators).
Proof. induction indicators as [|x xs IH]; cbn [probe_success]; frame. Qed.

Lemma create_post_files content : changes_only is_screenshot (create_post d content).
Proof.
  assert (forall e ps, changes_only is_screenshot (enter_paragraphs d e ps))
    by (intros; eapply changes_only_mono; [|apply enter_paragraphs_files];
        now intros ? []).
  assert (forall xs, changes_only is_screenshot (probe_success d xs))
    by (intros; eapply changes_only_mono; [|apply probe_success_files];
        now intros ? []).
  unfold create_post, submit_post, verify_post, post_failed, trigger_not_found,
    find_compose_trigger, find_post_field, find_submit_button, try_trigger,
    unless_found, try_locate.
  frame.
Qed.

Lemma write_log_files content : changes_only is_log (write_log content).
Proof. unfold write_log. frame. Qed.

Lemma get_driver_files : changes_only no_file get_driver.
Proof. unfold get_driver. frame. Qed.

End Frames.

(** X19: reading the cookie store and checking the login change no file. *)
Theorem readers_change_no_file (d : driver) (w : world) (s : state) :
  fs (load_cookies d w s).2 = fs s
  /\ fs (check_login_status d w s).2 = fs s.
Proof.
  split; apply changes_nothing;
    [apply load_cookies_files | apply check_login_status_files].
Qed.

(** X20: the login changes at most the cookie store, [create_post] at most
    screenshots, and the whole run at most the cookie store, screenshots,
    the log directory and log files. *)
Theorem workflow_files
    (cred : credentials) (U : UnicodeCase) (d : driver) (content : str)
    (latest : option str) :
  changes_only is_cookie_store (login_to_linkedin cred d)
  /\ changes_only is_screenshot (create_post d content)
  /\ changes_only workflow_file (post_to_linkedin cred U latest).
Proof.
  split; [apply login_to_linkedin_files|].
  split; [apply create_post_files|].
  assert (forall d, changes_only workflow_file (login_to_linkedin cred d))
    by (intros; eapply changes_only_mono; [|apply login_to_linkedin_files];
        unfold workflow_file; auto).
  assert (forall d c, changes_only workflow_file (create_post d c))
    by (intros; eapply changes_only_mono; [|apply create_post_files];
        unfold workflow_file; auto).
  assert (forall c, changes_only workflow_file (write_log c))
    by (intros; eapply changes_only_mono; [|apply write_log_files];
        unfold workflow_file; auto).
  assert (changes_only workflow_file get_driver)
    by (eapply changes_only_mono; [|apply get_driver_files]; now intros ? []).
  unfold post_to_linkedin, open_session, use_session, close_session.
  frame.
Qed.

(** *** The log of a successful run *)







Lemma post_to_linkedin_raises_on_quit_witness :
  (post_to_linkedin some_credentials ascii_case (Some breaking_news)
     quit_fails start).1 = Raise (WebDriverException "chrome not reachable")
  /\ quit_failed quit_fails
       (post_to_linkedin some_credentials ascii_case (Some breaking_news)
          quit_fails start).2
       (WebDriverException "chrome not reachable").
Proof.
  assert ((post_to_linkedin some_credentials ascii_case (Some breaking_news)
             quit_fails start).1 = Raise (WebDriverException "chrome not reachable"))
    as H by (vm_compute; reflexivity).
  split; [exact H | exact (post_to_linkedin_raises_on_quit _ _ _ _ _ _ H)].
Defined.

(** *** What is typed into the editor *)

Lemma no_blank_line s :
  chained feed_apart s = true -> contains paragraph_break s = false.
Proof.
  induction s as [|c s IH]; intros H; [done|].
  assert (chained feed_apart s = true) as Hs
    by (change (c :: s) with ([c] ++ s) in H; now apply chained_app_inv in H).
  cbn [contains]. rewrite (IH Hs), orb_false_r.
  unfold paragraph_break, nl. cbn [app startswith].
  destruct (N.eqb_spec 10 c) as [<-|]; [|done].
  destruct s as [|b s]; [done|].
  destruct (N.eqb_spec 10 b) as [<-|]; [|done].
  change (chained feed_apart (10 :: 10 :: s))
    with (feed_apart 10 10 && chained feed_apart (10 :: s)) in H. done.
Qed.

Lemma split_absent sep s : contains sep s = false -> split sep s = (s, []).
Proof.
  unfold split. induction s as [|c s IH]; [done|].
  cbn [contains split_from]. intros [H1 H2]%orb_false_elim.
  now rewrite H1, (IH H2).
Qed.

Lemma replace_from_without c new s : forall k,
  Forall (fun x => x <> c) new ->
  Forall (fun x => x <> c) (replace_from [c] new k s).
Proof.
  induction s as [|x s IH]; intros k Hnew; [constructor|].
  cbn [replace_from]. destruct k as [|k]; [|now apply IH].
  cbn [startswith]. destruct (N.eqb_spec c x) as [->|Hne]; cbn [andb].
  - apply Forall_app. split; [done | now apply IH].
  - constructor; [congruence | now apply IH].
Qed.

Lemma script_texts_cons e evs :
  script_texts (e :: evs) = script_texts [e] ++ script_texts evs.
Proof. unfold script_texts. cbn [flat_map]. now rewrite app_nil_r. Qed.

Lemma script_texts_only t evs :
  Forall (types_only t) evs -> Forall (fun x => x = t) (script_texts evs).
Proof.
  induction 1 as [|e evs [He|He] Hevs IH]; [constructor| |];
    rewrite script_texts_cons, He; [done | now constructor].
Qed.

(** The side condition of a call that hands no text to a script. *)
Ltac steps_by tac :=
  repeat match goal with
  | |- steps _ (bind _ _) => apply steps_bind; [|intros ?]
  | |- steps _ (try_except _ _) => apply steps_try_except; [|intros ?]
  | |- steps _ (try_finally _ _) => apply steps_try_finally
  | |- steps ?Q (call ?r) => apply (steps_call Q r); tac
  | |- steps _ (sleep _) => apply steps_sleep; tac
  | |- steps _ (print _) => apply steps_print; tac
  | |- steps _ (ret _) => apply steps_ret
  | |- steps _ (raise _) => apply steps_raise
  | |- steps _ (lift _) => apply steps_lift
  | |- steps _ now_timestamp => apply steps_now_timestamp
  | |- steps _ now_strftime => apply steps_now_strftime
  | |- steps _ (path_exists _) => apply steps_path_exists
  | |- steps _ (pickle_load _) => apply steps_pickle_load
  | |- steps _ get_options => apply steps_get_options
  | |- steps _ (put_options _) => apply steps_put_options
  | |- steps _ get_driver_var => apply steps_get_driver_var
  | |- steps _ (if ?b then _ else _) => destruct b
  | |- steps _ (match ?x with _ => _ end) => destruct x
  end; eauto.

Lemma probe_success_texts t d indicators :
  steps (types_only t) (probe_success d indicators).
Proof.
  induction indicators as [|x xs IH]; cbn [probe_success];
    steps_by ltac:(left; reflexivity).
Qed.

Lemma enter_paragraph_texts d e p :
  steps (types_only (replace nl br p)) (enter_paragraphs d e [p]).
Proof.
  cbn [enter_paragraphs].
  steps_by ltac:(first [left; reflexivity | right; reflexivity]).
Qed.

Lemma create_post_texts d content :
  split paragraph_break content = (content, []) ->
  steps (types_only (replace nl br content)) (create_post d content).
Proof.
  intros Hs. pose proof (probe_success_texts (replace nl br content) d).
  pose proof (enter_paragraph_texts d).
  unfold create_post, submit_post, verify_post, post_failed, trigger_not_found,
    find_compose_trigger, find_post_field, find_submit_button, try_trigger,
    unless_found, try_locate.
  rewrite Hs.
  steps_by ltac:(left; reflexivity).
Qed.

(** A formatted post has no blank line, so the paragraph loop of
    [create_post] sees it as one paragraph. *)
Lemma formatted_post_one_paragraph U content :
  split paragraph_break (format_post U content) = (format_post U content, []).
Proof.
  apply split_absent, no_blank_line.
  now destruct (format_post_laid_out U content) as (_ & ? & _).
Qed.

(** X18: given a formatted post, [create_post] hands one text to the scripts
    of the page, if any: the whole post with [<br>] for every line feed;
    the text holds no line feed. *)
Theorem create_post_types_post
    (U : UnicodeCase) (content : str) (d : driver) (w : world) (s : state) :
  split paragraph_break (format_post U content) = (format_post U content, [])
  /\ Forall (fun t => t = replace nl br (format_post U content)
                      /\ contains nl t = false)
       (script_texts
          (new_events s (create_post d (format_post U content) w s).2)).
Proof.
  split; [apply formatted_post_one_paragraph|].
  pose proof (create_post_texts d (format_post U content)
                (formatted_post_one_paragraph U content) w s) as H.
  apply extends_new_events in H as [_ H]. apply script_texts_only in H.
  eapply Forall_impl; [exact H|]. intros t ->. split; [done|].
  unfold nl. apply contains_char_false. unfold replace.
  apply replace_from_without. unfold br. now repeat constructor.
Qed.

(** *** A login is verified *)

Lemma steps_any {A} (Q : event -> Prop) (m : M A) : steps Q m -> steps any_event m.
Proof. apply steps_mono. done. Qed.

Section Vouched.
Context (E : event -> Prop).

Lemma never_true_ret_false : never_true (ret false).
Proof. intros w s s'. unfold ret. congruence. Qed.

Lemma never_true_raise e : never_true (raise e).
Proof. intros w s s'. unfold raise. congruence. Qed.

Lemma never_true_bind {A} (m : M A) (k : A -> M bool) :
  (forall a, never_true (k a)) -> never_true (bind m k).
Proof.
  intros Hk w s s'. unfold bind. destruct (m w s) as [[a|e] s1]; [apply Hk|].
  congruence.
Qed.

Lemma vouched_never m : never_true m -> vouched E m.
Proof. intros H w s s' Hm. now destruct (H w s s'). Qed.

(** The evidence comes after [m]. *)
Lemma vouched_after {A} (m : M A) (k : A -> M bool) :
  steps any_event m -> (forall a, vouched E (k a)) -> vouched E (bind m k).
Proof.
  intros Hm Hk w s s'. unfold bind. specialize (Hm w s).
  destruct (m w s) as [[a|e] s1]; [|discriminate].
  intros Hr. destruct Hm as [_ (e1 & H1 & _)]. cbn [snd] in H1.
  destruct (Hk a w s1 s' Hr) as (e2 & H2 & HE).
  exists (e1 ++ e2). rewrite H2, H1, app_assoc. split; [done|].
  apply Exists_app. now right.
Qed.

(** The evidence comes with the [True] of [m], or after its [False]. *)
Lemma vouched_either (m : M bool) (k : bool -> M bool) :
  vouched E m -> steps any_event m -> steps any_event (k true) ->
  vouched E (k false) -> vouched E (bind m k).
Proof.
  intros Hv Hm Hk Hf w s s'. unfold bind. specialize (Hm w s).
  destruct (m w s) as [[[]|e] s1] eqn:Em; [| |discriminate]; intros Hr.
  - destruct (Hv w s s1 Em) as (e1 & H1 & HE).
    specialize (Hk w s1). rewrite Hr in Hk.
    destruct Hk as [_ (e2 & H2 & _)]. cbn [snd] in H2.
    exists (e1 ++ e2). rewrite H2, H1, app_assoc. split; [done|].
    apply Exists_app. now left.
  - destruct Hm as [_ (e1 & H1 & _)]. cbn [snd] in H1.
    destruct (Hf w s1 s' Hr) as (e2 & H2 & HE).
    exists (e1 ++ e2). rewrite H2, H1, app_assoc. split; [done|].
    apply Exists_app. now right.
Qed.

Lemma vouched_try_except (m : M bool) (h : exn -> M bool) :
  vouched E m -> steps any_event m -> (forall e, vouched E (h e)) ->
  vouched E (try_except m h).
Proof.
  intros Hv Hm Hh w s s'. unfold try_except. specialize (Hm w s).
  destruct (m w s) as [[b|e] s1] eqn:Em.
  - intros [= -> ->]. now apply (Hv w).
  - intros Hr. destruct Hm as [_ (e1 & H1 & _)]. cbn [snd] in H1.
    destruct (Hh e w s1 s' Hr) as (e2 & H2 & HE).
    exists (e1 ++ e2). rewrite H2, H1, app_assoc. split; [done|].
    apply Exists_app. now right.
Qed.

End Vouched.

Lemma vouched_mono (E E' : event -> Prop) m :
  (forall e, E e -> E' e) -> vouched E m -> vouched E' m.
Proof.
  intros H Hm w s s' Hr. destruct (Hm w s s' Hr) as (evs & Ht & HE).
  exists evs. split; [done|]. eapply Exists_impl; [exact HE | exact H].
Qed.

(** Goals that a computation never returns [True]. *)
Ltac never :=
  repeat match goal with
  | |- never_true (bind _ _) => apply never_true_bind; intros ?
  | |- never_true (ret false) => apply never_true_ret_false
  | |- never_true (raise _) => apply never_true_raise
  | |- never_true (if ?b then _ else _) => destruct b
  end.

Lemma probe_login_vouched d selectors :
  vouched (verified_by selectors) (probe_login d selectors).
Proof.
  induction selectors as [|x xs IH]; cbn [probe_login].
  { apply vouched_never. never. }
  apply vouched_either.
  - intros w s s'. unfold try_except, bind.
    branch_call e E1; [|discriminate].
    branch_call shown E2; [|discriminate].
    destruct shown; exec; [|discriminate].
    intros [= <-]. exec. eexists. rewrite <- !app_assoc. split; [reflexivity|].
    apply Exists_app. right. apply Exists_cons. right. apply Exists_cons. left.
    exists x. split; [apply list_elem_of_here | done].
  - steps_by ltac:(exact I).
  - steps_by ltac:(exact I).
  - eapply vouched_mono; [|exact IH]. intros e (sel & Hin & ->).
    exists sel. split; [now apply list_elem_of_further | done].
Qed.

Lemma check_login_status_vouched d :
  vouched login_verified (check_login_status d).
Proof.
  unfold check_login_status. apply vouched_try_except.
  - apply vouched_after; [steps_by ltac:(exact I)|intros _].
    apply vouched_after; [steps_by ltac:(exact I)|intros _].
    apply vouched_after; [steps_by ltac:(exact I)|intros url].
    destruct (negb _); [apply vouched_never; never|].
    apply vouched_either.
    + apply probe_login_vouched.
    + apply (steps_any not_quit), probe_login_no_quit.
    + steps_by ltac:(exact I).
    + apply vouched_never. never.
  - apply (steps_any not_quit).
    pose proof (probe_login_no_quit d). steps_auto.
  - intros e. apply vouched_never. never.
Qed.

Section Login.
Context (cred : credentials) (d : driver).

Lemma check_login_status_any : steps any_event (check_login_status d).
Proof. apply (steps_any not_quit), check_login_status_no_quit. Qed.

Lemma load_cookies_any : steps any_event (load_cookies d).
Proof. apply (steps_any not_quit), load_cookies_no_quit. Qed.

Lemma save_cookies_any : steps any_event (save_cookies d).
Proof. apply (steps_any not_quit), save_cookies_no_quit. Qed.

Lemma cookie_login_vouched : vouched login_verified (cookie_login d).
Proof.
  pose proof check_login_status_any. pose proof load_cookies_any.
  unfold cookie_login.
  apply vouched_after; [steps_by ltac:(exact I)|intros found].
  destruct found; [|apply vouched_never; never].
  apply vouched_after; [steps_by ltac:(exact I)|intros _].
  apply vouched_after; [steps_by ltac:(exact I)|intros loaded].
  destruct loaded; [|apply vouched_never; never].
  apply vouched_after; [steps_by ltac:(exact I)|intros _].
  apply vouched_after; [steps_by ltac:(exact I)|intros _].
  apply vouched_either.
  - apply check_login_status_vouched.
  - done.
  - steps_by ltac:(exact I).
  - apply vouched_never. never.
Qed.

Lemma enter_credentials_vouched email password :
  vouched login_verified (enter_credentials d email password).
Proof.
  pose proof check_login_status_any. pose proof save_cookies_any.
  unfold enter_credentials. apply vouched_try_except.
  - do 12 (apply vouched_after; [steps_by ltac:(exact I)|intros ?]).
    apply vouched_either.
    + apply check_login_status_vouched.
    + done.
    + steps_by ltac:(exact I).
    + apply vouched_never. never.
  - steps_by ltac:(exact I).
  - intros e. apply vouched_never. never.
Qed.

Lemma cookie_login_any : steps any_event (cookie_login d).
Proof.
  pose proof check_login_status_any. pose proof load_cookies_any.
  unfold cookie_login. steps_by ltac:(exact I).
Qed.

Lemma manual_login_any : steps any_event (manual_login cred d).
Proof.
  pose proof check_login_status_any. pose proof save_cookies_any.
  unfold manual_login, enter_credentials. steps_by ltac:(exact I).
Qed.

Lemma login_to_linkedin_vouched :
  vouched login_verified (login_to_linkedin cred d).
Proof.
  pose proof cookie_login_any. pose proof manual_login_any.
  unfold login_to_linkedin. apply vouched_try_except.
  - apply vouched_after; [steps_by ltac:(exact I)|intros _].
    apply vouched_after; [steps_by ltac:(exact I)|intros _].
    apply vouched_either.
    + apply cookie_login_vouched.
    + done.
    + steps_by ltac:(exact I).
    + unfold manual_login.
      destruct (missing (email cred) || missing (password cred));
        [apply vouched_never; never|].
      do 3 (apply vouched_after; [steps_by ltac:(exact I)|intros ?]).
      apply enter_credentials_vouched.
  - steps_by ltac:(exact I).
  - intros e. apply vouched_never. unfold login_failed. never.
Qed.

End Login.

(** X22: [login_to_linkedin] returns [True] only after [check_login_status]
    has found one of the login indicators displayed on the feed page. *)
Theorem login_true_verified
    (cred : credentials) (d : driver) (w : world) (s s' : state) :
  login_to_linkedin cred d w s = (Ok true, s') ->
  Exists login_verified (new_events s s').
Proof.
  intros H. destruct (login_to_linkedin_vouched cred d w s s' H) as (evs & Ht & HE).
  unfold new_events. now rewrite Ht, drop_app_length.
Qed.

Lemma use_session_vouched cred d fc :
  vouched login_verified (use_session cred d fc).
Proof.
  unfold use_session.
  apply vouched_after; [steps_by ltac:(exact I)|intros _].
  apply vouched_either.
  - apply login_to_linkedin_vouched.
  - apply (steps_any not_quit), login_to_linkedin_no_quit.
  - cbn [negb]. apply (steps_any not_quit).
    pose proof (create_post_no_quit d). pose proof write_log_no_quit.
    steps_auto.
  - cbn [negb]. apply vouched_never. never.
Qed.

(** X23: [post_to_linkedin] returns [True] only after a verified login: during
    the run [check_login_status] has found a login indicator displayed. *)
Theorem post_to_linkedin_true_verified
    (cred : credentials) (U : UnicodeCase) (content : option str)
    (w : world) (s s' : state) :
  post_to_linkedin cred U content w s = (Ok true, s') ->
  Exists login_verified (new_events s s').
Proof.
  unfold post_to_linkedin, bind at 1, put_driver_var, try_finally.
  unfold try_except, bind at 1.
  destruct (open_session U content w (set_driver_var None s))
    as [[[d fc]|e] s1] eqn:Eo.
  2:{ unfold bind. exec.
      match goal with |- context [close_session w ?st] =>
        destruct (close_session w st) as [[u|e'] s2] end; discriminate. }
  destruct (use_session cred d fc w s1) as [[b|e] s2] eqn:Eu.
  2:{ unfold bind. exec.
      match goal with |- context [close_session w ?st] =>
        destruct (close_session w st) as [[u|e'] s3] end; discriminate. }
  assert (steps any_event close_session) as Hc
    by (unfold close_session; steps_by ltac:(exact I)).
  specialize (Hc w s2).
  destruct (close_session w s2) as [[u|e'] s3]; [|discriminate].
  intros [= -> <-]. destruct Hc as [_ (e3 & H3 & _)]. cbn [snd] in H3.
  destruct (open_session_ok U content w _ d fc s1 Eo) as (_ & e1 & H1 & _).
  destruct (use_session_vouched cred d fc w s1 s2 Eu) as (e2 & H2 & HE).
  unfold new_events. rewrite H3, H2, H1. cbn [trace set_driver_var].
  rewrite <- !app_assoc, drop_app_length.
  apply Exists_app. right. apply Exists_app. now left.
Qed.

Lemma post_to_linkedin_true_verified_witness :
  post_to_linkedin some_credentials ascii_case None calm start
  = (Ok true, (post_to_linkedin some_credentials ascii_case None calm start).2)
  /\ Exists login_verified
       (new_events start
          (post_to_linkedin some_credentials ascii_case None calm start).2).
Proof.
  assert (post_to_linkedin some_credentials ascii_case None calm start
          = (Ok true, (post_to_linkedin some_credentials ascii_case None
                         calm start).2)) as H
    by (vm_compute; reflexivity).
  split; [exact H | exact (post_to_linkedin_true_verified _ _ _ _ _ _ H)].
Defined.

Lemma login_true_verified_witness :
  login_to_linkedin some_credentials session calm start
  = (Ok true, (login_to_linkedin some_credentials session calm start).2)
  /\ Exists login_verified
       (new_events start (login_to_linkedin some_credentials session calm start).2).
Proof.
  assert (login_to_linkedin some_credentials session calm start
          = (Ok true, (login_to_linkedin some_credentials session calm start).2))
    as H by (vm_compute; reflexivity).
  split; [exact H | exact (login_true_verified _ _ _ _ _ H)].
Defined.

(** *** The options of the session *)

Lemma started_with_app a b :
  started_with (a ++ b) = started_with a ++ started_with b.
Proof. apply omap_app. Qed.

Lemma started_with_none evs : Forall no_start evs -> started_with evs = [].
Proof.
  induction 1 as [|e evs He Hevs IH]; [done|].
  change (e :: evs) with ([e] ++ evs). now rewrite started_with_app, He, IH.
Qed.

(** [get_driver] starts the session with the options as they are, and
    adds [--headless] to them when the session is there. *)
Lemma get_driver_run w s :
  exists evs,
    trace (get_driver w s).2 = trace s ++ evs
    /\ Forall (fun o => o = options s) (started_with evs)
    /\ driver_var (get_driver w s).2 = driver_var s
    /\ forall d, (get_driver w s).1 = Ok d ->
         options (get_driver w s).2 = options s ++ [Argument "--headless"]
         /\ started_with evs = [options s].
Proof.
  unfold get_driver, bind.
  branch_call service E1.
  2:{ eexists. split; [reflexivity|]. split; [constructor|]. done. }
  branch_call d E2.
  2:{ eexists. rewrite <- app_assoc. split; [reflexivity|].
      split; [now repeat constructor|]. done. }
  branch_call u E3.
  2:{ eexists. rewrite <- !app_assoc. split; [reflexivity|].
      split; [now repeat constructor|]. done. }
  eexists. rewrite <- !app_assoc. split; [reflexivity|].
  split; [now repeat constructor|]. done.
Qed.

(** X24: the first session of a poster is started without [--headless], a
    second one with it. *)
Theorem get_driver_headless_later
    (w : world) (s s1 s2 : state) (d1 d2 : driver) :
  get_driver w s = (Ok d1, s1) -> get_driver w s1 = (Ok d2, s2) ->
  started_with (new_events s s2)
  = [options s; options s ++ [Argument "--headless"]].
Proof.
  intros H1 H2.
  destruct (get_driver_run w s) as (e1 & Ht1 & _ & _ & Hd1).
  destruct (get_driver_run w s1) as (e2 & Ht2 & _ & _ & Hd2).
  rewrite H1 in Ht1, Hd1. rewrite H2 in Ht2, Hd2. cbn [fst snd] in *.
  destruct (Hd1 d1 eq_refl) as [Ho1 Hs1]. destruct (Hd2 d2 eq_refl) as [_ Hs2].
  unfold new_events. rewrite Ht2, Ht1, <- app_assoc, drop_app_length.
  now rewrite started_with_app, Hs1, Hs2, Ho1.
Qed.

Section NoStart.
Context (cred : credentials) (d : driver).

Lemma add_cookies_no_start valid : steps no_start (add_cookies d valid).
Proof. induction valid as [|c valid IH]; cbn [add_cookies]; steps_auto. Qed.

Lemma probe_login_no_start selectors : steps no_start (probe_login d selectors).
Proof. induction selectors as [|x xs IH]; cbn [probe_login]; steps_auto. Qed.

Lemma login_to_linkedin_no_start : steps no_start (login_to_linkedin cred d).
Proof.
  pose proof add_cookies_no_start. pose proof probe_login_no_start.
  unfold login_to_linkedin, cookie_login, manual_login, enter_credentials,
    login_failed, load_cookies, check_login_status, save_cookies.
  steps_auto.
Qed.

Lemma enter_paragraphs_no_start e ps : steps no_start (enter_paragraphs d e ps).
Proof. induction ps as [|p ps IH]; cbn [enter_paragraphs]; steps_auto. Qed.

Lemma probe_success_no_start indicators :
  steps no_start (probe_success d indicators).
Proof. induction indicators as [|x xs IH]; cbn [probe_success]; steps_auto. Qed.

Lemma use_session_no_start content : steps no_start (use_session cred d content).
Proof.
  pose proof login_to_linkedin_no_start.
  pose proof enter_paragraphs_no_start. pose proof probe_success_no_start.
  unfold use_session, create_post, submit_post, verify_post, post_failed,
    trigger_not_found, find_compose_trigger, find_post_field,
    find_submit_button, try_trigger, unless_found, try_locate, write_log.
  steps_auto.
Qed.

End NoStart.

(** What follows [m] in a [try] statement with handler and [finally]
    block only adds events of the kind that continuation, handler and
    block produce. *)
Lemma extends_after {A B} (Q : event -> Prop)
    (m : M A) (k : A -> M B) (h : exn -> M B) (f : M unit) w s :
  (forall a, steps Q (k a)) -> (forall e, steps Q (h e)) -> steps Q f ->
  extends Q (m w s).2 (try_finally (try_except (bind m k) h) f w s).2.
Proof.
  intros Hk Hh Hf. unfold try_finally, try_except, bind.
  destruct (m w s) as [[a|e] s1]; cbn [snd].
  - pose proof (Hk a w s1) as H1. destruct (k a w s1) as [[b|e] s2].
    + pose proof (Hf w s2) as H2. destruct (f w s2) as [[u|e] s3];
        eapply extends_trans; eauto.
    + pose proof (Hh e w s2) as H2. destruct (h e w s2) as [r s3].
      pose proof (Hf w s3) as H3. destruct (f w s3) as [[u|e'] s4];
        eapply extends_trans; eauto; eapply extends_trans; eauto.
  - pose proof (Hh e w s1) as H2. destruct (h e w s1) as [r s3].
    pose proof (Hf w s3) as H3. destruct (f w s3) as [[u|e'] s4];
      eapply extends_trans; eauto.
Qed.

(** X25: a poster that has started no session yet starts the browser of
    [post_to_linkedin] with the options of [__init__]: the argument
    [--headless], which [get_driver] adds afterwards, plays no part in the
    run. *)
Theorem post_to_linkedin_not_headless
    (cred : credentials) (U : UnicodeCase) (content : option str)
    (w : world) (s : state) :
  options s = initial_options ->
  Forall (fun opts => opts = initial_options
                      /\ Argument "--headless" ∉ opts)
    (started_with (new_events s (post_to_linkedin cred U content w s).2)).
Proof.
  intros Ho. unfold post_to_linkedin, bind at 1, put_driver_var.
  set (s0 := set_driver_var None s).
  assert (exists evs, trace (open_session U content w s0).2 = trace s ++ evs
                      /\ Forall (fun o => o = initial_options) (started_with evs))
    as (e1 & Ht1 & Hs1).
  { unfold open_session, bind.
    assert (exists sa r, (match content with
                          | Some c => ret c
                          | None => call GetLatestPost
                          end) w s0 = (r, sa)
              /\ options sa = initial_options
              /\ exists evs, trace sa = trace s ++ evs /\ started_with evs = [])
      as (sa & r & -> & Hoa & ea & Hta & Hsa).
    { destruct content as [c|].
      - exists s0, (Ok c). split; [done|]. split; [done|]. exists [].
        now rewrite app_nil_r.
      - unfold call. destruct (answer w (trace s0) GetLatestPost) as [c|msg];
          eexists _, _; (split; [reflexivity|]); (split; [done|]);
          exists [Did GetLatestPost]; done. }
    destruct r as [c|e]; [|exists ea; rewrite Hsa; now split].
    destruct (get_driver_run w sa) as (eg & Htg & Hsg & _ & _).
    rewrite Hoa in Hsg.
    destruct (get_driver w sa) as [[d|e] sb]; cbn [snd] in *; exec;
      exists (ea ++ eg); rewrite Htg, Hta, app_assoc, started_with_app, Hsa;
      done. }
  pose proof (extends_after no_start (open_session U content)
                (fun '(d, fc) => use_session cred d fc)
                (fun e => print [Text "Error posting to LinkedIn: "; ShowExn e];;
                          ret false)%io
                close_session w s0) as Hrest.
  destruct Hrest as [_ (e2 & Ht2 & Hs2)].
  - intros [d fc]. apply use_session_no_start.
  - intros e. steps_auto.
  - unfold close_session. steps_auto.
  - unfold new_events. rewrite Ht2, Ht1, <- app_assoc, drop_app_length.
    rewrite started_with_app, (started_with_none e2 Hs2), app_nil_r.
    eapply Forall_impl; [exact Hs1|]. intros o ->. split; [done|].
    unfold initial_options. intros H.
    repeat (apply elem_of_cons in H as [H|H]; [discriminate H|]).
    inversion H.
Qed.

Lemma get_driver_headless_later_witness :
  get_driver calm start = (Ok session, (get_driver calm start).2)
  /\ get_driver calm (get_driver calm start).2
     = (Ok session, (get_driver calm (get_driver calm start).2).2)
  /\ started_with (new_events start (get_driver calm (get_driver calm start).2).2)
     = [initial_options; initial_options ++ [Argument "--headless"]].
Proof.
  assert (get_driver calm start = (Ok session, (get_driver calm start).2)) as H1
    by (vm_compute; reflexivity).
  assert (get_driver calm (get_driver calm start).2
          = (Ok session, (get_driver calm (get_driver calm start).2).2)) as H2
    by (vm_compute; reflexivity).
  split; [exact H1|]. split; [exact H2|].
  exact (get_driver_headless_later _ _ _ _ _ _ H1 H2).
Defined.

Lemma post_to_linkedin_not_headless_witness :
  options start = initial_options
  /\ Forall (fun opts => opts = initial_options
                         /\ Argument "--headless" ∉ opts)
       (started_with
          (new_events start
             (post_to_linkedin some_credentials ascii_case (Some breaking_news)
                calm start).2)).
Proof.
  split; [reflexivity|].
  apply (post_to_linkedin_not_headless some_credentials ascii_case
           (Some breaking_news) calm start).
  reflexivity.
Defined.

(** *** The cookie store, written and read back *)

Lemma save_cookies_stores w s d s1 :
  save_cookies d w s = (Ok true, s1) ->
  exists cookies,
    answer w (trace s ++ [Slept 3]) (GetCookies d) = Done cookies
    /\ fs s1 !! cookies_file = Some (Pickle cookies).
Proof.
  unfold save_cookies, try_except, bind. exec.
  branch_call cookies E1; [|discriminate].
  destruct (any_essential cookies) as [[]|e]; exec; [|discriminate..].
  branch_call u1 E2; [|discriminate].
  branch_call u2 E3; [|discriminate].
  intros [= <-]. exists cookies. split; [done|]. exec.
  apply lookup_insert_eq.
Qed.

Lemma add_cookies_exact d valid : forall w s,
  exists s' evs,
    add_cookies d valid w s = (Ok tt, s')
    /\ trace s' = trace s ++ evs /\ added_cookies evs = valid.
Proof.
  induction valid as [|c valid IH]; intros w s; cbn [add_cookies].
  - exists s, []. now rewrite app_nil_r.
  - unfold bind, try_except, call.
    destruct (answer w (trace s) (AddCookie d c)) as [[]|msg].
    + match goal with |- context [add_cookies d valid w ?s1] =>
        destruct (IH w s1) as (s' & evs & -> & Ht & Hq) end.
      exists s', (Did (AddCookie d c) :: evs). simpl in *.
      rewrite Ht, <- app_assoc. repeat split; try done. now rewrite Hq.
    + unfold print at 1.
      match goal with |- context [add_cookies d valid w ?s1] =>
        destruct (IH w s1) as (s' & evs & -> & Ht & Hq) end.
      eexists s', (Did (AddCookie d c) :: _ :: evs). simpl in *.
      rewrite Ht, <- !app_assoc. repeat split; try done. now rewrite Hq.
Qed.

Lemma load_cookies_hands w s d stored valid :
  fs s !! cookies_file = Some (Pickle stored) ->
  answer w (trace s) (OpenRead cookies_file) = Done tt ->
  valid_cookies (clock w (trace s ++ [Did (OpenRead cookies_file)])) stored
  = Ok valid ->
  added_cookies (new_events s (load_cookies d w s).2) = valid.
Proof.
  intros Hfs Hopen Hvalid. unfold load_cookies, try_except, bind. exec.
  rewrite Hfs, bool_decide_eq_true_2 by eauto. exec.
  rewrite (run_call_done _ _ _ _ Hopen). exec.
  rewrite (run_pickle_load cookies_file stored) by (exec; exact Hfs).
  exec. rewrite Hvalid. exec. unfold new_events.
  destruct valid as [|c valid].
  - exec. rewrite <- !app_assoc, drop_app_length. done.
  - match goal with |- context [add_cookies d (c :: valid) w ?s1] =>
      destruct (add_cookies_exact d (c :: valid) w s1) as (s' & evs & -> & Ht & Hq)
    end.
    exec. rewrite Ht. exec. rewrite <- !app_assoc, drop_app_length.
    cbn [app]. change (Did (OpenRead cookies_file) :: evs ++ ?l)
      with ([Did (OpenRead cookies_file)] ++ evs ++ l).
    rewrite !added_cookies_app, Hq. cbn. now rewrite app_nil_r.
Qed.

Lemma pop_attributes_stripped c : stripped_of c (pop_attributes c).
Proof.
  intros k. unfold pop_attributes, session_attributes.
  destruct (decide (k = "domain")) as [->|H1].
  { rewrite lookup_delete_eq. reflexivity. }
  rewrite lookup_delete_ne by done.
  destruct (decide (k = "expires")) as [->|H2].
  { rewrite lookup_delete_eq. reflexivity. }
  rewrite lookup_delete_ne by done.
  destruct (decide (k = "expiry")) as [->|H3].
  { rewrite lookup_delete_eq. reflexivity. }
  rewrite lookup_delete_ne by done.
  rewrite bool_decide_eq_false_2; [done|].
  rewrite !elem_of_cons, elem_of_nil. intuition congruence.
Qed.

(** The loop of [load_cookies] on records whose expiry times are numbers:
    it keeps the records that have not expired, in their order, each
    without its session attributes. *)
Lemma valid_cookies_unexpired t cookies :
  Forall numeric_expiry cookies ->
  exists valid,
    valid_cookies t cookies = Ok valid
    /\ Forall2 stripped_of (filter (unexpired t) cookies) valid.
Proof.
  induction 1 as [|c cookies Hc Hcs (valid & IH & Hv)].
  { exists []. split; [done | constructor]. }
  cbn [valid_cookies]. rewrite filter_cons.
  unfold numeric_expiry in Hc. unfold expired.
  destruct (decide (unexpired t c)) as [Hu|Hu]; unfold unexpired in Hu;
    destruct (c !! "expiry") as [[x|q|x|]|] eqn:E; try done.
  - assert (Qle_bool q t = false) as ->.
    { destruct (Qle_bool q t) eqn:Eq; [|done]. apply Qle_bool_iff in Eq.
      exfalso. exact (Qle_not_lt _ _ Eq (Hu q eq_refl)). }
    rewrite IH. eexists. split; [reflexivity|].
    constructor; [apply pop_attributes_stripped | done].
  - rewrite IH. eexists. split; [reflexivity|].
    constructor; [apply pop_attributes_stripped | done].
  - assert (Qle_bool q t = true) as ->.
    { apply Qle_bool_iff. apply Qnot_lt_le. intros Hlt. apply Hu.
      now intros ? [= <-]. }
    exists valid. done.
  - exfalso. apply Hu. intros ? [=].
Qed.

(** X26: what [save_cookies] has stored, [load_cookies] hands back: after
    [save_cookies] has returned [True], a later [load_cookies] that can
    open the file passes to [driver.add_cookie], in their order, exactly
    the cookies of the saved session whose expiry time is later than the
    time of the load (or that have none), each without the attributes
    [expiry], [expires] and [domain] and otherwise as it was saved; the
    expiry times being numbers, as the browser reports them. *)
Theorem store_round_trip (w : world) (s s1 : state) (d : driver) :
  save_cookies d w s = (Ok true, s1) ->
  exists cookies,
    answer w (trace s ++ [Slept 3]) (GetCookies d) = Done cookies
    /\ forall w' d',
         answer w' (trace s1) (OpenRead cookies_file) = Done tt ->
         Forall numeric_expiry cookies ->
         Forall2 stripped_of
           (filter (unexpired (clock w' (trace s1 ++ [Did (OpenRead cookies_file)])))
              cookies)
           (added_cookies (new_events s1 (load_cookies d' w' s1).2)).
Proof.
  intros H. destruct (save_cookies_stores w s d s1 H) as (cookies & Hget & Hfs).
  exists cookies. split; [done|]. intros w' d' Hopen Hnum.
  destruct (valid_cookies_unexpired
              (clock w' (trace s1 ++ [Did (OpenRead cookies_file)])) cookies Hnum)
    as (valid & Hvalid & Hspec).
  now rewrite (load_cookies_hands w' s1 d' cookies valid Hfs Hopen Hvalid).
Qed.

Lemma store_round_trip_witness :
  save_cookies session two_session_cookies start
  = (Ok true, (save_cookies session two_session_cookies start).2)
  /\ filter (unexpired 10) [stale_cookie; fresh_cookie] = [fresh_cookie]
  /\ Forall2 stripped_of [fresh_cookie]
       (added_cookies
          (new_events (save_cookies session two_session_cookies start).2
             (load_cookies session calm
                (save_cookies session two_session_cookies start).2).2))
  /\ added_cookies
       (new_events (save_cookies session two_session_cookies start).2
          (load_cookies session calm
             (save_cookies session two_session_cookies start).2).2)
     = [ {[ "name" := VStr "JSESSIONID"; "value" := VStr "new" ]} ].
Proof.
  assert (save_cookies session two_session_cookies start
          = (Ok true, (save_cookies session two_session_cookies start).2)) as H
    by (vm_compute; reflexivity).
  split; [exact H|]. split; [vm_compute; reflexivity|].
  split; [|vm_compute; reflexivity].
  destruct (store_round_trip _ _ _ _ H) as (cookies & Hget & Hload).
  injection Hget as <-.
  apply (Hload calm session); [vm_compute; reflexivity|].
  repeat constructor.
Defined.

End ConductFacts.

